(** * wav_split: framing of PCM audio and collection of voiced segments

    A shallow embedding of [src/wav_split.py] (the functions
    [frame_generator] and [vad_collector] and the class [Frame]) and the
    properties of the framer and of the two-state segment collector.
    [read_wave] is embedded from what [wave] gives of the file on; the
    filter of [resample_poly] is a parameter. [write_wave] is four calls
    of [wave] and is left out.

    Python values are modelled as follows.
    - [int] is [Z].
    - [float] is an IEEE 754 binary64 number, [spec_float] with
      [prec = 53] and [emax = 1024]; every operation rounds to nearest,
      ties to even, as the Python operation does.
    - [bytes] is [list byte]; [len] is the length as a [Z].
    - an exception is a value of [exn]; a computation that may raise
      returns a [result].
    - a generator is described by the list of the values it yields and by
      the way it ends ([trace]).
    - a numpy array of [int16] is the list of its values, each an [int]
      of the range of [int16]; its bytes are those of a little-endian
      machine, the low byte first. *)

From Stdlib Require Import ZArith List Bool Lia.
From Stdlib.Strings Require Import Byte.
From Stdlib Require Import SpecFloat.
Import ListNotations.

Local Open Scope Z_scope.

(** ** Python numbers *)

Module Py.

Inductive exn : Type :=
| ZeroDivisionError
| OverflowError
| ValueError
| ClassifierError.

Inductive result (A : Type) : Type :=
| Ok (a : A)
| Raise (e : exn).

Arguments Ok {A} a.
Arguments Raise {A} e.

Definition bind {A B : Type} (r : result A) (k : A -> result B) : result B :=
  match r with
  | Ok a => k a
  | Raise e => Raise e
  end.

Notation "x <- r ;; k" := (bind r (fun x => k))
  (at level 61, r at next level, right associativity).

(** binary64 *)
Definition prec : Z := 53.
Definition emax : Z := 1024.

Definition float : Type := spec_float.

Definition fadd : float -> float -> float := SFadd prec emax.
Definition fmul : float -> float -> float := SFmul prec emax.
Definition fltb : float -> float -> bool := SFltb.

(** The nearest binary64 number to an integer; an infinity when the integer
    is beyond the range. *)
Definition round_int (z : Z) : float := binary_normalize prec emax z 0 false.

(** [float(z)], and the implicit conversion of an [int] operand of a mixed
    operation: [OverflowError] when [z] is too large. *)
Definition float_of_int (z : Z) : result float :=
  match round_int z with
  | S754_infinity _ => Raise OverflowError
  | f => Ok f
  end.

Definition is_zero (f : float) : bool :=
  match f with
  | S754_zero _ => true
  | _ => false
  end.

(** [x / y] on floats: a zero divisor raises. *)
Definition float_truediv (x y : float) : result float :=
  if is_zero y then Raise ZeroDivisionError else Ok (SFdiv prec emax x y).

(** [a / b] on ints: the correctly rounded quotient of the two integers. *)
Definition int_truediv (a b : Z) : result float :=
  if b =? 0 then Raise ZeroDivisionError
  else if a =? 0 then Ok (S754_zero (b <? 0))
  else
    let '(q, e, l) := SFdiv_core_binary prec emax (Z.abs a) 0 (Z.abs b) 0 in
    match binary_round_aux prec emax (xorb (a <? 0) (b <? 0)) q e l with
    | S754_infinity _ => Raise OverflowError
    | f => Ok f
    end.

(** [int(f)]: truncation towards zero. *)
Definition int_of_float (f : float) : result Z :=
  match f with
  | S754_zero _ => Ok 0
  | S754_finite s m e => Ok (cond_Zopp s (Z.shiftl (Zpos m) e))
  | S754_infinity _ => Raise OverflowError
  | S754_nan => Raise ValueError
  end.

(** [c > f] for an int [c] and a float [f]: the comparison is exact, the
    integer is not rounded. *)
Definition int_gt_float (c : Z) (f : float) : bool :=
  match f with
  | S754_nan => false
  | S754_infinity s => s
  | S754_zero _ => 0 <? c
  | S754_finite s m e =>
      if 0 <=? e then cond_Zopp s (Zpos m * 2 ^ e) <? c
      else cond_Zopp s (Zpos m) <? c * 2 ^ (- e)
  end.

(** The literals of the source. *)
Definition f_0_0 : float := S754_zero false.
Definition f_0_9 : float := S754_finite false 8106479329266893 (-53).
Definition f_2_0 : float := Eval cbv in round_int 2.
Definition f_1000_0 : float := Eval cbv in round_int 1000.

(** [len(b)] *)
Definition len {A : Type} (l : list A) : Z := Z.of_nat (length l).

(** [l[a:b]] with Python's treatment of negative and out-of-range bounds. *)
Definition clamp_index (n i : Z) : Z :=
  if i <? 0 then Z.max (i + n) 0 else Z.min i n.

Definition slice {A : Type} (l : list A) (a b : Z) : list A :=
  let lo := clamp_index (len l) a in
  let hi := clamp_index (len l) b in
  firstn (Z.to_nat (hi - lo)) (skipn (Z.to_nat lo) l).

(** What a generator does when it is run: the values it yields, in order,
    and how it ends. [Running] is a generator that has more to yield when
    the values asked for have been taken from it. *)
Inductive ending : Type :=
| Done
| Raised (e : exn)
| Running.

Record trace (A : Type) : Type := mkTrace {
  yielded : list A;
  ended : ending
}.

Arguments mkTrace {A} yielded ended.
Arguments yielded {A} t.
Arguments ended {A} t.

Definition yield {A : Type} (a : A) (t : trace A) : trace A :=
  mkTrace (a :: yielded t) (ended t).

Definition yield_all {A : Type} (l : list A) (t : trace A) : trace A :=
  mkTrace (l ++ yielded t) (ended t).

End Py.

Import Py.

Definition bytes_t : Type := list byte.

(** ** The framer *)

(** class Frame *)
Record Frame : Type := mkFrame {
  bytes : bytes_t;
  timestamp : float;
  duration : float
}.

(** [n = int(sample_rate * (frame_duration_ms / 1000.0) * 2)] *)
Definition frame_size (frame_duration_ms sample_rate : Z) : result Z :=
  fd <- float_of_int frame_duration_ms ;;
  q <- float_truediv fd f_1000_0 ;;
  sr <- float_of_int sample_rate ;;
  int_of_float (fmul (fmul sr q) f_2_0).

(** [duration = (float(n) / sample_rate) / 2.0] *)
Definition frame_duration (n sample_rate : Z) : result float :=
  fn <- float_of_int n ;;
  sr <- float_of_int sample_rate ;;
  q <- float_truediv fn sr ;;
  float_truediv q f_2_0.

(** The [while] loop of [frame_generator]; [fuel] is the number of frames
    taken from the generator, which may have more of them. *)
Fixpoint frame_loop (fuel : nat) (n : Z) (duration : float) (audio : bytes_t)
    (offset : Z) (timestamp : float) : trace Frame :=
  match fuel with
  | O => mkTrace [] (if offset + n <? len audio then Running else Done)
  | S fuel' =>
      if offset + n <? len audio then
        yield (mkFrame (slice audio offset (offset + n)) timestamp duration)
              (frame_loop fuel' n duration audio (offset + n)
                          (fadd timestamp duration))
      else mkTrace [] Done
  end.

Definition frame_generator (fuel : nat) (frame_duration_ms : Z)
    (audio : bytes_t) (sample_rate : Z) : trace Frame :=
  match frame_size frame_duration_ms sample_rate with
  | Raise e => mkTrace [] (Raised e)
  | Ok n =>
      match frame_duration n sample_rate with
      | Raise e => mkTrace [] (Raised e)
      | Ok duration => frame_loop fuel n duration audio 0 f_0_0
      end
  end.

(** ** The segment collector *)

(** The largest [maxlen] a deque accepts (a C [Py_ssize_t], 64 bits). *)
Definition PY_SSIZE_T_MAX : Z := 2 ^ 63 - 1.

(** [collections.deque(maxlen=maxlen)]: the constructor checks the bound;
    the deque itself is the list of its elements, oldest first. *)
Definition deque_new (maxlen : Z) : result Z :=
  if maxlen <? 0 then Raise ValueError
  else if PY_SSIZE_T_MAX <? maxlen then Raise OverflowError
  else Ok maxlen.

(** [d.append(x)]: the element is added on the right and, when the deque
    is then longer than [maxlen], the leftmost element is dropped. *)
Definition deque_append {A : Type} (maxlen : Z) (d : list A) (x : A) : list A :=
  let d' := d ++ [x] in
  if maxlen <? len d' then tl d' else d'.

(** [num_padding_frames = int(padding_duration_ms / frame_duration_ms)],
    checked by the deque constructor. *)
Definition num_padding_frames (frame_duration_ms padding_duration_ms : Z)
  : result Z :=
  q <- int_truediv padding_duration_ms frame_duration_ms ;;
  w <- int_of_float q ;;
  deque_new w.

(** The local variables of [vad_collector] that live across iterations. *)
Record state : Type := mkState {
  triggered : bool;
  ring_buffer : list (Frame * bool);
  voiced_frames : list Frame
}.

Definition initial : state := mkState false [] [].

(** [len([f for f, speech in ring_buffer if speech])] *)
Definition num_voiced (rb : list (Frame * bool)) : Z :=
  len (filter (fun p => snd p) rb).

(** [len([f for f, speech in ring_buffer if not speech])] *)
Definition num_unvoiced (rb : list (Frame * bool)) : Z :=
  len (filter (fun p => negb (snd p)) rb).

(** [count > 0.9 * ring_buffer.maxlen] *)
Definition exceeds (count maxlen : Z) : bool :=
  int_gt_float count (fmul f_0_9 (round_int maxlen)).

(** [b''.join([f.bytes for f in voiced_frames])] *)
Definition join (fs : list Frame) : bytes_t := concat (map bytes fs).

(** The body of the [for] loop once the vote [is_speech] of the frame is
    known: the next state and the segments yielded (none or one). *)
Definition collect_frame (maxlen : Z) (st : state) (frame : Frame)
    (is_speech : bool) : state * list bytes_t :=
  if negb (triggered st) then
    let rb := deque_append maxlen (ring_buffer st) (frame, is_speech) in
    if exceeds (num_voiced rb) maxlen then
      (mkState true [] (voiced_frames st ++ map fst rb), [])
    else
      (mkState false rb (voiced_frames st), [])
  else
    let vf := voiced_frames st ++ [frame] in
    let rb := deque_append maxlen (ring_buffer st) (frame, is_speech) in
    if exceeds (num_unvoiced rb) maxlen then
      (mkState false [] [], [join vf])
    else
      (mkState true rb vf, []).

(** What follows the loop: the leftover voiced audio, if any. *)
Definition flush (st : state) : trace bytes_t :=
  match voiced_frames st with
  | [] => mkTrace [] Done
  | _ :: _ => mkTrace [join (voiced_frames st)] Done
  end.

Section Collector.

(** The classifier is an object with a state of its own; a call of
    [vad.is_speech(frame.bytes, sample_rate)] returns a vote or raises,
    and leaves the object in a new state. *)
Context {V : Type}.
Variable is_speech : V -> bytes_t -> Z -> V * result bool.
Variable sample_rate : Z.

Fixpoint collect_loop (maxlen : Z) (vad : V) (st : state)
    (frames : list Frame) : trace bytes_t :=
  match frames with
  | [] => flush st
  | frame :: rest =>
      match is_speech vad (bytes frame) sample_rate with
      | (_, Raise e) => mkTrace [] (Raised e)
      | (vad', Ok speech) =>
          let '(st', out) := collect_frame maxlen st frame speech in
          yield_all out (collect_loop maxlen vad' st' rest)
      end
  end.

Definition vad_collector (frame_duration_ms padding_duration_ms : Z)
    (vad : V) (frames : list Frame) : trace bytes_t :=
  match num_padding_frames frame_duration_ms padding_duration_ms with
  | Raise e => mkTrace [] (Raised e)
  | Ok maxlen => collect_loop maxlen vad initial frames
  end.

(** The votes the classifier gives on the frames, in the order of the
    calls, up to the first call that raises. *)
Fixpoint votes (vad : V) (frames : list Frame)
  : list (Frame * bool) * option exn :=
  match frames with
  | [] => ([], None)
  | frame :: rest =>
      match is_speech vad (bytes frame) sample_rate with
      | (_, Raise e) => ([], Some e)
      | (vad', Ok speech) =>
          let '(vs, r) := votes vad' rest in ((frame, speech) :: vs, r)
      end
  end.

End Collector.

(** The loop on frames whose votes are known: the state reached and the
    segments yielded on the way. *)
Fixpoint collect_votes (maxlen : Z) (st : state) (fvs : list (Frame * bool))
  : state * list bytes_t :=
  match fvs with
  | [] => (st, [])
  | (frame, speech) :: rest =>
      let '(st', out) := collect_frame maxlen st frame speech in
      let '(st'', outs) := collect_votes maxlen st' rest in
      (st'', out ++ outs)
  end.

(** A classifier that reads its votes from a script, one per call. *)
Definition scripted (script : list (result bool)) (_ : bytes_t) (_ : Z)
  : list (result bool) * result bool :=
  match script with
  | [] => ([], Raise ClassifierError)
  | r :: script' => (script', r)
  end.

(** A classifier without state that votes by a function of the bytes. *)
Definition stateless (f : bytes_t -> Z -> result bool) (_ : unit)
    (b : bytes_t) (sr : Z) : unit * result bool :=
  (tt, f b sr).

(** The ring buffer after the elements [xs] were appended to [rb]. *)
Definition pushes {A : Type} (maxlen : Z) (rb xs : list A) : list A :=
  fold_left (deque_append maxlen) xs rb.

(** The state of the classifier after successful calls on [frames]. *)
Fixpoint vad_after {V : Type} (is_speech : V -> bytes_t -> Z -> V * result bool)
    (sample_rate : Z) (vad : V) (frames : list Frame) : V :=
  match frames with
  | [] => vad
  | frame :: rest =>
      vad_after is_speech sample_rate
                (fst (is_speech vad (bytes frame) sample_rate)) rest
  end.

(** [seg] is the bytes of a non-empty run of consecutive frames of
    [frames], joined in order: the frames [i], ..., [j - 1]. *)
Definition consecutive (frames : list Frame) (seg : bytes_t) : Prop :=
  exists i j : nat,
    (i < j <= length frames)%nat
    /\ seg = join (firstn (j - i) (skipn i frames)).

(** What the collector keeps true of its state once it has read the frames
    [p]: the ring buffer holds the last frames read, and the segment list
    is empty in NOT_TRIGGERED and holds the last frames read, at least one,
    in TRIGGERED. *)
Definition state_inv (p : list Frame) (st : state) : Prop :=
  (exists a : nat, (a <= length p)%nat /\ map fst (ring_buffer st) = skipn a p)
  /\ (if triggered st
      then exists a : nat, (a < length p)%nat /\ voiced_frames st = skipn a p
      else voiced_frames st = []).

(** A float that is not below zero, by its shape. *)
Definition not_negative (f : float) : Prop :=
  match f with
  | S754_zero s | S754_infinity s | S754_finite s _ _ => s = false
  | S754_nan => True
  end.

(** The timestamp after [k] more frames: [timestamp += duration], [k]
    times. *)
Fixpoint advance (t d : float) (k : nat) : float :=
  match k with
  | O => t
  | S k' => advance (fadd t d) d k'
  end.

(** Whether the threshold [0.9 * w] computed in binary64 has the integer
    part of the exact [9 * w / 10]. *)
Definition threshold_agrees (w : Z) : bool :=
  match int_of_float (fmul f_0_9 (round_int w)) with
  | Ok z => z =? 9 * w / 10
  | Raise _ => false
  end.

(** 24001 bytes of silence: the framer makes 25 frames of 960 bytes of
    them. *)
Definition silence : bytes_t := repeat x00 (Z.to_nat 24001).

(** The value of a finite float in units of [2 ^ -1074], the smallest
    binary64 number above zero; it is an integer for a float of the format.
    The other floats count for zero. *)
Definition scaled (f : float) : Z :=
  match f with
  | S754_finite s m e => cond_Zopp s (Zpos m * 2 ^ (e + 1074))
  | _ => 0
  end.

(** A float of the format that is finite and above zero. *)
Definition pos_finite (f : float) : bool :=
  match f with
  | S754_finite false m e => bounded prec emax m e
  | _ => false
  end.

(** The bytes of the frames [i], ..., [j - 1] of [frames], joined, for a
    run [(i, j)]. *)
Definition run_bytes (frames : list Frame) (r : nat * nat) : bytes_t :=
  join (firstn (snd r - fst r) (skipn (fst r) frames)).

(** Runs that are not empty, do not overlap and follow one another between
    the positions [lo] and [hi]. *)
Fixpoint ordered (lo : nat) (rs : list (nat * nat)) (hi : nat) : Prop :=
  match rs with
  | [] => (lo <= hi)%nat
  | (i, j) :: rest => (lo <= i < j)%nat /\ ordered j rest hi
  end.

(** A closed run: a first part that made the collector TRIGGERED and a
    second part that made it leave that state, each of a number of frames
    that exceeds [0.9 * maxlen]. *)
Definition closed_run (maxlen : Z) (r : nat * nat) : Prop :=
  exists t : nat,
    (fst r <= t <= snd r)%nat
    /\ exceeds (Z.of_nat (t - fst r)) maxlen = true
    /\ exceeds (Z.of_nat (snd r - t)) maxlen = true.

(** A run of a number of frames that exceeds [0.9 * maxlen]. *)
Definition long_run (maxlen : Z) (r : nat * nat) : Prop :=
  exceeds (Z.of_nat (snd r - fst r)) maxlen = true.

(** The state of the collector once it has read the frames [p] and
    yielded the runs [rs]: the runs lie before the frame [b]; in TRIGGERED
    the segment list is the frames from [b] on, the collector became
    TRIGGERED on the frame before [t], and the ring buffer holds frames
    read since; in NOT_TRIGGERED the ring buffer holds frames from [b]
    on. *)
Definition runs_inv (maxlen : Z) (p : list Frame) (st : state)
    (rs : list (nat * nat)) : Prop :=
  exists b t c : nat,
    ordered 0 rs b
    /\ (b <= t <= c)%nat /\ (c <= length p)%nat
    /\ map fst (ring_buffer st) = skipn c p
    /\ (if triggered st
        then voiced_frames st = skipn b p
             /\ exceeds (Z.of_nat (t - b)) maxlen = true
        else voiced_frames st = []).

(** What the loop keeps true of its state: the ring buffer is within its
    capacity, the count the state waits for does not exceed the threshold,
    and the segment list is empty in NOT_TRIGGERED and, in TRIGGERED, is
    not empty and ends with the frames of the ring buffer. *)
Definition well_formed (maxlen : Z) (st : state) : Prop :=
  len (ring_buffer st) <= maxlen
  /\ (if triggered st
      then exceeds (num_unvoiced (ring_buffer st)) maxlen = false
           /\ voiced_frames st <> []
           /\ exists pre : list Frame,
                voiced_frames st = pre ++ map fst (ring_buffer st)
      else exceeds (num_voiced (ring_buffer st)) maxlen = false
           /\ voiced_frames st = []).

(** Structural equality of two floats. *)
Definition float_eqb (x y : float) : bool :=
  match x, y with
  | S754_zero s, S754_zero s' => Bool.eqb s s'
  | S754_infinity s, S754_infinity s' => Bool.eqb s s'
  | S754_nan, S754_nan => true
  | S754_finite s m e, S754_finite s' m' e' =>
      Bool.eqb s s' && Pos.eqb m m' && Z.eqb e e'
  | _, _ => false
  end.

(** Whether, for the sample rate [sr] and the frame duration [fd], the
    frame size computed in binary64 is the exact [2 * (sr / 1000) * fd] and
    the duration of a frame is the float [fd / 1000.0]. *)
Definition frame_size_agrees (sr fd : Z) : bool :=
  match frame_size fd sr with
  | Ok n =>
      (n =? 2 * (sr / 1000) * fd)
      && match frame_duration n sr,
               (f <- float_of_int fd ;; float_truediv f f_1000_0) with
         | Ok d, Ok q => float_eqb d q
         | _, _ => false
         end
  | Raise _ => false
  end.

(** ** Reading a file *)

(** What [wave.open(path, 'rb')] gives of the file: the fields of
    [getparams()] that [read_wave] reads, and the bytes that
    [readframes(frames)] returns. *)
Record wave_file : Type := mkWave {
  num_channels : Z;
  sample_width : Z;
  file_rate : Z;
  num_frames : Z;
  pcm_data : bytes_t
}.

(** How [read_wave] ends: with its triple, with the failure of its
    [assert], or with the exception of one of its operations. *)
Inductive read_result : Type :=
| Read (audio : bytes_t) (rate : Z) (seconds : float)
| AssertionError
| Failed (e : exn).

Definition byte_val (b : byte) : Z := Z.of_N (Byte.to_N b).

Definition byte_of_val (z : Z) : byte :=
  match Byte.of_N (Z.to_N z) with
  | Some b => b
  | None => x00
  end.

(** An [int16] of the array and its two bytes, the low one first. *)
Definition int16_of_bytes (lo hi : byte) : Z :=
  let u := byte_val lo + 256 * byte_val hi in
  if u <? 32768 then u else u - 65536.

Definition bytes_of_int16 (v : Z) : bytes_t :=
  let u := v mod 65536 in
  [byte_of_val (u mod 256); byte_of_val (u / 256)].

Fixpoint int16_array (b : bytes_t) : list Z :=
  match b with
  | lo :: hi :: rest => int16_of_bytes lo hi :: int16_array rest
  | _ => []
  end.

(** [np.frombuffer(pcm_data, dtype=np.int16)]: a buffer of an odd number
    of bytes is refused. *)
Definition frombuffer (b : bytes_t) : result (list Z) :=
  if Z.even (len b) then Ok (int16_array b) else Raise ValueError.

(** [pcm_array.tobytes()] *)
Definition tobytes (a : list Z) : bytes_t := concat (map bytes_of_int16 a).

Fixpoint rows (a : list Z) : list (Z * Z) :=
  match a with
  | l :: r :: rest => (l, r) :: rows rest
  | _ => []
  end.

(** [pcm_array.reshape(-1, 2)]: an array of an odd number of samples is
    refused. *)
Definition reshape_2 (a : list Z) : result (list (Z * Z)) :=
  if Z.even (len a) then Ok (rows a) else Raise ValueError.

(** [.mean(axis=1)] on a row of two [int16]: their sum in binary64,
    divided by the count. *)
Definition mean_2 (row : Z * Z) : float :=
  SFdiv prec emax (fadd (round_int (fst row)) (round_int (snd row))) f_2_0.

(** [.astype(np.int16)] on a float within the range of [int16]: the
    fraction is dropped. The mean of two [int16] is within the range;
    beyond it numpy leaves the result to the platform. *)
Definition astype_int16 (f : float) : Z :=
  match int_of_float f with
  | Ok z => z
  | Raise _ => 0
  end.

Definition expected_rate (rate : Z) : bool :=
  (rate =? 8000) || (rate =? 16000) || (rate =? 32000).

(** [read_wave]. The filter of [resample_poly] and the rounding of its
    result to [int16] are a parameter, [resample]. *)
Definition read_wave (resample : list Z -> Z -> Z -> result (list Z))
    (w : wave_file) (target_sample_rate : Z) : read_result :=
  if negb (sample_width w =? 2) then AssertionError
  else
    match
      (pcm_array <- frombuffer (pcm_data w) ;;
       mono <- (if num_channels w =? 2
                then rws <- reshape_2 pcm_array ;;
                     Ok (map (fun row => astype_int16 (mean_2 row)) rws)
                else Ok pcm_array) ;;
       out <- (if negb (expected_rate (file_rate w))
               then q <- int_truediv (num_frames w * target_sample_rate)
                                     (file_rate w) ;;
                    _ <- int_of_float q ;;
                    resample mono target_sample_rate (file_rate w)
               else Ok mono) ;;
       seconds <- int_truediv (len out) target_sample_rate ;;
       Ok (tobytes out, seconds))
    with
    | Ok (audio, seconds) => Read audio target_sample_rate seconds
    | Raise e => Failed e
    end.

(** * Properties *)

(** ** Lists and the ring buffer *)

Lemma len_nonneg {A : Type} (l : list A) : 0 <= len l.
Proof. unfold len. lia. Qed.

Lemma len_app {A : Type} (l l' : list A) : len (l ++ l') = len l + len l'.
Proof. unfold len. rewrite length_app. lia. Qed.

Lemma len_cons {A : Type} (x : A) (l : list A) : len (x :: l) = 1 + len l.
Proof. unfold len. simpl length. lia. Qed.

Lemma pushes_snoc {A : Type} (maxlen : Z) (rb xs : list A) (x : A) :
  pushes maxlen rb (xs ++ [x]) = deque_append maxlen (pushes maxlen rb xs) x.
Proof. unfold pushes. now rewrite fold_left_app. Qed.

Lemma deque_append_len {A : Type} (maxlen : Z) (d : list A) (x : A) :
  0 <= maxlen -> len d <= maxlen -> len (deque_append maxlen d x) <= maxlen.
Proof.
  intros H0 Hd. unfold deque_append.
  destruct (maxlen <? len (d ++ [x])) eqn:E.
  - rewrite len_app in E. unfold len in *. simpl in E.
    destruct d as [|y d]; simpl; [lia|].
    rewrite length_app. simpl in *. lia.
  - apply Z.ltb_ge in E. exact E.
Qed.

Lemma pushes_len {A : Type} (maxlen : Z) (xs rb : list A) :
  0 <= maxlen -> len rb <= maxlen -> len (pushes maxlen rb xs) <= maxlen.
Proof.
  intros H0. revert rb. induction xs as [|x xs IH]; intros rb Hrb; simpl.
  - exact Hrb.
  - apply IH. now apply deque_append_len.
Qed.

(** A deque of capacity [maxlen] holds the last [maxlen] elements appended. *)
Lemma deque_append_last {A : Type} (maxlen : Z) (d : list A) (x : A) :
  0 <= maxlen -> len d <= maxlen ->
  deque_append maxlen d x
  = skipn (length (d ++ [x]) - Z.to_nat maxlen) (d ++ [x]).
Proof.
  intros H0 Hd. unfold deque_append.
  destruct (maxlen <? len (d ++ [x])) eqn:E.
  - apply Z.ltb_lt in E. unfold len in *. rewrite length_app in *. simpl in *.
    replace (length d + 1 - Z.to_nat maxlen)%nat with 1%nat by lia.
    destruct d; reflexivity.
  - apply Z.ltb_ge in E. unfold len in *. rewrite length_app in *. simpl in *.
    replace (length d + 1 - Z.to_nat maxlen)%nat with 0%nat by lia.
    reflexivity.
Qed.

Lemma skipn_skipn_add {A : Type} (a b : nat) (l : list A) :
  skipn a (skipn b l) = skipn (b + a) l.
Proof.
  revert l. induction b as [|b IH]; intros l; simpl.
  - reflexivity.
  - destruct l; [now rewrite skipn_nil | apply IH].
Qed.

Lemma pushes_last {A : Type} (maxlen : Z) (xs rb : list A) :
  0 <= maxlen -> len rb <= maxlen ->
  pushes maxlen rb xs
  = skipn (length (rb ++ xs) - Z.to_nat maxlen) (rb ++ xs).
Proof.
  intros H0. induction xs as [|x xs IH] using rev_ind; intros Hrb.
  - unfold pushes. simpl. rewrite app_nil_r.
    unfold len in Hrb.
    replace (length rb - Z.to_nat maxlen)%nat with 0%nat by lia. reflexivity.
  - rewrite pushes_snoc, deque_append_last by (auto using pushes_len).
    rewrite IH by assumption.
    rewrite app_assoc.
    set (l := rb ++ xs) in *.
    set (m := Z.to_nat maxlen).
    assert (Hs : skipn (length l - m) l ++ [x] = skipn (length l - m) (l ++ [x])).
    { rewrite skipn_app. f_equal.
      replace (length l - m - length l)%nat with 0%nat by lia. reflexivity. }
    rewrite Hs, skipn_skipn_add. f_equal.
    rewrite length_skipn, !length_app. simpl length. lia.
Qed.

(** ** Binary64 arithmetic *)

(** The literals of the source are floats of the format, and [0.9] is the
    float nearest to nine tenths. *)
Lemma literals :
  valid_binary prec emax f_0_9 = true
  /\ valid_binary prec emax f_2_0 = true
  /\ valid_binary prec emax f_1000_0 = true
  /\ int_truediv 9 10 = Ok f_0_9
  /\ float_of_int 2 = Ok f_2_0
  /\ float_of_int 1000 = Ok f_1000_0.
Proof. repeat split; reflexivity. Qed.

Lemma digits2_size (p : positive) : digits2_pos p = Pos.size p.
Proof. induction p; simpl; congruence. Qed.

Lemma digits_bounds (p : positive) :
  2 ^ (Zpos (digits2_pos p) - 1) <= Zpos p < 2 ^ Zpos (digits2_pos p).
Proof.
  rewrite digits2_size. split.
  - pose proof (Pos.size_le p) as H.
    assert (H' : 2 ^ Zpos (Pos.size p) <= 2 * Zpos p).
    { change 2 with (Zpos 2) at 1. rewrite <- Pos2Z.inj_pow. lia. }
    replace (Zpos (Pos.size p)) with (Z.succ (Zpos (Pos.size p) - 1)) in H' by lia.
    rewrite Z.pow_succ_r in H' by lia. lia.
  - pose proof (Pos.size_gt p) as H.
    change 2 with (Zpos 2). rewrite <- Pos2Z.inj_pow. lia.
Qed.

Lemma digits_unique (p : positive) (k : Z) :
  2 ^ (k - 1) <= Zpos p < 2 ^ k -> Zpos (digits2_pos p) = k.
Proof.
  intros [Hlo Hhi]. pose proof (digits_bounds p) as [Dlo Dhi].
  set (dg := Zpos (digits2_pos p)) in *.
  destruct (Z.lt_trichotomy dg k) as [Hlt | [Heq | Hgt]]; [|exact Heq|].
  - exfalso.
    assert (2 ^ dg <= 2 ^ (k - 1)) by (apply Z.pow_le_mono_r; lia). lia.
  - exfalso.
    assert (0 <= k).
    { destruct (Z.le_gt_cases 0 k); [assumption|].
      rewrite (Z.pow_neg_r 2 k) in Hhi by lia. lia. }
    assert (2 ^ k <= 2 ^ (dg - 1)) by (apply Z.pow_le_mono_r; lia). lia.
Qed.

Lemma iter_pos_iter {A : Type} (f : A -> A) (p : positive) (x : A) :
  iter_pos f p x = Pos.iter f x p.
Proof.
  revert x. induction p as [p IH|p IH|]; intros x; simpl.
  - rewrite !IH. simpl. now rewrite !Pos.iter_swap.
  - now rewrite !IH.
  - reflexivity.
Qed.

Lemma shr_1_m (mrs : shr_record) :
  0 <= shr_m mrs -> shr_m (shr_1 mrs) = shr_m mrs / 2 /\ 0 <= shr_m (shr_1 mrs).
Proof.
  destruct mrs as [m r s]. cbn [shr_m]. intros Hm.
  destruct m as [|p|p]; [| |lia].
  - simpl. split; [reflexivity | lia].
  - destruct p as [p|p|]; cbn [shr_1 shr_m].
    + split; [|lia]. rewrite Pos2Z.inj_xI.
      apply Z.div_unique with 1; lia.
    + split; [|lia]. rewrite Pos2Z.inj_xO.
      apply Z.div_unique with 0; lia.
    + split; [reflexivity | lia].
Qed.

Lemma shr_iter_m (n : positive) (mrs : shr_record) :
  0 <= shr_m mrs ->
  shr_m (Pos.iter shr_1 mrs n) = shr_m mrs / 2 ^ Zpos n
  /\ 0 <= shr_m (Pos.iter shr_1 mrs n).
Proof.
  intros Hm. induction n as [|n IH] using Pos.peano_ind.
  - simpl Pos.iter. change (2 ^ 1) with 2. now apply shr_1_m.
  - rewrite Pos.iter_succ. destruct IH as [IH1 IH2].
    destruct (shr_1_m _ IH2) as [H1 H2]. split; [|exact H2].
    rewrite H1, IH1. rewrite Pos2Z.inj_succ, Z.pow_succ_r by lia.
    rewrite Z.div_div by (try apply Z.pow_pos_nonneg; lia).
    f_equal. lia.
Qed.

Lemma shr_fexp_m (m e : Z) (l : location) :
  0 <= m ->
  let n := Z.max 0 (fexp prec emax (Zdigits2 m + e) - e) in
  shr_m (fst (shr_fexp prec emax m e l)) = m / 2 ^ n
  /\ snd (shr_fexp prec emax m e l) = e + n.
Proof.
  intros Hm n. unfold shr_fexp, shr.
  assert (Hr : shr_m (shr_record_of_loc m l) = m)
    by (destruct l as [|[| |]]; reflexivity).
  subst n.
  destruct (fexp prec emax (Zdigits2 m + e) - e) as [|p|p] eqn:E;
    cbn [fst snd].
  - simpl. rewrite Hr, Z.div_1_r. split; [reflexivity | lia].
  - rewrite iter_pos_iter.
    destruct (shr_iter_m p (shr_record_of_loc m l)) as [H1 _]; [lia|].
    rewrite H1, Hr. rewrite Z.max_r by lia. split; [reflexivity | lia].
  - rewrite Z.max_l by lia. simpl. rewrite Hr, Z.div_1_r.
    split; [reflexivity | lia].
Qed.

Lemma round_nearest_even_cases (m : Z) (l : location) :
  round_nearest_even m l = m \/ round_nearest_even m l = m + 1.
Proof.
  destruct l as [|[| |]]; simpl; auto. destruct (Z.even m); auto.
Qed.

Lemma fexp_eq (e : Z) : fexp prec emax e = Z.max (e - 53) (-1074).
Proof. reflexivity. Qed.

Lemma pow2_pos (k : Z) : 0 <= k -> 0 < 2 ^ k.
Proof. intros. apply Z.pow_pos_nonneg; lia. Qed.

Lemma div_pow2_lower (m d k : Z) :
  0 <= k <= d - 1 -> 2 ^ (d - 1) <= m -> 2 ^ (d - 1 - k) <= m / 2 ^ k.
Proof.
  intros Hk Hm. apply Z.div_le_lower_bound; [apply pow2_pos; lia|].
  rewrite <- Z.pow_add_r by lia. now replace (k + (d - 1 - k)) with (d - 1) by lia.
Qed.

Lemma div_pow2_upper (m d k : Z) :
  0 <= k -> 0 <= d -> 0 <= m < 2 ^ d -> m / 2 ^ k < 2 ^ Z.max 0 (d - k).
Proof.
  intros Hk Hd Hm. apply Z.div_lt_upper_bound; [apply pow2_pos; lia|].
  rewrite <- Z.pow_add_r by lia.
  apply Z.lt_le_trans with (2 ^ d); [lia|].
  apply Z.pow_le_mono_r; lia.
Qed.

Lemma digits_pow2 (k : Z) (p : positive) :
  0 <= k -> Zpos p = 2 ^ k -> Zpos (digits2_pos p) = k + 1.
Proof.
  intros Hk Hp. apply digits_unique. rewrite Hp.
  replace (k + 1 - 1) with k by lia. split; [lia|].
  apply Z.pow_lt_mono_r; lia.
Qed.

(** What rounding makes of the mantissa [m] at the exponent [e]: with [e1]
    the exponent of the format for a number of that size and [q] the
    mantissa cut at [e1], the result is [q] or [q + 1] at [e1], written
    with the mantissa and the exponent of the format. *)
Lemma binary_round_aux_spec (m e : Z) (l : location) :
  0 < m -> e <= fexp prec emax (Zdigits2 m + e) ->
  let e1 := fexp prec emax (Zdigits2 m + e) in
  let q := m / 2 ^ (e1 - e) in
  exists m1 : Z,
    (m1 = q \/ m1 = q + 1)
    /\ ((m1 = 0 /\ binary_round_aux prec emax false m e l = S754_zero false)
        \/ (exists (m2 : positive) (e2 : Z),
              Zpos m2 * 2 ^ (e2 - e1) = m1 /\ e1 <= e2 <= e1 + 1
              /\ canonical_mantissa prec emax m2 e2 = true
              /\ binary_round_aux prec emax false m e l
                 = if e2 <=? emax - prec then S754_finite false m2 e2
                   else S754_infinity false)).
Proof.
  intros Hm He e1 q.
  unfold binary_round_aux.
  pose proof (shr_fexp_m m e l ltac:(lia)) as [Hs1 Hs2].
  destruct (shr_fexp prec emax m e l) as [mrs' e'] eqn:E1.
  cbn [fst snd] in Hs1, Hs2.
  fold e1 in Hs1, Hs2. rewrite Z.max_r in Hs1, Hs2 by (unfold e1; lia).
  replace (e + (e1 - e)) with e1 in Hs2 by lia. fold q in Hs1. subst e'.
  set (m1 := round_nearest_even (shr_m mrs') (loc_of_shr_record mrs')).
  assert (Hm1 : m1 = q \/ m1 = q + 1).
  { unfold m1. rewrite <- Hs1. apply round_nearest_even_cases. }
  assert (Hq0 : 0 <= q).
  { unfold q. apply Z.div_pos; [lia | apply pow2_pos; unfold e1; lia]. }
  exists m1. split; [exact Hm1|].
  pose proof (shr_fexp_m m1 e1 loc_Exact ltac:(lia)) as [Ht1 Ht2].
  destruct (shr_fexp prec emax m1 e1 loc_Exact) as [mrs'' e''] eqn:E2.
  cbn [fst snd] in Ht1, Ht2.
  destruct m as [|pm|pm]; [lia| |lia].
  cbn [Zdigits2] in *.
  pose proof (digits_bounds pm) as [Dlo Dhi].
  set (dm := Zpos (digits2_pos pm)) in *.
  assert (Hdm : 1 <= dm) by (unfold dm; lia).
  assert (He1def : e1 = Z.max (dm + e - 53) (-1074)) by reflexivity.
  rewrite fexp_eq in *.
  destruct m1 as [|p1|p1]; [| |lia].
  - left. split; [reflexivity|]. rewrite Ht1. now rewrite Z.div_0_l by
      (apply Z.pow_nonzero; lia).
  - right.
    pose proof (digits_bounds p1) as [D1lo D1hi].
    cbn [Zdigits2] in Ht1, Ht2.
    set (d1 := Zpos (digits2_pos p1)) in *.
    destruct (Z.le_gt_cases (-1074) (dm + e - 53)) as [Hnorm|Hsub].
    + (* the number is in the normal range *)
      assert (He1 : e1 = dm + e - 53) by lia.
      assert (Hql : 2 ^ 52 <= q).
      { unfold q. replace 52 with (dm - 1 - (e1 - e)) by lia.
        apply div_pow2_lower; lia. }
      assert (Hqu : q < 2 ^ 53).
      { unfold q. replace 53 with (Z.max 0 (dm - (e1 - e))) by lia.
        apply div_pow2_upper; lia. }
      destruct (Z.eq_dec (Zpos p1) (2 ^ 53)) as [Hcarry|Hnocarry].
      * assert (Hd1 : d1 = 54) by (apply (digits_pow2 53); [lia | exact Hcarry]).
        rewrite Hd1 in Ht1, Ht2.
        rewrite Z.max_r in Ht1, Ht2 by lia.
        replace (Z.max (54 + e1 - 53) (-1074) - e1) with 1 in Ht1, Ht2 by lia.
        rewrite Hcarry in Ht1. change (2 ^ 53 / 2 ^ 1) with (2 ^ 52) in Ht1.
        rewrite Ht1. change (2 ^ 52) with (Zpos (2 ^ 52)).
        exists (2 ^ 52)%positive, (e1 + 1). subst e''.
        split; [|split; [lia|split; [|reflexivity]]].
        -- replace (e1 + 1 - e1) with 1 by lia. rewrite Hcarry. reflexivity.
        -- unfold canonical_mantissa. rewrite fexp_eq.
           change (Zpos (digits2_pos (2 ^ 52))) with 53.
           apply Z.eqb_eq. lia.
      * assert (Hd1 : d1 = 53) by (apply digits_unique; lia).
        rewrite Hd1 in Ht1, Ht2.
        replace (Z.max 0 (Z.max (53 + e1 - 53) (-1074) - e1)) with 0
          in Ht1, Ht2 by lia.
        rewrite Z.div_1_r in Ht1. rewrite Ht1.
        exists p1, e1. replace e'' with e1 by lia.
        split; [|split; [lia|split; [|reflexivity]]].
        -- rewrite Z.sub_diag. lia.
        -- unfold canonical_mantissa. rewrite fexp_eq. fold d1. rewrite Hd1.
           apply Z.eqb_eq. lia.
    + (* the number is below the normal range *)
      assert (He1 : e1 = -1074) by lia.
      assert (Hqu : q < 2 ^ 52).
      { apply Z.lt_le_trans with (2 ^ Z.max 0 (dm - (e1 - e))).
        - unfold q. apply div_pow2_upper; lia.
        - apply Z.pow_le_mono_r; lia. }
      assert (Hd1 : d1 <= 53).
      { destruct (Z.le_gt_cases d1 53); [assumption|]. exfalso.
        assert (2 ^ 53 <= 2 ^ (d1 - 1)) by (apply Z.pow_le_mono_r; lia).
        lia. }
      assert (Hd1' : 1 <= d1) by (unfold d1; lia).
      replace (Z.max 0 (Z.max (d1 + e1 - 53) (-1074) - e1)) with 0
        in Ht1, Ht2 by lia.
      rewrite Z.div_1_r in Ht1. rewrite Ht1.
      exists p1, e1. replace e'' with e1 by lia.
      split; [|split; [lia|split; [|reflexivity]]].
      * rewrite Z.sub_diag. lia.
      * unfold canonical_mantissa. rewrite fexp_eq. fold d1.
        apply Z.eqb_eq. lia.
Qed.

Lemma canonical_inv (m : positive) (e : Z) :
  canonical_mantissa prec emax m e = true ->
  -1074 <= e
  /\ Zpos (digits2_pos m) <= 53
  /\ (-1074 < e -> Zpos (digits2_pos m) = 53).
Proof.
  unfold canonical_mantissa. rewrite fexp_eq. intros H.
  apply Z.eqb_eq in H. lia.
Qed.

Lemma pos_finite_inv (f : float) :
  pos_finite f = true ->
  exists (m : positive) (e : Z),
    f = S754_finite false m e
    /\ canonical_mantissa prec emax m e = true /\ e <= 971.
Proof.
  destruct f as [s|s| |[|] m e]; try discriminate.
  cbn [pos_finite]. unfold bounded. intros H.
  apply andb_true_iff in H. destruct H as [H1 H2].
  apply Z.leb_le in H2. exists m, e. auto.
Qed.

Lemma pos_finite_intro (m : positive) (e : Z) :
  canonical_mantissa prec emax m e = true -> e <= 971 ->
  pos_finite (S754_finite false m e) = true.
Proof.
  intros H1 H2. cbn [pos_finite]. unfold bounded. rewrite H1.
  apply Z.leb_le. exact H2.
Qed.

Lemma scaled_pos (f : float) : pos_finite f = true -> 1 <= scaled f.
Proof.
  intros H. destruct (pos_finite_inv f H) as (m & e & -> & Hc & He).
  destruct (canonical_inv m e Hc) as (Hlo & _).
  cbn [scaled cond_Zopp].
  assert (0 < 2 ^ (e + 1074)) by (apply pow2_pos; lia). nia.
Qed.

(** On floats above zero the order of the floats is the order of their
    values. *)
Lemma fltb_scaled (x y : float) :
  pos_finite x = true -> pos_finite y = true ->
  fltb x y = (scaled x <? scaled y).
Proof.
  intros Hx Hy.
  destruct (pos_finite_inv x Hx) as (m1 & e1 & -> & Hc1 & _).
  destruct (pos_finite_inv y Hy) as (m2 & e2 & -> & Hc2 & _).
  destruct (canonical_inv m1 e1 Hc1) as (Hlo1 & Hd1 & Hn1).
  destruct (canonical_inv m2 e2 Hc2) as (Hlo2 & Hd2 & Hn2).
  pose proof (digits_bounds m1) as [B1lo B1hi].
  pose proof (digits_bounds m2) as [B2lo B2hi].
  assert (Hm1 : Zpos m1 < 2 ^ 53).
  { apply Z.lt_le_trans with (2 ^ Zpos (digits2_pos m1)); [lia|].
    apply Z.pow_le_mono_r; lia. }
  assert (Hm2 : Zpos m2 < 2 ^ 53).
  { apply Z.lt_le_trans with (2 ^ Zpos (digits2_pos m2)); [lia|].
    apply Z.pow_le_mono_r; lia. }
  unfold fltb, SFltb, SFcompare. cbn [scaled cond_Zopp].
  destruct (Z.compare_spec e1 e2) as [Heq|Hlt|Hgt].
  - subst e2. rewrite Pos.compare_cont_spec. cbn [Pos.switch_Eq].
    assert (Hp : 0 < 2 ^ (e1 + 1074)) by (apply pow2_pos; lia).
    destruct (Pos.compare_spec m1 m2) as [->|Hl|Hg].
    + symmetry. apply Z.ltb_irrefl.
    + symmetry. apply Z.ltb_lt. apply Z.mul_lt_mono_pos_r; lia.
    + symmetry. apply Z.ltb_ge. apply Z.mul_le_mono_nonneg_r; lia.
  - symmetry. apply Z.ltb_lt.
    rewrite Hn2 in B2lo by lia.
    replace (e2 + 1074) with ((e2 - e1) + (e1 + 1074)) by lia.
    rewrite (Z.pow_add_r 2 (e2 - e1) (e1 + 1074)) by lia.
    assert (Hp : 0 < 2 ^ (e1 + 1074)) by (apply pow2_pos; lia).
    assert (Hs : 2 <= 2 ^ (e2 - e1)).
    { change 2 with (2 ^ 1) at 1. apply Z.pow_le_mono_r; lia. }
    change (2 ^ (53 - 1)) with (2 ^ 52) in B2lo.
    apply Z.lt_le_trans with (2 ^ 53 * 2 ^ (e1 + 1074)).
    + apply Z.mul_lt_mono_pos_r; lia.
    + rewrite Z.mul_assoc. apply Z.mul_le_mono_nonneg_r; [lia|].
      change (2 ^ 53) with (2 ^ 52 * 2).
      apply Z.mul_le_mono_nonneg; lia.
  - symmetry. apply Z.ltb_ge.
    rewrite Hn1 in B1lo by lia.
    replace (e1 + 1074) with ((e1 - e2) + (e2 + 1074)) by lia.
    rewrite (Z.pow_add_r 2 (e1 - e2) (e2 + 1074)) by lia.
    assert (Hp : 0 < 2 ^ (e2 + 1074)) by (apply pow2_pos; lia).
    assert (Hs : 2 <= 2 ^ (e1 - e2)).
    { change 2 with (2 ^ 1) at 1. apply Z.pow_le_mono_r; lia. }
    change (2 ^ (53 - 1)) with (2 ^ 52) in B1lo.
    apply Z.le_trans with (2 ^ 53 * 2 ^ (e2 + 1074)).
    + apply Z.mul_le_mono_nonneg_r; lia.
    + rewrite Z.mul_assoc. apply Z.mul_le_mono_nonneg_r; [lia|].
      change (2 ^ 53) with (2 ^ 52 * 2).
      apply Z.mul_le_mono_nonneg; lia.
Qed.

Lemma iter_xO_val (p d : positive) :
  Zpos (Pos.iter xO p d) = Zpos p * 2 ^ Zpos d.
Proof.
  induction d as [|d IH] using Pos.peano_ind.
  - simpl Pos.iter. rewrite Pos2Z.inj_xO. change (2 ^ 1) with 2. lia.
  - rewrite Pos.iter_succ, Pos2Z.inj_xO, IH.
    rewrite Pos2Z.inj_succ, Z.pow_succ_r by lia. lia.
Qed.

Lemma shl_align_val (m : positive) (e e' : Z) :
  e' <= e ->
  Zpos (fst (shl_align m e e')) = Zpos m * 2 ^ (e - e').
Proof.
  intros He. unfold shl_align.
  destruct (e' - e) as [|p|p] eqn:E; cbn [fst].
  - replace (e - e') with 0 by lia. simpl. lia.
  - lia.
  - rewrite iter_xO_val. do 2 f_equal. lia.
Qed.

Lemma digits_le (a b : positive) :
  Zpos a <= Zpos b -> Zpos (digits2_pos a) <= Zpos (digits2_pos b).
Proof.
  intros Hab. pose proof (digits_bounds a) as [Alo _].
  pose proof (digits_bounds b) as [_ Bhi].
  destruct (Z.le_gt_cases (Zpos (digits2_pos a)) (Zpos (digits2_pos b)))
    as [H|H]; [exact H|exfalso].
  assert (2 ^ Zpos (digits2_pos b) <= 2 ^ (Zpos (digits2_pos a) - 1))
    by (apply Z.pow_le_mono_r; lia).
  lia.
Qed.

Lemma digits_shift (a b : positive) (k : Z) :
  0 <= k -> Zpos b = Zpos a * 2 ^ k ->
  Zpos (digits2_pos b) = Zpos (digits2_pos a) + k.
Proof.
  intros Hk Hb. pose proof (digits_bounds a) as [Alo Ahi].
  apply digits_unique. rewrite Hb.
  assert (Hp : 0 < 2 ^ k) by now apply pow2_pos.
  replace (Zpos (digits2_pos a) + k - 1) with (Zpos (digits2_pos a) - 1 + k)
    by lia.
  rewrite !Z.pow_add_r by lia. split.
  - apply Z.mul_le_mono_nonneg_r; lia.
  - apply Z.mul_lt_mono_pos_r; lia.
Qed.

(** The two cases of a mantissa cut at the exponent of the format: in the
    normal range 53 digits are left, below it fewer. *)
Lemma cut_bounds (m : positive) (e : Z) :
  e <= fexp prec emax (Zpos (digits2_pos m) + e) ->
  let e1 := fexp prec emax (Zpos (digits2_pos m) + e) in
  let q := Zpos m / 2 ^ (e1 - e) in
  (-1074 < e1 /\ 2 ^ 52 <= q < 2 ^ 53) \/ (e1 = -1074 /\ 0 <= q < 2 ^ 53).
Proof.
  intros He e1 q. pose proof (digits_bounds m) as [Dlo Dhi].
  set (dm := Zpos (digits2_pos m)) in *.
  assert (Hdm : 1 <= dm) by (unfold dm; lia).
  assert (He1 : e1 = Z.max (dm + e - 53) (-1074)) by reflexivity.
  rewrite fexp_eq in He. fold e1 in He.
  destruct (Z.le_gt_cases (dm + e - 53) (-1074)) as [Hsub|Hnorm].
  - right. split; [lia|]. split.
    + apply Z.div_pos; [lia | apply pow2_pos; lia].
    + apply Z.lt_le_trans with (2 ^ Z.max 0 (dm - (e1 - e))).
      * apply div_pow2_upper; lia.
      * apply Z.pow_le_mono_r; lia.
  - left. split; [lia|]. split.
    + unfold q. replace 52 with (dm - 1 - (e1 - e)) by lia.
      apply div_pow2_lower; lia.
    + unfold q. replace 53 with (Z.max 0 (dm - (e1 - e))) by lia.
      apply div_pow2_upper; lia.
Qed.

(** The sum of two floats above zero is their exact sum, rounded. *)
Lemma fadd_round (mx md : positive) (ex ed : Z) :
  canonical_mantissa prec emax mx ex = true ->
  canonical_mantissa prec emax md ed = true ->
  exists (M : positive) (ez : Z),
    -1074 <= ez
    /\ Zpos M * 2 ^ (ez + 1074)
       = Zpos mx * 2 ^ (ex + 1074) + Zpos md * 2 ^ (ed + 1074)
    /\ ez <= fexp prec emax (Zpos (digits2_pos M) + ez)
    /\ ex <= fexp prec emax (Zpos (digits2_pos M) + ez)
    /\ fadd (S754_finite false mx ex) (S754_finite false md ed)
       = binary_round_aux prec emax false (Zpos M) ez loc_Exact.
Proof.
  intros Hcx Hcd.
  destruct (canonical_inv mx ex Hcx) as (Hlox & Hdx & Hnx).
  destruct (canonical_inv md ed Hcd) as (Hlod & Hdd & Hnd).
  set (ez := Z.min ex ed).
  assert (Hezd : ez = Z.min ex ed) by reflexivity.
  set (ax := fst (shl_align mx ex ez)).
  set (ad := fst (shl_align md ed ez)).
  assert (Hax : Zpos ax = Zpos mx * 2 ^ (ex - ez))
    by (apply shl_align_val; unfold ez; lia).
  assert (Had : Zpos ad = Zpos md * 2 ^ (ed - ez))
    by (apply shl_align_val; unfold ez; lia).
  exists (ax + ad)%positive, ez.
  assert (Hez : -1074 <= ez) by (unfold ez; lia).
  assert (Hdax : Zpos (digits2_pos ax) = Zpos (digits2_pos mx) + (ex - ez))
    by (apply digits_shift; [unfold ez; lia | exact Hax]).
  assert (Hdad : Zpos (digits2_pos ad) = Zpos (digits2_pos md) + (ed - ez))
    by (apply digits_shift; [unfold ez; lia | exact Had]).
  pose proof (digits_le ax (ax + ad) ltac:(lia)) as Hmx.
  pose proof (digits_le ad (ax + ad) ltac:(lia)) as Hmd.
  set (dM := Zpos (digits2_pos (ax + ad))) in *.
  assert (Hfe : fexp prec emax (dM + ez) = Z.max (dM + ez - 53) (-1074))
    by apply fexp_eq.
  assert (Hex : ex <= fexp prec emax (dM + ez)).
  { unfold canonical_mantissa in Hcx. rewrite fexp_eq in Hcx.
    apply Z.eqb_eq in Hcx. lia. }
  assert (Hed : ed <= fexp prec emax (dM + ez)).
  { unfold canonical_mantissa in Hcd. rewrite fexp_eq in Hcd.
    apply Z.eqb_eq in Hcd. lia. }
  assert (Hle : ez <= fexp prec emax (dM + ez)) by lia.
  split; [exact Hez|]. split; [|split; [exact Hle|split; [exact Hex|]]].
  - rewrite Pos2Z.inj_add, Z.mul_add_distr_r, Hax, Had.
    rewrite <- !Z.mul_assoc, <- !Z.pow_add_r by (unfold ez; lia).
    do 2 f_equal; f_equal; lia.
  - unfold fadd, SFadd. cbn [cond_Zopp]. fold ez. fold ax. fold ad.
    unfold binary_normalize. cbn [Z.add]. unfold binary_round.
    fold dM.
    unfold shl_align at 1.
    destruct (fexp prec emax (dM + ez) - ez) eqn:E; try reflexivity. lia.
Qed.

(** Adding a float [d] above zero to a float [x] above zero that is at most
    [K] times [d], with [K] below [2 ^ 52], gives a float that is above [x]
    and at most [x + 2 * d]. *)
Lemma fadd_increases (x d : float) (K : Z) :
  pos_finite x = true -> pos_finite d = true ->
  scaled x <= K * scaled d -> K + 1 <= 2 ^ 52 ->
  (K + 2) * scaled d < 2 ^ 2097 ->
  pos_finite (fadd x d) = true
  /\ scaled x < scaled (fadd x d) <= scaled x + 2 * scaled d.
Proof.
  intros Hx Hd HK HK52 Hbig.
  pose proof (scaled_pos x Hx) as Hsx.
  pose proof (scaled_pos d Hd) as Hsd.
  destruct (pos_finite_inv x Hx) as (mx & ex & -> & Hcx & _).
  destruct (pos_finite_inv d Hd) as (md & ed & -> & Hcd & _).
  destruct (fadd_round mx md ex ed Hcx Hcd)
    as (M & ez & Hez & HS & Hle & Hex & ->).
  cbn [scaled cond_Zopp] in *.
  set (sx := Zpos mx * 2 ^ (ex + 1074)) in *.
  set (sd := Zpos md * 2 ^ (ed + 1074)) in *.
  destruct (canonical_inv mx ex Hcx) as (Hlox & Hdx & Hnx).
  pose proof (cut_bounds M ez Hle) as Hcut.
  destruct (binary_round_aux_spec (Zpos M) ez loc_Exact ltac:(lia) Hle)
    as (m1 & Hm1 & Hres).
  cbn [Zdigits2] in Hres, Hm1.
  set (e1 := fexp prec emax (Zpos (digits2_pos M) + ez)) in *.
  assert (He1 : -1074 <= e1) by (unfold e1; rewrite fexp_eq; lia).
  set (u := 2 ^ (e1 + 1074)).
  assert (Hu : 0 < u) by (apply pow2_pos; lia).
  set (q := Zpos M / 2 ^ (e1 - ez)) in *.
  (* the cut of the mantissa is the cut of the sum *)
  assert (Hq : q = (sx + sd) / u).
  { rewrite <- HS. unfold q, u.
    replace (e1 + 1074) with ((e1 - ez) + (ez + 1074)) by lia.
    rewrite (Z.pow_add_r 2 (e1 - ez) (ez + 1074)) by lia.
    rewrite Z.div_mul_cancel_r; [reflexivity | |];
      apply Z.pow_nonzero; lia. }
  pose proof (Z.mul_div_le (sx + sd) u Hu) as Hqlo.
  pose proof (Z.mul_succ_div_gt (sx + sd) u Hu) as Hqhi.
  rewrite <- Hq in Hqlo, Hqhi.
  (* one unit of the result is at most [d] *)
  assert (Hud : u <= sd).
  { destruct Hcut as [[Hn [Hq52 _]] | [Hs _]].
    - assert (2 ^ 52 * u <= 2 ^ 52 * sd); [|lia].
      apply Z.le_trans with (u * q);
        [rewrite (Z.mul_comm u q); apply Z.mul_le_mono_nonneg_r; lia|].
      apply Z.le_trans with (sx + sd); [lia|].
      apply Z.le_trans with ((K + 1) * sd); [lia|].
      apply Z.mul_le_mono_nonneg_r; lia.
    - unfold u. rewrite Hs. simpl. lia. }
  assert (Hq1 : 1 <= q).
  { rewrite Hq. apply Z.div_le_lower_bound; lia. }
  destruct Hres as [[Hz _] | (m2 & e2 & Hm2 & He2 & Hc2 & ->)]; [lia|].
  assert (Hval : Zpos m2 * 2 ^ (e2 + 1074) = m1 * u).
  { rewrite <- Hm2. unfold u.
    replace (e2 + 1074) with ((e2 - e1) + (e1 + 1074)) by lia.
    rewrite (Z.pow_add_r 2 (e2 - e1) (e1 + 1074)) by lia. lia. }
  assert (Hup : m1 * u <= sx + 2 * sd).
  { destruct Hm1 as [-> | ->]; [lia|]. rewrite Z.mul_add_distr_r. lia. }
  (* the result is above [x] *)
  assert (Hlow : sx < q * u).
  { set (ux := 2 ^ (ex + 1074)).
    assert (Hux : 0 < ux) by (apply pow2_pos; lia).
    destruct (Z.eq_dec e1 ex) as [Heq|Hne].
    - assert (Huux : u = ux) by (unfold u, ux; now rewrite Heq).
      assert (Hsxu : sx = Zpos mx * u) by (now rewrite Huux).
      assert (Hq' : Zpos mx + 1 <= q).
      { rewrite Hq. apply Z.div_le_lower_bound; [lia|].
        rewrite Z.mul_add_distr_l, Z.mul_1_r. lia. }
      apply Z.lt_le_trans with ((Zpos mx + 1) * u).
      + rewrite Z.mul_add_distr_r. lia.
      + apply Z.mul_le_mono_nonneg_r; lia.
    - assert (Hgt : ex < e1) by lia.
      destruct Hcut as [[Hn [Hq52 _]] | [Hs _]]; [|lia].
      assert (Huux : u = 2 ^ (e1 - ex) * ux).
      { unfold u, ux. rewrite <- Z.pow_add_r by lia. f_equal. lia. }
      assert (H2 : 2 <= 2 ^ (e1 - ex)).
      { change 2 with (2 ^ 1) at 1. apply Z.pow_le_mono_r; lia. }
      pose proof (digits_bounds mx) as [_ Bhi].
      assert (Hmx : Zpos mx < 2 ^ 53).
      { apply Z.lt_le_trans with (2 ^ Zpos (digits2_pos mx)); [lia|].
        apply Z.pow_le_mono_r; lia. }
      unfold sx. fold ux. rewrite Huux.
      apply Z.lt_le_trans with (2 ^ 53 * ux).
      + apply Z.mul_lt_mono_pos_r; lia.
      + rewrite Z.mul_assoc. apply Z.mul_le_mono_nonneg_r; [lia|].
        change (2 ^ 53) with (2 ^ 52 * 2).
        apply Z.mul_le_mono_nonneg; lia. }
  (* the result is finite *)
  assert (Hfin : e2 <= 971).
  { destruct (canonical_inv m2 e2 Hc2) as (Hlo2 & Hd2 & Hn2).
    destruct (Z.le_gt_cases e2 971) as [H|H]; [exact H|exfalso].
    pose proof (digits_bounds m2) as [B2lo _].
    rewrite Hn2 in B2lo by lia.
    change (2 ^ (53 - 1)) with (2 ^ 52) in B2lo.
    assert (Hp : 2 ^ 2045 <= 2 ^ (e2 + 1074))
      by (apply Z.pow_le_mono_r; lia).
    assert (Hb : 2 ^ 52 * 2 ^ 2045 <= Zpos m2 * 2 ^ (e2 + 1074)).
    { apply Z.mul_le_mono_nonneg; [| |apply Z.lt_le_incl, pow2_pos|]; lia. }
    rewrite <- Z.pow_add_r in Hb by lia. change (52 + 2045) with 2097 in Hb.
    revert Hb Hbig. generalize (2 ^ 2097). intros B Hb Hbig.
    rewrite Z.mul_add_distr_r in Hbig. lia. }
  apply Z.leb_le in Hfin. change (emax - prec) with 971. rewrite Hfin.
  split; [apply pos_finite_intro; [exact Hc2 | now apply Z.leb_le]|].
  cbn [scaled cond_Zopp]. rewrite Hval.
  split; [|exact Hup].
  destruct Hm1 as [-> | ->]; [lia|].
  rewrite Z.mul_add_distr_r. lia.
Qed.

(** The float of an integer [z] above zero is at least 1 and at most
    [2 * z]. *)
Lemma float_of_int_pos (z : Z) (f : float) :
  1 <= z -> float_of_int z = Ok f ->
  pos_finite f = true
  /\ 2 ^ 1074 <= scaled f <= 2 * z * 2 ^ 1074.
Proof.
  intros Hz. unfold float_of_int, round_int, binary_normalize.
  destruct z as [|p|p]; [lia| |lia].
  unfold binary_round.
  pose proof (digits_bounds p) as [Plo Phi].
  set (dp := Zpos (digits2_pos p)) in *.
  assert (Hdp : 1 <= dp) by (unfold dp; lia).
  rewrite Z.add_0_r.
  assert (Hf0 : fexp prec emax dp = Z.max (dp - 53) (-1074)) by apply fexp_eq.
  set (e0 := fexp prec emax dp) in *.
  (* the mantissa brought to the exponent of the format *)
  assert (Hal : exists (mz : positive) (ez : Z),
             shl_align p 0 e0 = (mz, ez) /\ ez <= 0 /\ -52 <= ez <= e0
             /\ Zpos mz = Zpos p * 2 ^ (- ez)
             /\ Zpos (digits2_pos mz) + ez = dp).
  { unfold shl_align.
    destruct (e0 - 0) as [|d|d] eqn:E.
    - exists p, 0. split; [reflexivity|]. simpl. fold dp. lia.
    - exists p, 0. split; [reflexivity|]. simpl. fold dp. lia.
    - exists (Pos.iter xO p d), e0. split; [reflexivity|].
      assert (Hv : Zpos (Pos.iter xO p d) = Zpos p * 2 ^ (- e0)).
      { rewrite iter_xO_val. do 2 f_equal. lia. }
      split; [lia|]. split; [lia|]. split; [exact Hv|].
      rewrite (digits_shift p _ (- e0)); [fold dp; lia | lia | exact Hv]. }
  destruct Hal as (mz & ez & -> & Hez0 & Hez52 & Hmz & Hdmz).
  assert (Hle : ez <= fexp prec emax (Zdigits2 (Zpos mz) + ez)).
  { cbn [Zdigits2]. rewrite Hdmz. fold e0. lia. }
  destruct (binary_round_aux_spec (Zpos mz) ez loc_Exact ltac:(lia) Hle)
    as (m1 & Hm1 & Hres).
  pose proof (cut_bounds mz ez Hle) as Hcut.
  cbn [Zdigits2] in *. rewrite Hdmz in *. fold e0 in Hm1, Hres, Hcut, Hle.
  set (q := Zpos mz / 2 ^ (e0 - ez)) in *.
  destruct Hcut as [[_ [Hq52 _]] | [Hs _]]; [|lia].
  destruct Hres as [[Hz0 _] | (m2 & e2 & Hm2 & He2 & Hc2 & ->)]; [lia|].
  destruct (e2 <=? emax - prec) eqn:Hfin; [|discriminate].
  intros Hf. injection Hf as <-.
  apply Z.leb_le in Hfin. change (emax - prec) with 971 in Hfin.
  split; [now apply pos_finite_intro|].
  cbn [scaled cond_Zopp].
  set (u := 2 ^ (e0 + 1074)).
  assert (Hu : 0 < u) by (apply pow2_pos; lia).
  assert (Hval : Zpos m2 * 2 ^ (e2 + 1074) = m1 * u).
  { rewrite <- Hm2. unfold u.
    replace (e2 + 1074) with ((e2 - e0) + (e0 + 1074)) by lia.
    rewrite (Z.pow_add_r 2 (e2 - e0) (e0 + 1074)) by lia. lia. }
  rewrite Hval.
  (* the cut mantissa holds at most [z] *)
  assert (Hqz : q * u <= Zpos p * 2 ^ 1074).
  { assert (Hc : q * 2 ^ (e0 - ez) <= Zpos mz).
    { unfold q. rewrite Z.mul_comm.
      apply Z.mul_div_le. apply pow2_pos. lia. }
    unfold u. replace (e0 + 1074) with ((e0 - ez) + (ez + 1074)) by lia.
    rewrite (Z.pow_add_r 2 (e0 - ez) (ez + 1074)) by lia.
    rewrite Z.mul_assoc.
    apply Z.le_trans with (Zpos mz * 2 ^ (ez + 1074)).
    - apply Z.mul_le_mono_nonneg_r; [apply Z.lt_le_incl, pow2_pos; lia | lia].
    - rewrite Hmz, <- Z.mul_assoc, <- Z.pow_add_r by lia.
      replace (- ez + (ez + 1074)) with 1074 by lia. lia. }
  assert (Hu52 : 2 ^ 1074 <= 2 ^ 52 * u).
  { unfold u. rewrite <- Z.pow_add_r by lia.
    apply Z.pow_le_mono_r; lia. }
  assert (Hqu : 2 ^ 52 * u <= q * u)
    by (apply Z.mul_le_mono_nonneg_r; lia).
  assert (Hq1 : u <= q * u).
  { apply Z.le_trans with (2 ^ 52 * u); [|exact Hqu].
    rewrite <- (Z.mul_1_l u) at 1. apply Z.mul_le_mono_nonneg_r; lia. }
  destruct Hm1 as [-> | ->].
  - split; lia.
  - rewrite Z.mul_add_distr_r. split; lia.
Qed.

Lemma digits_lower (p : positive) (k : Z) :
  0 <= k -> 2 ^ k <= Zpos p -> k + 1 <= Zpos (digits2_pos p).
Proof.
  intros Hk Hp. pose proof (digits_bounds p) as [_ Hhi].
  destruct (Z.le_gt_cases (k + 1) (Zpos (digits2_pos p))) as [H|H];
    [exact H|exfalso].
  assert (2 ^ Zpos (digits2_pos p) <= 2 ^ k) by (apply Z.pow_le_mono_r; lia).
  lia.
Qed.

Lemma mul_le_cancel_pow2 (a b k : Z) :
  0 <= k -> a * 2 ^ k <= b * 2 ^ k -> a <= b.
Proof.
  intros Hk H. apply Z.mul_le_mono_pos_r in H; [exact H | now apply pow2_pos].
Qed.

(** The quotient of two floats above zero, when it is neither below the
    smallest float nor beyond the largest, is a float above zero between
    half the exact quotient and twice the exact quotient. *)
Lemma fdiv_bounds (x y : float) :
  pos_finite x = true -> pos_finite y = true ->
  scaled y <= scaled x * 2 ^ 1074 ->
  scaled x < scaled y * 2 ^ 1023 ->
  pos_finite (SFdiv prec emax x y) = true
  /\ scaled (SFdiv prec emax x y) * scaled y <= 2 * (scaled x * 2 ^ 1074)
  /\ scaled x * 2 ^ 1074 <= 2 * (scaled (SFdiv prec emax x y) * scaled y).
Proof.
  intros Hx Hy Hlo Hhi.
  pose proof (scaled_pos y Hy) as Hsy.
  destruct (pos_finite_inv x Hx) as (mx & ex & -> & Hcx & Hex).
  destruct (pos_finite_inv y Hy) as (my & ey & -> & Hcy & Hey).
  destruct (canonical_inv mx ex Hcx) as (Hlox & Hdx & Hnx).
  destruct (canonical_inv my ey Hcy) as (Hloy & Hdy & Hny).
  pose proof (digits_bounds mx) as [Xlo Xhi].
  pose proof (digits_bounds my) as [Ylo Yhi].
  cbn [scaled cond_Zopp] in *.
  unfold SFdiv, SFdiv_core_binary. cbn [Zdigits2 xorb].
  set (dx := Zpos (digits2_pos mx)) in *.
  set (dy := Zpos (digits2_pos my)) in *.
  assert (Hdx1 : 1 <= dx) by (unfold dx; lia).
  assert (Hdy1 : 1 <= dy) by (unfold dy; lia).
  set (t := dx + ex - (dy + ey)).
  assert (Hft : fexp prec emax t = Z.max (t - 53) (-1074)) by apply fexp_eq.
  set (e' := Z.min (fexp prec emax t) (ex - ey)).
  assert (He' : e' = Z.min (fexp prec emax t) (ex - ey)) by reflexivity.
  set (s := ex - ey - e').
  assert (Hs : 0 <= s) by (unfold s; lia).
  set (A := Zpos mx * 2 ^ s).
  assert (HA : match s with
               | Z0 => Zpos mx
               | Zpos _ => Z.shiftl (Zpos mx) s
               | Zneg _ => 0
               end = A).
  { unfold A. destruct s as [|ps|ps] eqn:Es.
    - simpl. lia.
    - now rewrite Z.shiftl_mul_pow2 by lia.
    - lia. }
  rewrite HA.
  assert (HA0 : 0 < A) by (unfold A; apply Z.mul_pos_pos; [lia | now apply pow2_pos]).
  destruct (Z.div_eucl A (Zpos my)) as [qd r] eqn:Ediv.
  assert (Hqd : qd = A / Zpos my) by (unfold Z.div; now rewrite Ediv).
  pose proof (Z.mul_div_le A (Zpos my) ltac:(lia)) as Hq1.
  pose proof (Z.mul_succ_div_gt A (Zpos my) ltac:(lia)) as Hq2.
  rewrite <- Hqd in Hq1, Hq2.
  (* the exact quotient, in integers *)
  assert (HeP : 0 <= e' + ey + 2148) by lia.
  set (P := 2 ^ (e' + ey + 2148)).
  assert (HP : 0 < P) by (apply pow2_pos; lia).
  assert (HAP : Zpos mx * 2 ^ (ex + 1074) * 2 ^ 1074 = A * P).
  { unfold A, P. rewrite <- !Z.mul_assoc, <- !Z.pow_add_r by lia.
    do 2 f_equal. unfold s. lia. }
  (* the quotient of the mantissas is not zero *)
  assert (Hmy : Zpos my <= A).
  { destruct (Z.le_gt_cases e' (t - 53)) as [Hn|Hsn].
    - apply Z.le_trans with (2 ^ dy); [lia|].
      apply Z.le_trans with (2 ^ (dx - 1 + s)).
      + apply Z.pow_le_mono_r; unfold s, t in *; lia.
      + unfold A. rewrite Z.pow_add_r by lia.
        apply Z.mul_le_mono_nonneg_r; [apply Z.lt_le_incl, pow2_pos|]; lia.
    - apply (mul_le_cancel_pow2 _ _ (ey + 1074)); [lia|].
      apply Z.le_trans with (Zpos mx * 2 ^ (ex + 1074) * 2 ^ 1074);
        [exact Hlo|].
      unfold A. rewrite <- !Z.mul_assoc, <- !Z.pow_add_r by lia.
      apply Z.mul_le_mono_nonneg_l; [lia|].
      apply Z.pow_le_mono_r; unfold s; lia. }
  assert (Hqd1 : 1 <= qd).
  { rewrite Hqd. apply Z.div_le_lower_bound; lia. }
  destruct qd as [|pq|pq]; [lia| |lia].
  assert (Hle : e' <= fexp prec emax (Zdigits2 (Zpos pq) + e')).
  { cbn [Zdigits2]. rewrite fexp_eq.
    destruct (Z.le_gt_cases e' (t - 53)) as [Hn|Hsn]; [|lia].
    assert (Hd : t - e' <= Zpos (digits2_pos pq)); [|lia].
    replace (t - e') with ((dx - 1 + s - dy) + 1) by (unfold s, t; lia).
    apply digits_lower; [unfold s, t in *; lia|].
    rewrite Hqd. apply Z.div_le_lower_bound; [lia|].
    apply Z.le_trans with (2 ^ dy * 2 ^ (dx - 1 + s - dy)).
    - apply Z.mul_le_mono_nonneg_r;
        [apply Z.lt_le_incl, pow2_pos; unfold s, t in *; lia | lia].
    - rewrite <- Z.pow_add_r by (unfold s, t in *; lia).
      replace (dy + (dx - 1 + s - dy)) with (dx - 1 + s) by lia.
      unfold A. rewrite Z.pow_add_r by lia.
      apply Z.mul_le_mono_nonneg_r; [apply Z.lt_le_incl, pow2_pos|]; lia. }
  destruct (binary_round_aux_spec (Zpos pq) e' (new_location (Zpos my) r)
              ltac:(lia) Hle) as (m1 & Hm1 & Hres).
  pose proof (cut_bounds pq e' Hle) as Hcut.
  cbn [Zdigits2] in *.
  set (e1 := fexp prec emax (Zpos (digits2_pos pq) + e')) in *.
  assert (He1 : -1074 <= e1) by (unfold e1; rewrite fexp_eq; lia).
  set (c := 2 ^ (e1 - e')) in *.
  assert (Hc : 0 < c) by (apply pow2_pos; lia).
  set (q := Zpos pq / c) in *.
  pose proof (Z.mul_div_le (Zpos pq) c Hc) as Hc1.
  pose proof (Z.mul_succ_div_gt (Zpos pq) c Hc) as Hc2.
  fold q in Hc1, Hc2.
  (* the cut quotient is not zero *)
  assert (Hq : 1 <= q).
  { destruct Hcut as [[_ [Hq52 _]] | [Hsub _]]; [lia|].
    unfold q. rewrite Hqd, Z.div_div by lia.
    apply Z.div_le_lower_bound; [lia|]. rewrite Z.mul_1_r.
    apply (mul_le_cancel_pow2 _ _ (ey + 1074)); [lia|].
    apply Z.le_trans with (Zpos mx * 2 ^ (ex + 1074) * 2 ^ 1074 * c).
    - rewrite (Z.mul_comm (Zpos my) c), <- Z.mul_assoc, (Z.mul_comm c).
      apply Z.mul_le_mono_nonneg_r; lia.
    - unfold A, c. rewrite <- !Z.mul_assoc, <- !Z.pow_add_r by lia.
      apply Z.mul_le_mono_nonneg_l; [lia|].
      apply Z.pow_le_mono_r; unfold s; lia. }
  assert (I1 : Zpos my * c * q <= A).
  { apply Z.le_trans with (Zpos my * Zpos pq); [|exact Hq1].
    rewrite <- Z.mul_assoc. apply Z.mul_le_mono_nonneg_l; lia. }
  assert (I2 : A <= Zpos my * c * (q + 1)).
  { apply Z.le_trans with (Zpos my * Z.succ (Zpos pq)); [lia|].
    rewrite <- Z.mul_assoc. apply Z.mul_le_mono_nonneg_l; [lia|].
    replace (q + 1) with (Z.succ q) by lia. lia. }
  destruct Hres as [[Hz0 _] | (m2 & e2 & Hm2 & He2 & Hc2' & ->)]; [lia|].
  assert (Hval : Zpos m2 * 2 ^ (e2 + 1074) * (Zpos my * 2 ^ (ey + 1074))
                 = m1 * (Zpos my * c) * P).
  { assert (Hpw : 2 ^ (e2 + 1074) * 2 ^ (ey + 1074)
                  = 2 ^ (e2 - e1) * (c * P)).
    { unfold c, P. rewrite <- !Z.pow_add_r by lia. f_equal. lia. }
    rewrite <- Hm2.
    transitivity (Zpos m2 * Zpos my * (2 ^ (e2 + 1074) * 2 ^ (ey + 1074)));
      [ring|].
    rewrite Hpw. ring. }
  assert (Hup : m1 * (Zpos my * c) <= 2 * A).
  { apply Z.le_trans with ((q + 1) * (Zpos my * c)).
    - apply Z.mul_le_mono_nonneg_r; [|lia].
      apply Z.mul_nonneg_nonneg; lia.
    - apply Z.le_trans with (2 * (Zpos my * c * q)); [|lia].
      assert (0 <= Zpos my * c) by (apply Z.mul_nonneg_nonneg; lia).
      replace ((q + 1) * (Zpos my * c)) with (Zpos my * c * q + Zpos my * c)
        by ring.
      assert (Zpos my * c * 1 <= Zpos my * c * q)
        by (apply Z.mul_le_mono_nonneg_l; lia).
      lia. }
  assert (Hdown : A <= 2 * (m1 * (Zpos my * c))).
  { apply Z.le_trans with (Zpos my * c * (q + 1)); [exact I2|].
    assert (0 <= Zpos my * c) by (apply Z.mul_nonneg_nonneg; lia).
    apply Z.le_trans with (2 * (q * (Zpos my * c))).
    - replace (Zpos my * c * (q + 1)) with (q * (Zpos my * c) + Zpos my * c)
        by ring.
      assert (1 * (Zpos my * c) <= q * (Zpos my * c))
        by (apply Z.mul_le_mono_nonneg_r; lia).
      lia.
    - apply Z.mul_le_mono_nonneg_l; [lia|].
      apply Z.mul_le_mono_nonneg_r; lia. }
  assert (Hupv : Zpos m2 * 2 ^ (e2 + 1074) * (Zpos my * 2 ^ (ey + 1074))
                 <= 2 * (Zpos mx * 2 ^ (ex + 1074) * 2 ^ 1074)).
  { rewrite Hval, HAP.
    replace (2 * (A * P)) with (2 * A * P) by ring.
    apply Z.mul_le_mono_nonneg_r; lia. }
  assert (Hdownv : Zpos mx * 2 ^ (ex + 1074) * 2 ^ 1074
                   <= 2 * (Zpos m2 * 2 ^ (e2 + 1074)
                           * (Zpos my * 2 ^ (ey + 1074)))).
  { rewrite Hval, HAP.
    replace (2 * (m1 * (Zpos my * c) * P))
      with (2 * (m1 * (Zpos my * c)) * P) by ring.
    apply Z.mul_le_mono_nonneg_r; lia. }
  (* the quotient is finite *)
  assert (Hfin : e2 <= 971).
  { destruct (canonical_inv m2 e2 Hc2') as (Hlo2 & Hd2 & Hn2).
    destruct (Z.le_gt_cases e2 971) as [H|H]; [exact H|exfalso].
    pose proof (digits_bounds m2) as [B2lo _].
    rewrite Hn2 in B2lo by lia.
    change (2 ^ (53 - 1)) with (2 ^ 52) in B2lo.
    assert (Hp : 2 ^ 2046 <= 2 ^ (e2 + 1074))
      by (apply Z.pow_le_mono_r; lia).
    assert (Hb : 2 ^ 52 * 2 ^ 2046 <= Zpos m2 * 2 ^ (e2 + 1074)).
    { apply Z.mul_le_mono_nonneg; [| |apply Z.lt_le_incl, pow2_pos|]; lia. }
    rewrite <- Z.pow_add_r in Hb by lia. change (52 + 2046) with 2098 in Hb.
    set (sy := Zpos my * 2 ^ (ey + 1074)) in *.
    set (sx := Zpos mx * 2 ^ (ex + 1074)) in *.
    assert (Hc3 : 2 ^ 2098 * sy <= 2 * (sx * 2 ^ 1074)).
    { apply Z.le_trans with (Zpos m2 * 2 ^ (e2 + 1074) * sy); [|exact Hupv].
      apply Z.mul_le_mono_nonneg_r; lia. }
    assert (Hc4 : 2 * (sx * 2 ^ 1074) < 2 * (sy * 2 ^ 1023 * 2 ^ 1074)).
    { apply Z.mul_lt_mono_pos_l; [lia|].
      apply Z.mul_lt_mono_pos_r; [apply pow2_pos; lia | exact Hhi]. }
    replace (2 * (sy * 2 ^ 1023 * 2 ^ 1074)) with (2 ^ 2098 * sy) in Hc4.
    - lia.
    - change (2 ^ 2098) with (2 * (2 ^ 1023 * 2 ^ 1074)). ring. }
  apply Z.leb_le in Hfin. change (emax - prec) with 971. rewrite Hfin.
  split; [apply pos_finite_intro; [exact Hc2' | now apply Z.leb_le]|].
  cbn [scaled cond_Zopp]. split; [exact Hupv | exact Hdownv].
Qed.

Lemma scaled_below_max (f : float) :
  pos_finite f = true -> scaled f < 2 ^ 2098.
Proof.
  intros H. destruct (pos_finite_inv f H) as (m & e & -> & Hc & He).
  destruct (canonical_inv m e Hc) as (Hlo & Hd & _).
  pose proof (digits_bounds m) as [_ Bhi].
  cbn [scaled cond_Zopp].
  apply Z.lt_le_trans with (2 ^ 53 * 2 ^ (e + 1074)).
  - apply Z.mul_lt_mono_pos_r; [apply pow2_pos; lia|].
    apply Z.lt_le_trans with (2 ^ Zpos (digits2_pos m)); [lia|].
    apply Z.pow_le_mono_r; lia.
  - rewrite <- Z.pow_add_r by lia. apply Z.pow_le_mono_r; lia.
Qed.

Lemma pos_finite_not_zero (f : float) :
  pos_finite f = true -> is_zero f = false.
Proof.
  intros H. destruct (pos_finite_inv f H) as (m & e & -> & _). reflexivity.
Qed.

(** ** The framer *)

Lemma slice_in_range {A : Type} (l : list A) (a n : Z) :
  0 <= a -> 0 <= n -> a + n <= len l ->
  slice l a (a + n) = firstn (Z.to_nat n) (skipn (Z.to_nat a) l).
Proof.
  intros Ha Hn Hl. unfold slice, clamp_index.
  destruct (a <? 0) eqn:E1; [apply Z.ltb_lt in E1; lia|].
  destruct (a + n <? 0) eqn:E2; [apply Z.ltb_lt in E2; lia|].
  rewrite !Z.min_l by lia. do 2 f_equal. lia.
Qed.

Lemma firstn_plus {A : Type} (a b : nat) (l : list A) :
  firstn (a + b) l = firstn a l ++ firstn b (skipn a l).
Proof.
  revert l. induction a as [|a IH]; intros [|x l]; simpl; auto.
  - now rewrite firstn_nil.
  - now rewrite IH.
Qed.

Lemma frame_loop_nth (fuel : nat) :
  forall (k : nat) (n : Z) (d : float) (audio : bytes_t) (off : Z) (ts : float),
    0 <= n -> 0 <= off -> (k < fuel)%nat ->
    nth_error (yielded (frame_loop fuel n d audio off ts)) k
    = if off + (Z.of_nat k + 1) * n <? len audio
      then Some (mkFrame
                   (firstn (Z.to_nat n)
                      (skipn (Z.to_nat (off + Z.of_nat k * n)) audio))
                   (advance ts d k) d)
      else None.
Proof.
  induction fuel as [|fuel IH]; intros k n d audio off ts Hn Hoff Hk; [lia|].
  cbn [frame_loop].
  destruct (off + n <? len audio) eqn:E.
  - apply Z.ltb_lt in E. unfold yield. cbn [yielded].
    destruct k as [|k].
    + cbn [nth_error advance].
      replace (off + (Z.of_nat 0 + 1) * n) with (off + n) by lia.
      apply Z.ltb_lt in E. rewrite E. apply Z.ltb_lt in E.
      rewrite slice_in_range by lia.
      do 4 f_equal. lia.
    + cbn [nth_error advance]. rewrite IH by lia.
      replace (off + n + (Z.of_nat k + 1) * n)
        with (off + (Z.of_nat (S k) + 1) * n) by lia.
      replace (off + n + Z.of_nat k * n) with (off + Z.of_nat (S k) * n) by lia.
      reflexivity.
  - apply Z.ltb_ge in E. cbn [yielded].
    destruct (off + (Z.of_nat k + 1) * n <? len audio) eqn:E'.
    + apply Z.ltb_lt in E'. nia.
    + now destruct k.
Qed.

Lemma frame_loop_done (fuel : nat) :
  forall (n : Z) (d : float) (audio : bytes_t) (off : Z) (ts : float),
    1 <= n -> (0 < fuel)%nat -> len audio <= off + Z.of_nat fuel * n ->
    ended (frame_loop fuel n d audio off ts) = Done.
Proof.
  induction fuel as [|fuel IH]; intros n d audio off ts Hn Hf Hl; [lia|].
  cbn [frame_loop].
  destruct (off + n <? len audio) eqn:E; [|reflexivity].
  apply Z.ltb_lt in E. unfold yield. cbn [ended].
  apply IH; [lia | nia | lia].
Qed.

Lemma frame_loop_length (fuel : nat) :
  forall (n : Z) (d : float) (audio : bytes_t) (off : Z) (ts : float),
    1 <= n -> 0 <= off -> (0 < fuel)%nat ->
    len audio <= off + Z.of_nat fuel * n ->
    length (yielded (frame_loop fuel n d audio off ts))
    = Z.to_nat ((len audio - 1 - off) / n).
Proof.
  induction fuel as [|fuel IH]; intros n d audio off ts Hn Hoff Hf Hl; [lia|].
  cbn [frame_loop].
  destruct (off + n <? len audio) eqn:E.
  - apply Z.ltb_lt in E. unfold yield. cbn [yielded length].
    rewrite IH by (lia || nia).
    replace (len audio - 1 - off) with ((len audio - 1 - (off + n)) + 1 * n)
      by lia.
    rewrite Z.div_add by lia.
    assert (0 <= (len audio - 1 - (off + n)) / n)
      by (apply Z.div_pos; lia).
    lia.
  - apply Z.ltb_ge in E. cbn [yielded length].
    assert ((len audio - 1 - off) / n <= 0); [|lia].
    destruct (Z.le_gt_cases 0 (len audio - 1 - off)) as [Hp|Hneg].
    + rewrite Z.div_small by lia. lia.
    + assert ((len audio - 1 - off) / n < 0); [|lia].
      apply Z.div_lt_upper_bound; lia.
Qed.

Lemma frame_loop_concat (fuel : nat) :
  forall (n : Z) (d : float) (audio : bytes_t) (off : Z) (ts : float),
    0 <= n -> 0 <= off ->
    concat (map bytes (yielded (frame_loop fuel n d audio off ts)))
    = firstn
        (Z.to_nat (n * Z.of_nat (length (yielded (frame_loop fuel n d audio off ts)))))
        (skipn (Z.to_nat off) audio).
Proof.
  induction fuel as [|fuel IH]; intros n d audio off ts Hn Hoff.
  - cbn [frame_loop yielded map concat length]. now rewrite Z.mul_0_r.
  - cbn [frame_loop].
    destruct (off + n <? len audio) eqn:E;
      [|cbn [yielded map concat length]; now rewrite Z.mul_0_r].
    apply Z.ltb_lt in E. unfold yield.
    cbn [yielded map concat bytes length].
    rewrite IH by lia. rewrite slice_in_range by lia.
    set (m := length (yielded (frame_loop fuel n d audio (off + n) (fadd ts d)))).
    replace (Z.to_nat (n * Z.of_nat (S m)))
      with (Z.to_nat n + Z.to_nat (n * Z.of_nat m))%nat by nia.
    rewrite firstn_plus, skipn_skipn_add.
    do 3 f_equal. lia.
Qed.

(** C3. With [n] the frame size in bytes, the framer yields a frame for the
    offset [k * n] exactly when [k * n + n < len(audio)]; the bytes of that
    frame are the [n] bytes of the audio from that offset, never fewer.
    What is left at the end is dropped: with [len(audio) = m * n + r] and
    [0 < r <= n] there are [m] frames, so that a last chunk of exactly [n]
    bytes ([r = n]) is dropped as a shorter one is. *)
Theorem framer_emits_full_frames (fd sr n : Z) (d : float) (audio : bytes_t) :
  frame_size fd sr = Ok n -> frame_duration n sr = Ok d -> 0 <= n ->
  (forall (fuel k : nat), (k < fuel)%nat ->
     ((exists fr, nth_error (yielded (frame_generator fuel fd audio sr)) k
                  = Some fr)
      <-> Z.of_nat k * n + n < len audio)
     /\ (forall fr,
           nth_error (yielded (frame_generator fuel fd audio sr)) k = Some fr ->
           bytes fr
           = firstn (Z.to_nat n) (skipn (Z.to_nat (Z.of_nat k * n)) audio)
           /\ len (bytes fr) = n))
  /\ (1 <= n ->
      forall fuel : nat, (length audio < fuel)%nat ->
        ended (frame_generator fuel fd audio sr) = Done
        /\ length (yielded (frame_generator fuel fd audio sr))
           = Z.to_nat ((len audio - 1) / n)
        /\ (forall m r : Z,
              0 <= m -> 0 < r <= n -> len audio = m * n + r ->
              length (yielded (frame_generator fuel fd audio sr))
              = Z.to_nat m)).
Proof.
  intros Hsize Hdur Hn. unfold frame_generator. rewrite Hsize, Hdur.
  split.
  - intros fuel k Hk.
    rewrite (frame_loop_nth fuel k n d audio 0 f_0_0) by lia.
    replace (0 + (Z.of_nat k + 1) * n) with (Z.of_nat k * n + n) by lia.
    destruct (Z.of_nat k * n + n <? len audio) eqn:E.
    + apply Z.ltb_lt in E. split.
      * split; [intros _; exact E | intros _; eauto].
      * intros fr Hfr. injection Hfr as <-. cbn [bytes]. split.
        -- reflexivity.
        -- unfold len in *. rewrite length_firstn, length_skipn. lia.
    + apply Z.ltb_ge in E. split.
      * split; [intros [fr Hfr]; discriminate | lia].
      * intros fr Hfr. discriminate.
  - intros Hn1 fuel Hfuel.
    assert (Hl : len audio <= 0 + Z.of_nat fuel * n) by (unfold len; nia).
    assert (Hlen : length (yielded (frame_loop fuel n d audio 0 f_0_0))
                   = Z.to_nat ((len audio - 1) / n)).
    { rewrite frame_loop_length by lia. now rewrite Z.sub_0_r. }
    split; [|split].
    + apply frame_loop_done; lia.
    + exact Hlen.
    + intros m r Hm Hr Ha. rewrite Hlen, Ha. f_equal.
      replace (m * n + r - 1) with ((r - 1) + m * n) by lia.
      rewrite Z.div_add by lia. rewrite Z.div_small by lia. lia.
Qed.

Lemma framer_emits_full_frames_witness :
  frame_size 1 1000 = Ok 2
  /\ length (yielded (frame_generator 7 1 [x01; x02; x03; x04; x05; x06] 1000))
     = 2%nat.
Proof.
  split; [reflexivity|].
  destruct (framer_emits_full_frames 1 1000 2
              (S754_finite false 4611686018427388 (-62))
              [x01; x02; x03; x04; x05; x06] eq_refl eq_refl ltac:(lia))
    as [_ H].
  destruct (H ltac:(lia) 7%nat ltac:(simpl; lia)) as (_ & _ & H').
  exact (H' 2 2 ltac:(lia) ltac:(lia) eq_refl).
Defined.

(** ** The timestamps and the duration of the frames *)

(** The duration of a frame of [n] bytes, with [1 <= n <= 2 ^ 51] and a
    sample rate above zero, is a float above zero, below [2 ^ 53]. *)
Lemma frame_duration_pos (n sr : Z) (d : float) :
  1 <= n <= 2 ^ 51 -> 1 <= sr -> frame_duration n sr = Ok d ->
  pos_finite d = true /\ scaled d < 2 ^ 2045.
Proof.
  intros Hn Hsr. unfold frame_duration, bind.
  destruct (float_of_int n) as [fn|] eqn:En; [|discriminate].
  destruct (float_of_int sr) as [fsr|] eqn:Esr; [|discriminate].
  destruct (float_of_int_pos n fn ltac:(lia) En) as (Pn & Nlo & Nhi).
  destruct (float_of_int_pos sr fsr Hsr Esr) as (Psr & Slo & _).
  pose proof (scaled_below_max fsr Psr) as Shi.
  unfold float_truediv. rewrite (pos_finite_not_zero fsr Psr).
  change (is_zero f_2_0) with false. cbv iota.
  intros Hd. injection Hd as <-.
  set (a := scaled fn) in *. set (b := scaled fsr) in *.
  assert (Ha : a <= 2 ^ 52 * 2 ^ 1074).
  { apply Z.le_trans with (2 * n * 2 ^ 1074); [exact Nhi|].
    apply Z.mul_le_mono_nonneg_r; [apply Z.lt_le_incl, pow2_pos; lia|].
    change (2 ^ 52) with (2 * 2 ^ 51). lia. }
  destruct (fdiv_bounds fn fsr Pn Psr) as (Pq & Qhi & Qlo).
  - fold a b. apply Z.le_trans with (2 ^ 1074 * 2 ^ 1074).
    + change (2 ^ 2098) with (2 ^ 1024 * 2 ^ 1074) in Shi.
      apply Z.lt_le_incl. apply Z.lt_le_trans with (2 ^ 1024 * 2 ^ 1074);
        [exact Shi|].
      apply Z.mul_le_mono_nonneg_r; [apply Z.lt_le_incl, pow2_pos; lia|].
      apply Z.pow_le_mono_r; lia.
    + apply Z.mul_le_mono_nonneg_r; [apply Z.lt_le_incl, pow2_pos; lia|].
      exact Nlo.
  - fold a b. apply Z.le_lt_trans with (2 ^ 52 * 2 ^ 1074); [exact Ha|].
    apply Z.lt_le_trans with (2 ^ 1074 * 2 ^ 1023).
    + rewrite (Z.mul_comm (2 ^ 52)).
      apply Z.mul_lt_mono_pos_l; [apply pow2_pos; lia|].
      apply Z.pow_lt_mono_r; lia.
    + apply Z.mul_le_mono_nonneg_r; [apply Z.lt_le_incl, pow2_pos; lia|].
      exact Slo.
  - set (q1 := SFdiv prec emax fn fsr) in *.
    set (c := scaled q1) in *. fold a b in Qhi, Qlo.
    pose proof (scaled_pos q1 Pq) as Hc1. fold c in Hc1.
    (* the first quotient is at most [2 * n] ... *)
    assert (Hc : c <= 2 * a).
    { apply (mul_le_cancel_pow2 _ _ 1074); [lia|].
      apply Z.le_trans with (c * b); [|lia].
      apply Z.mul_le_mono_nonneg_l; lia. }
    (* ... and at least 2 units *)
    assert (Hc2 : 2 <= c).
    { destruct (Z.le_gt_cases 2 c) as [H|H]; [exact H|exfalso].
      assert (Hc' : c = 1) by lia. rewrite Hc' in Qlo.
      assert (H1 : 2 ^ 1074 * 2 ^ 1074 <= a * 2 ^ 1074)
        by (apply Z.mul_le_mono_nonneg_r;
            [apply Z.lt_le_incl, pow2_pos; lia | exact Nlo]).
      assert (H2 : 2 * (1 * b) < 2 * 2 ^ 2098) by lia.
      assert (H3 : 2 * 2 ^ 2098 <= 2 ^ 1074 * 2 ^ 1074).
      { rewrite <- Z.pow_add_r by lia. change (2 * 2 ^ 2098) with (2 ^ 2099).
        apply Z.pow_le_mono_r; lia. }
      lia. }
    destruct (fdiv_bounds q1 f_2_0 Pq eq_refl) as (Pd & Dhi & _).
    + fold c. change (scaled f_2_0) with (2 * 2 ^ 1074).
      apply Z.mul_le_mono_nonneg_r; [apply Z.lt_le_incl, pow2_pos; lia|].
      exact Hc2.
    + fold c. change (scaled f_2_0) with (2 * 2 ^ 1074).
      apply Z.le_lt_trans with (2 * (2 ^ 52 * 2 ^ 1074)); [lia|].
      rewrite <- !Z.mul_assoc, <- !Z.pow_add_r by lia.
      change (2 * 2 ^ (52 + 1074)) with (2 ^ 1127).
      change (2 * 2 ^ (1074 + 1023)) with (2 ^ 2098).
      apply Z.pow_lt_mono_r; lia.
    + split; [exact Pd|].
      fold c in Dhi. change (scaled f_2_0) with (2 * 2 ^ 1074) in Dhi.
      set (sd := scaled (SFdiv prec emax q1 f_2_0)) in *.
      assert (Hsd : sd <= c).
      { apply (mul_le_cancel_pow2 _ _ 1074); [lia|]. lia. }
      apply Z.le_lt_trans with (2 * (2 ^ 52 * 2 ^ 1074)); [lia|].
      rewrite <- Z.pow_add_r by lia.
      change (2 * 2 ^ (52 + 1074)) with (2 ^ 1127).
      apply Z.pow_lt_mono_r; lia.
Qed.

Lemma advance_succ (k : nat) :
  forall t d : float, advance t d (S k) = fadd (advance t d k) d.
Proof.
  induction k as [|k IH]; intros t d; [reflexivity|].
  change (advance t d (S (S k))) with (advance (fadd t d) d (S k)).
  now rewrite IH.
Qed.

Lemma fadd_zero_l (d : float) :
  pos_finite d = true -> fadd f_0_0 d = d.
Proof.
  intros H. destruct (pos_finite_inv d H) as (m & e & -> & _). reflexivity.
Qed.

(** The timestamps: after [k] frames, with [1 <= k <= 2 ^ 50], the
    timestamp is a float above zero and at most [2 * k] times the
    duration. *)
Lemma advance_bound (d : float) (k : nat) :
  pos_finite d = true -> scaled d < 2 ^ 2045 ->
  (1 <= k)%nat -> Z.of_nat k <= 2 ^ 50 ->
  pos_finite (advance f_0_0 d k) = true
  /\ scaled (advance f_0_0 d k) <= 2 * Z.of_nat k * scaled d.
Proof.
  intros Hd Hsd. pose proof (scaled_pos d Hd) as Hpos.
  induction k as [|k IH]; intros Hk1 Hk; [lia|].
  rewrite advance_succ.
  destruct k as [|k].
  - cbn [advance]. rewrite fadd_zero_l by exact Hd. split; [exact Hd | lia].
  - destruct IH as [IH1 IH2]; [lia | lia |].
    set (t := advance f_0_0 d (S k)) in *.
    destruct (fadd_increases t d (2 * Z.of_nat (S k)) IH1 Hd IH2)
      as (H1 & H2 & H3).
    + change (2 ^ 52) with (4 * 2 ^ 50). lia.
    + apply Z.le_lt_trans with (2 ^ 52 * scaled d).
      * apply Z.mul_le_mono_nonneg_r; [lia|].
        change (2 ^ 52) with (4 * 2 ^ 50). lia.
      * change (2 ^ 2097) with (2 ^ 52 * 2 ^ 2045).
        apply Z.mul_lt_mono_pos_l; lia.
    + split; [exact H1|].
      replace (2 * Z.of_nat (S (S k)) * scaled d)
        with (2 * Z.of_nat (S k) * scaled d + 2 * scaled d) by lia.
      lia.
Qed.

(** Each timestamp is below the next one. *)
Lemma advance_increases (d : float) (k : nat) :
  pos_finite d = true -> scaled d < 2 ^ 2045 ->
  Z.of_nat k < 2 ^ 50 ->
  fltb (advance f_0_0 d k) (advance f_0_0 d (S k)) = true.
Proof.
  intros Hd Hsd Hk. pose proof (scaled_pos d Hd) as Hpos.
  rewrite advance_succ.
  destruct k as [|k].
  - cbn [advance]. rewrite fadd_zero_l by exact Hd.
    destruct (pos_finite_inv d Hd) as (m & e & -> & _). reflexivity.
  - destruct (advance_bound d (S k) Hd Hsd ltac:(lia) ltac:(lia)) as [B1 B2].
    set (t := advance f_0_0 d (S k)) in *.
    destruct (fadd_increases t d (2 * Z.of_nat (S k)) B1 Hd B2)
      as (H1 & H2 & H3).
    + change (2 ^ 52) with (4 * 2 ^ 50). lia.
    + apply Z.le_lt_trans with (2 ^ 52 * scaled d).
      * apply Z.mul_le_mono_nonneg_r; [lia|].
        change (2 ^ 52) with (4 * 2 ^ 50). lia.
      * change (2 ^ 2097) with (2 ^ 52 * 2 ^ 2045).
        apply Z.mul_lt_mono_pos_l; lia.
    + rewrite fltb_scaled by assumption. now apply Z.ltb_lt.
Qed.

Lemma advance_scaled_step (d : float) (k : nat) :
  pos_finite d = true -> scaled d < 2 ^ 2045 ->
  (1 <= k)%nat -> Z.of_nat k < 2 ^ 50 ->
  scaled (advance f_0_0 d k) < scaled (advance f_0_0 d (S k)).
Proof.
  intros Hd Hsd Hk1 Hk.
  destruct (advance_bound d k Hd Hsd Hk1 ltac:(lia)) as [P1 _].
  destruct (advance_bound d (S k) Hd Hsd ltac:(lia) ltac:(lia)) as [P2 _].
  pose proof (advance_increases d k Hd Hsd Hk) as H.
  rewrite fltb_scaled in H by assumption. now apply Z.ltb_lt.
Qed.

Lemma advance_scaled_mono (d : float) (i j : nat) :
  pos_finite d = true -> scaled d < 2 ^ 2045 ->
  (1 <= i < j)%nat -> Z.of_nat j <= 2 ^ 50 ->
  scaled (advance f_0_0 d i) < scaled (advance f_0_0 d j).
Proof.
  intros Hd Hsd. induction j as [|j IH]; intros Hij Hj; [lia|].
  pose proof (advance_scaled_step d j Hd Hsd ltac:(lia) ltac:(lia)) as Hs.
  destruct (Nat.eq_dec i j) as [->|Hne]; [exact Hs|].
  specialize (IH ltac:(lia) ltac:(lia)). lia.
Qed.

(** The timestamps of two frames are in the order of the frames. *)
Lemma advance_lt (d : float) (i j : nat) :
  pos_finite d = true -> scaled d < 2 ^ 2045 ->
  (i < j)%nat -> Z.of_nat j <= 2 ^ 50 ->
  fltb (advance f_0_0 d i) (advance f_0_0 d j) = true.
Proof.
  intros Hd Hsd Hij Hj.
  destruct (advance_bound d j Hd Hsd ltac:(lia) Hj) as [Pj _].
  destruct i as [|i].
  - cbn [advance].
    destruct (pos_finite_inv _ Pj) as (m & e & -> & _). reflexivity.
  - destruct (advance_bound d (S i) Hd Hsd ltac:(lia) ltac:(lia)) as [Pi _].
    rewrite fltb_scaled by assumption. apply Z.ltb_lt.
    apply advance_scaled_mono; try assumption. lia.
Qed.

(** C7. For a frame size [n] of 1 or more the framer ends, and its frames
    are the successive chunks of [n] bytes of the audio: the frame of index
    [k] holds the bytes from [k * n] to [k * n + n], so that two frames do
    not overlap and follow the order of the audio, and the bytes of all the
    frames, joined in order, are the first [n * len(frames)] bytes of the
    audio. Every frame has the duration [(float(n) / sample_rate) / 2.0];
    the first timestamp is [0.0] and each timestamp is the one before plus
    the duration, in binary64. For a sample rate of 1 or more and an audio
    of at most [2 ^ 50] bytes, the timestamps are strictly increasing. *)
Theorem framer_covers_a_prefix (fd sr n : Z) (d : float) (audio : bytes_t)
    (fuel : nat) :
  frame_size fd sr = Ok n -> frame_duration n sr = Ok d ->
  1 <= n -> (length audio < fuel)%nat ->
  let out := frame_generator fuel fd audio sr in
  ended out = Done
  /\ (forall (k : nat) (fr : Frame),
        nth_error (yielded out) k = Some fr ->
        bytes fr = slice audio (Z.of_nat k * n) (Z.of_nat k * n + n)
        /\ len (bytes fr) = n
        /\ Z.of_nat k * n + n < len audio
        /\ timestamp fr = advance f_0_0 d k
        /\ duration fr = d)
  /\ (forall (i j : nat) (fi fj : Frame),
        (i < j)%nat ->
        nth_error (yielded out) i = Some fi ->
        nth_error (yielded out) j = Some fj ->
        Z.of_nat i * n + n <= Z.of_nat j * n
        /\ (1 <= sr -> len audio <= 2 ^ 50 ->
            fltb (timestamp fi) (timestamp fj) = true))
  /\ (forall fr : Frame,
        nth_error (yielded out) 0 = Some fr -> timestamp fr = f_0_0)
  /\ concat (map bytes (yielded out))
     = firstn (Z.to_nat (n * len (yielded out))) audio
  /\ len (concat (map bytes (yielded out))) = n * len (yielded out).
Proof.
  intros Hsize Hdur Hn Hfuel out.
  unfold out, frame_generator. rewrite Hsize, Hdur.
  set (fs := yielded (frame_loop fuel n d audio 0 f_0_0)).
  assert (Hnth : forall (k : nat) (fr : Frame),
             nth_error fs k = Some fr ->
             Z.of_nat k * n + n < len audio
             /\ fr = mkFrame
                       (firstn (Z.to_nat n)
                          (skipn (Z.to_nat (Z.of_nat k * n)) audio))
                       (advance f_0_0 d k) d).
  { intros k fr Hk.
    assert (Hkf : (k < fuel)%nat).
    { assert (Hlen : (k < length fs)%nat)
        by (apply nth_error_Some; congruence).
      unfold fs in Hlen. rewrite frame_loop_length in Hlen by (unfold len; nia).
      rewrite Z.sub_0_r in Hlen.
      destruct (Z.le_gt_cases 0 (len audio - 1)) as [Hp|Hneg].
      - assert (Hq : (len audio - 1) / n <= len audio - 1)
          by (apply Z.div_le_upper_bound; nia).
        unfold len in *. lia.
      - assert (Hq : (len audio - 1) / n < 0)
          by (apply Z.div_lt_upper_bound; lia).
        lia. }
    unfold fs in Hk. rewrite frame_loop_nth in Hk by lia.
    replace (0 + (Z.of_nat k + 1) * n) with (Z.of_nat k * n + n) in Hk by lia.
    destruct (Z.of_nat k * n + n <? len audio) eqn:E; [|discriminate].
    apply Z.ltb_lt in E. injection Hk as <-. split; [exact E|].
    reflexivity. }
  assert (Hcat : concat (map bytes fs)
                 = firstn (Z.to_nat (n * len fs)) audio).
  { unfold fs. rewrite frame_loop_concat by lia. reflexivity. }
  split; [|split; [|split; [|split; [|split]]]].
  - apply frame_loop_done; [lia | lia | unfold len; nia].
  - intros k fr Hk. destruct (Hnth k fr Hk) as [Hr ->]. cbn [bytes timestamp duration].
    split; [|split; [|split; [exact Hr | split; reflexivity]]].
    + rewrite slice_in_range by lia. reflexivity.
    + unfold len in *. rewrite length_firstn, length_skipn. lia.
  - intros i j fi fj Hij Hi Hj.
    destruct (Hnth i fi Hi) as [Hri ->]. destruct (Hnth j fj Hj) as [Hrj ->].
    cbn [timestamp]. split; [nia|].
    intros Hsr Hlen.
    destruct (frame_duration_pos n sr d ltac:(change (2 ^ 51) with (2 * 2 ^ 50); nia)
                Hsr Hdur) as [Pd Sd].
    apply advance_lt; try assumption. nia.
  - intros fr Hfr. destruct (Hnth 0%nat fr Hfr) as [_ ->]. reflexivity.
  - exact Hcat.
  - rewrite Hcat.
    assert (Hlenfs : length fs = Z.to_nat ((len audio - 1) / n)).
    { unfold fs. rewrite frame_loop_length by (unfold len; nia).
      now rewrite Z.sub_0_r. }
    assert (Hb : 0 <= n * len fs <= len audio).
    { unfold len at 1 2. rewrite Hlenfs.
      pose proof (len_nonneg audio) as Ha.
      destruct (Z.le_gt_cases 0 (len audio - 1)) as [Hp|Hneg].
      - assert (0 <= (len audio - 1) / n) by (apply Z.div_pos; lia).
        rewrite Z2Nat.id by lia.
        pose proof (Z.mul_div_le (len audio - 1) n ltac:(lia)). nia.
      - assert (Hq : (len audio - 1) / n < 0)
          by (apply Z.div_lt_upper_bound; lia).
        replace (Z.to_nat ((len audio - 1) / n)) with 0%nat by lia.
        simpl. lia. }
    unfold len in *. rewrite length_firstn. lia.
Qed.

Lemma framer_covers_a_prefix_witness :
  frame_size 1 1000 = Ok 2
  /\ frame_duration 2 1000 = Ok (S754_finite false 4611686018427388 (-62))
  /\ ended (frame_generator 8 1 [x01; x02; x03; x04; x05; x06; x07] 1000)
     = Done
  /\ concat
       (map bytes
          (yielded
             (frame_generator 8 1 [x01; x02; x03; x04; x05; x06; x07] 1000)))
     = [x01; x02; x03; x04; x05; x06]
  /\ (forall fi fj : Frame,
        nth_error
          (yielded
             (frame_generator 8 1 [x01; x02; x03; x04; x05; x06; x07] 1000))
          0 = Some fi ->
        nth_error
          (yielded
             (frame_generator 8 1 [x01; x02; x03; x04; x05; x06; x07] 1000))
          2 = Some fj ->
        fltb (timestamp fi) (timestamp fj) = true).
Proof.
  split; [reflexivity|]. split; [reflexivity|].
  destruct (framer_covers_a_prefix 1 1000 2
              (S754_finite false 4611686018427388 (-62))
              [x01; x02; x03; x04; x05; x06; x07] 8 eq_refl eq_refl
              ltac:(lia) ltac:(simpl; lia))
    as (H1 & _ & H3 & _ & H5 & _).
  split; [exact H1|]. split.
  - rewrite H5. reflexivity.
  - intros fi fj Hi Hj.
    destruct (H3 0%nat 2%nat fi fj ltac:(lia) Hi Hj) as [_ Ht].
    apply Ht; [lia|]. unfold len. simpl.
    apply Z.lt_le_incl. now apply Z.ltb_lt.
Defined.

(** ** The loop of the collector, by its votes *)

Lemma collect_votes_app (maxlen : Z) (xs ys : list (Frame * bool)) (st : state) :
  collect_votes maxlen st (xs ++ ys)
  = (fst (collect_votes maxlen (fst (collect_votes maxlen st xs)) ys),
     snd (collect_votes maxlen st xs)
     ++ snd (collect_votes maxlen (fst (collect_votes maxlen st xs)) ys)).
Proof.
  revert st. induction xs as [|[f v] xs IH]; intros st; simpl.
  - now destruct (collect_votes maxlen st ys).
  - destruct (collect_frame maxlen st f v) as [st' out].
    rewrite IH.
    destruct (collect_votes maxlen st' xs) as [st'' outs]. simpl.
    now rewrite app_assoc.
Qed.

Lemma collect_votes_one (maxlen : Z) (st : state) (f : Frame) (v : bool) :
  collect_votes maxlen st [(f, v)] = collect_frame maxlen st f v.
Proof.
  simpl. destruct (collect_frame maxlen st f v) as [st' out].
  now rewrite app_nil_r.
Qed.

Section Backbone.

Context {V : Type}.
Variable is_speech : V -> bytes_t -> Z -> V * result bool.
Variable sample_rate : Z.

(** The collector depends on the classifier through its votes only. *)
Lemma collect_loop_votes (maxlen : Z) (frames : list Frame) :
  forall (vad : V) (st : state),
    collect_loop is_speech sample_rate maxlen vad st frames
    = yield_all
        (snd (collect_votes maxlen st
                (fst (votes is_speech sample_rate vad frames))))
        (match snd (votes is_speech sample_rate vad frames) with
         | Some e => mkTrace [] (Raised e)
         | None =>
             flush (fst (collect_votes maxlen st
                           (fst (votes is_speech sample_rate vad frames))))
         end).
Proof.
  induction frames as [|f rest IH]; intros vad st; simpl.
  - now destruct (flush st).
  - destruct (is_speech vad (bytes f) sample_rate) as [vad' [speech|e]].
    + destruct (votes is_speech sample_rate vad' rest) as [vs r] eqn:Ev.
      simpl.
      destruct (collect_frame maxlen st f speech) as [st' out].
      rewrite IH, Ev. simpl.
      destruct (collect_votes maxlen st' vs) as [st'' outs]. simpl.
      unfold yield_all. simpl. now rewrite app_assoc.
    + reflexivity.
Qed.

Lemma votes_frames (frames : list Frame) :
  forall (vad : V),
    map fst (fst (votes is_speech sample_rate vad frames))
    = firstn (length (fst (votes is_speech sample_rate vad frames))) frames.
Proof.
  induction frames as [|f rest IH]; intros vad; simpl.
  - reflexivity.
  - destruct (is_speech vad (bytes f) sample_rate) as [vad' [speech|e]].
    + specialize (IH vad').
      destruct (votes is_speech sample_rate vad' rest) as [vs r].
      simpl in *. now rewrite IH.
    + reflexivity.
Qed.

Lemma votes_all (frames : list Frame) :
  forall (vad : V),
    snd (votes is_speech sample_rate vad frames) = None ->
    map fst (fst (votes is_speech sample_rate vad frames)) = frames.
Proof.
  induction frames as [|f rest IH]; intros vad; simpl.
  - reflexivity.
  - destruct (is_speech vad (bytes f) sample_rate) as [vad' [speech|e]].
    + specialize (IH vad').
      destruct (votes is_speech sample_rate vad' rest) as [vs r].
      simpl in *. intros Hr. now rewrite IH.
    + discriminate.
Qed.

(** The votes on a sequence whose first failing frame is [f]. *)
Lemma votes_raise (pre post : list Frame) (f : Frame) (e : exn) :
  forall (vad : V),
    snd (votes is_speech sample_rate vad pre) = None ->
    snd (is_speech (vad_after is_speech sample_rate vad pre) (bytes f)
           sample_rate) = Raise e ->
    votes is_speech sample_rate vad (pre ++ f :: post)
    = (fst (votes is_speech sample_rate vad pre), Some e).
Proof.
  induction pre as [|g pre IH]; intros vad Hpre Hf; simpl in *.
  - destruct (is_speech vad (bytes f) sample_rate) as [vad' r].
    simpl in Hf. now subst r.
  - destruct (is_speech vad (bytes g) sample_rate) as [vad' [speech|e']].
    + simpl in Hf. specialize (IH vad').
      destruct (votes is_speech sample_rate vad' pre) as [vs r] eqn:Ev.
      simpl in *. rewrite (IH Hpre Hf). reflexivity.
    + discriminate.
Qed.

End Backbone.

(** ** The threshold is positive *)

Lemma binary_round_aux_not_negative (m e : Z) (l : location) :
  not_negative (binary_round_aux prec emax false m e l).
Proof.
  unfold binary_round_aux.
  destruct (shr_fexp prec emax m e l) as [mrs' e'].
  destruct (shr_fexp prec emax _ e' loc_Exact) as [mrs'' e''].
  destruct (shr_m mrs''); cbn [not_negative]; auto.
  destruct (e'' <=? emax - prec); cbn [not_negative]; auto.
Qed.

Lemma round_int_not_negative (z : Z) : 0 <= z -> not_negative (round_int z).
Proof.
  intros Hz. unfold round_int, binary_normalize.
  destruct z as [|p|p]; simpl; auto; [|lia].
  unfold binary_round.
  destruct (shl_align p 0 _) as [mz ez].
  apply binary_round_aux_not_negative.
Qed.

Lemma fmul_not_negative (x y : float) :
  not_negative x -> not_negative y -> not_negative (fmul x y).
Proof.
  unfold fmul, SFmul.
  destruct x as [sx|sx| |sx mx ex], y as [sy|sy| |sy my ey]; simpl;
    intros Hx Hy; subst; simpl; auto.
  apply binary_round_aux_not_negative.
Qed.

Lemma int_gt_float_pos (c : Z) (f : float) :
  not_negative f -> int_gt_float c f = true -> 0 < c.
Proof.
  destruct f as [s|s| |s m e]; cbn [not_negative int_gt_float];
    intros Hs H; subst; try discriminate.
  - now apply Z.ltb_lt in H.
  - unfold cond_Zopp in H.
    destruct (0 <=? e) eqn:He; apply Z.ltb_lt in H.
    + apply Z.leb_le in He.
      assert (0 < 2 ^ e) by (apply Z.pow_pos_nonneg; lia). nia.
    + apply Z.leb_gt in He.
      assert (0 < 2 ^ (- e)) by (apply Z.pow_pos_nonneg; lia). nia.
Qed.

Lemma exceeds_pos (c maxlen : Z) :
  0 <= maxlen -> exceeds c maxlen = true -> 0 < c.
Proof.
  intros H0. unfold exceeds. apply int_gt_float_pos.
  apply fmul_not_negative; [reflexivity | now apply round_int_not_negative].
Qed.

Lemma num_padding_frames_range (fd pd maxlen : Z) :
  num_padding_frames fd pd = Ok maxlen -> 0 <= maxlen <= PY_SSIZE_T_MAX.
Proof.
  unfold num_padding_frames, bind.
  destruct (int_truediv pd fd) as [q|]; [|discriminate].
  destruct (int_of_float q) as [w|]; [|discriminate].
  unfold deque_new.
  destruct (w <? 0) eqn:E1; [discriminate|].
  destruct (PY_SSIZE_T_MAX <? w) eqn:E2; [discriminate|].
  intros H. injection H as <-.
  apply Z.ltb_ge in E1. apply Z.ltb_ge in E2. lia.
Qed.

(** ** The threshold *)

Lemma int_gt_float_floor (c z : Z) (f : float) :
  not_negative f -> int_of_float f = Ok z -> int_gt_float c f = (z <? c).
Proof.
  destruct f as [s|s| |s m e]; cbn [not_negative int_of_float int_gt_float];
    intros Hs Hz; subst; try discriminate.
  - now injection Hz as <-.
  - injection Hz as <-. unfold cond_Zopp.
    destruct (0 <=? e) eqn:He.
    + apply Z.leb_le in He. now rewrite Z.shiftl_mul_pow2.
    + apply Z.leb_gt in He. rewrite Z.shiftl_div_pow2 by lia.
      assert (Hp : 0 < 2 ^ (- e)) by (apply Z.pow_pos_nonneg; lia).
      pose proof (Z.div_mod (Z.pos m) (2 ^ (- e)) ltac:(lia)) as Hdm.
      pose proof (Z.mod_pos_bound (Z.pos m) (2 ^ (- e)) Hp) as Hmod.
      destruct (Z.pos m <? c * 2 ^ (- e)) eqn:E1;
        destruct (Z.pos m / 2 ^ (- e) <? c) eqn:E2; try reflexivity.
      * apply Z.ltb_lt in E1. apply Z.ltb_ge in E2. nia.
      * apply Z.ltb_ge in E1. apply Z.ltb_lt in E2. nia.
Qed.

Lemma threshold_agrees_exceeds (c w : Z) :
  0 <= w -> threshold_agrees w = true -> exceeds c w = (9 * w <? 10 * c).
Proof.
  intros Hw. unfold threshold_agrees.
  destruct (int_of_float (fmul f_0_9 (round_int w))) as [z|] eqn:Hz;
    [|discriminate].
  intros E. apply Z.eqb_eq in E. unfold exceeds.
  rewrite (int_gt_float_floor c z _
             (fmul_not_negative f_0_9 _ (eq_refl false)
                (round_int_not_negative w Hw)) Hz).
  subst z.
  pose proof (Z.div_mod (9 * w) 10 ltac:(lia)) as Hdm.
  pose proof (Z.mod_pos_bound (9 * w) 10 ltac:(lia)) as Hmod.
  destruct (9 * w / 10 <? c) eqn:E1; destruct (9 * w <? 10 * c) eqn:E2;
    try reflexivity.
  - apply Z.ltb_lt in E1. apply Z.ltb_ge in E2. lia.
  - apply Z.ltb_ge in E1. apply Z.ltb_lt in E2. lia.
Qed.

Lemma threshold_agrees_upto :
  forallb threshold_agrees (map Z.of_nat (seq 0 (Z.to_nat 10001))) = true.
Proof. vm_compute. reflexivity. Qed.

(** For every capacity up to 10000 the comparison made in binary64 is the
    comparison of [count] with nine tenths of the capacity. *)
Lemma exceeds_nine_tenths (c w : Z) :
  0 <= w <= 10000 -> exceeds c w = (9 * w <? 10 * c).
Proof.
  intros Hw. apply threshold_agrees_exceeds; [lia|].
  pose proof threshold_agrees_upto as H.
  rewrite forallb_forall in H. apply H.
  apply in_map_iff. exists (Z.to_nat w). split; [lia|].
  apply in_seq. lia.
Qed.

Lemma num_voiced_unvoiced (rb : list (Frame * bool)) :
  num_voiced rb + num_unvoiced rb = len rb.
Proof.
  unfold num_voiced, num_unvoiced, len.
  assert (H : (length (filter (fun p : Frame * bool => snd p) rb)
               + length (filter (fun p : Frame * bool => negb (snd p)) rb)
               = length rb)%nat); [|lia].
  induction rb as [|[f v] rb IH]; [reflexivity|].
  destruct v; cbn [filter snd negb length]; lia.
Qed.

Lemma filter_all {A : Type} (g : A -> bool) (l : list A) :
  length (filter g l) = length l <-> Forall (fun x => g x = true) l.
Proof.
  induction l as [|x l IH]; [split; auto|].
  pose proof (filter_length_le g l) as Hle.
  cbn [filter]. destruct (g x) eqn:E; cbn [length].
  - split.
    + intros H. constructor; [exact E|]. apply IH. lia.
    + intros H. inversion H; subst. f_equal. now apply IH.
  - split.
    + intros H. lia.
    + intros H. inversion H; subst. congruence.
Qed.

Lemma num_voiced_all (rb : list (Frame * bool)) :
  num_voiced rb = len rb <-> Forall (fun p => snd p = true) rb.
Proof.
  unfold num_voiced, len. split.
  - intros H. apply Nat2Z.inj in H.
    now apply (filter_all (fun p : Frame * bool => snd p)).
  - intros H. f_equal.
    now apply (filter_all (fun p : Frame * bool => snd p)).
Qed.

Lemma num_unvoiced_all (rb : list (Frame * bool)) :
  num_unvoiced rb = len rb <-> Forall (fun p => snd p = false) rb.
Proof.
  unfold num_unvoiced, len. split.
  - intros H. apply Nat2Z.inj in H.
    apply (filter_all (fun p : Frame * bool => negb (snd p))) in H.
    eapply Forall_impl; [|exact H]. intros [f v]; simpl. now destruct v.
  - intros H. f_equal.
    apply (filter_all (fun p : Frame * bool => negb (snd p))).
    eapply Forall_impl; [|exact H]. intros [f v]; simpl. now intros ->.
Qed.

(** C5. The threshold is compared as a float and strictly. With a capacity
    of 10 the threshold [0.9 * 10] is the float 9.0, so that a count of 9
    does not exceed it and a count exceeds it exactly from 10 on: the
    collector becomes TRIGGERED only when the ring buffer is full of 10
    voiced votes, and leaves TRIGGERED only when it is full of 10 unvoiced
    votes. *)
Theorem threshold_of_ten :
  fmul f_0_9 (round_int 10) = S754_finite false (9 * 2 ^ 49) (-49)
  /\ exceeds 9 10 = false
  /\ (forall c : Z, exceeds c 10 = true <-> 10 <= c)
  /\ (forall st f v,
        triggered st = false -> len (ring_buffer st) <= 10 ->
        let rb := deque_append 10 (ring_buffer st) (f, v) in
        triggered (fst (collect_frame 10 st f v)) = true
        <-> len rb = 10 /\ Forall (fun p => snd p = true) rb)
  /\ (forall st f v,
        triggered st = true -> len (ring_buffer st) <= 10 ->
        let rb := deque_append 10 (ring_buffer st) (f, v) in
        triggered (fst (collect_frame 10 st f v)) = false
        <-> len rb = 10 /\ Forall (fun p => snd p = false) rb).
Proof.
  assert (Hc : forall c : Z, exceeds c 10 = true <-> 10 <= c).
  { intros c. rewrite exceeds_nine_tenths by lia. rewrite Z.ltb_lt. lia. }
  split; [reflexivity|]. split; [reflexivity|]. split; [exact Hc|]. split.
  - intros st f v Ht Hl rb. unfold collect_frame. rewrite Ht. cbn [negb].
    fold rb.
    pose proof (deque_append_len 10 (ring_buffer st) (f, v) ltac:(lia) Hl) as Hrb.
    fold rb in Hrb.
    pose proof (num_voiced_unvoiced rb) as Hsum.
    pose proof (len_nonneg (filter (fun p => negb (snd p)) rb)) as Hu.
    fold (num_unvoiced rb) in Hu.
    rewrite <- num_voiced_all.
    destruct (exceeds (num_voiced rb) 10) eqn:E; cbn [fst triggered].
    + apply Hc in E. split; [intros _; lia | reflexivity].
    + split; [discriminate|]. intros [H1 H2].
      assert (Hx : exceeds (num_voiced rb) 10 = true) by (apply Hc; lia).
      congruence.
  - intros st f v Ht Hl rb. unfold collect_frame. rewrite Ht. cbn [negb].
    fold rb.
    pose proof (deque_append_len 10 (ring_buffer st) (f, v) ltac:(lia) Hl) as Hrb.
    fold rb in Hrb.
    pose proof (num_voiced_unvoiced rb) as Hsum.
    pose proof (len_nonneg (filter (fun p => snd p) rb)) as Hu.
    fold (num_voiced rb) in Hu.
    rewrite <- num_unvoiced_all.
    destruct (exceeds (num_unvoiced rb) 10) eqn:E; cbn [fst triggered].
    + apply Hc in E. split; [intros _; lia | reflexivity].
    + split; [discriminate|]. intros [H1 H2].
      assert (Hx : exceeds (num_unvoiced rb) 10 = true) by (apply Hc; lia).
      congruence.
Qed.

Lemma threshold_of_ten_witness :
  triggered initial = false
  /\ len (ring_buffer initial) <= 10
  /\ triggered (fst (collect_frame 10 initial (mkFrame [x01] f_0_0 f_0_0) true))
     <> true.
Proof.
  split; [reflexivity|]. split; [unfold len; simpl; lia|].
  destruct threshold_of_ten as (_ & _ & _ & H & _).
  intros Ht.
  apply (H initial (mkFrame [x01] f_0_0 f_0_0) true eq_refl
           ltac:(unfold len; simpl; lia)) in Ht.
  destruct Ht as [Hlen _]. discriminate Hlen.
Defined.

(** ** The two states *)

Lemma firstn_S_snoc {A : Type} (xs : list A) (x : A) (k : nat) :
  (k < length xs)%nat -> firstn (S k) (xs ++ [x]) = firstn (S k) xs.
Proof.
  intros Hk. rewrite firstn_app.
  replace (S k - length xs)%nat with 0%nat by lia.
  simpl. now rewrite app_nil_r.
Qed.

Lemma not_triggered_run (maxlen : Z) (st : state) (xs : list (Frame * bool)) :
  triggered st = false ->
  (forall k, (k < length xs)%nat ->
     exceeds (num_voiced (pushes maxlen (ring_buffer st) (firstn (S k) xs)))
             maxlen = false) ->
  collect_votes maxlen st xs
  = (mkState false (pushes maxlen (ring_buffer st) xs) (voiced_frames st), []).
Proof.
  intros Ht. induction xs as [|[f v] xs IH] using rev_ind; intros Hk.
  - destruct st; simpl in *. now subst.
  - rewrite collect_votes_app, collect_votes_one.
    rewrite IH.
    2:{ intros k Hlt. rewrite <- (firstn_S_snoc xs (f, v)) by exact Hlt.
        apply Hk. rewrite length_app. simpl. lia. }
    simpl. unfold collect_frame. simpl.
    specialize (Hk (length xs)).
    rewrite <- pushes_snoc.
    replace (firstn (S (length xs)) (xs ++ [(f, v)])) with (xs ++ [(f, v)]) in Hk.
    2:{ symmetry. apply firstn_all2. rewrite length_app. simpl. lia. }
    rewrite Hk by (rewrite length_app; simpl; lia).
    reflexivity.
Qed.

Lemma triggered_run (maxlen : Z) (st : state) (xs : list (Frame * bool)) :
  triggered st = true ->
  (forall k, (k < length xs)%nat ->
     exceeds (num_unvoiced (pushes maxlen (ring_buffer st) (firstn (S k) xs)))
             maxlen = false) ->
  collect_votes maxlen st xs
  = (mkState true (pushes maxlen (ring_buffer st) xs)
             (voiced_frames st ++ map fst xs), []).
Proof.
  intros Ht. induction xs as [|[f v] xs IH] using rev_ind; intros Hk.
  - destruct st; simpl in *. subst. now rewrite app_nil_r.
  - rewrite collect_votes_app, collect_votes_one.
    rewrite IH.
    2:{ intros k Hlt. rewrite <- (firstn_S_snoc xs (f, v)) by exact Hlt.
        apply Hk. rewrite length_app. simpl. lia. }
    simpl. unfold collect_frame. simpl.
    specialize (Hk (length xs)).
    rewrite <- pushes_snoc.
    replace (firstn (S (length xs)) (xs ++ [(f, v)])) with (xs ++ [(f, v)]) in Hk.
    2:{ symmetry. apply firstn_all2. rewrite length_app. simpl. lia. }
    rewrite Hk by (rewrite length_app; simpl; lia).
    rewrite map_app, app_assoc. reflexivity.
Qed.

(** C1. Whatever the classifier and the frames, the loop is the loop on the
    votes. In NOT_TRIGGERED the frame and its vote are appended to the ring
    buffer of capacity [maxlen]; the collector becomes TRIGGERED on the
    first frame after which the voiced votes in the ring buffer exceed
    [0.9 * maxlen], and on no frame before it. On that frame the frames of
    the ring buffer, in their order, are added to the segment list and the
    ring buffer is emptied; nothing is yielded. The ring buffer holds the
    last [maxlen] pairs appended; and for a capacity up to 10000 the
    comparison with [0.9 * maxlen], made in binary64, is the comparison
    with nine tenths of the capacity. *)
Theorem trigger_on_first_excess (maxlen : Z) (st : state) :
  triggered st = false ->
  (forall (V : Type) (is_speech : V -> bytes_t -> Z -> V * result bool)
          (sample_rate : Z) (vad : V) (frames : list Frame),
     let vs := votes is_speech sample_rate vad frames in
     collect_loop is_speech sample_rate maxlen vad st frames
     = yield_all (snd (collect_votes maxlen st (fst vs)))
         (match snd vs with
          | Some e => mkTrace [] (Raised e)
          | None => flush (fst (collect_votes maxlen st (fst vs)))
          end))
  /\
  (forall f v,
     let rb := deque_append maxlen (ring_buffer st) (f, v) in
     collect_frame maxlen st f v
     = if exceeds (num_voiced rb) maxlen
       then (mkState true [] (voiced_frames st ++ map fst rb), [])
       else (mkState false rb (voiced_frames st), []))
  /\
  (forall xs f v,
     (forall k, (k < length xs)%nat ->
        exceeds (num_voiced (pushes maxlen (ring_buffer st) (firstn (S k) xs)))
                maxlen = false) ->
     let rb := pushes maxlen (ring_buffer st) (xs ++ [(f, v)]) in
     collect_votes maxlen st xs
     = (mkState false (pushes maxlen (ring_buffer st) xs) (voiced_frames st), [])
     /\
     (exceeds (num_voiced rb) maxlen = true ->
      collect_votes maxlen st (xs ++ [(f, v)])
      = (mkState true [] (voiced_frames st ++ map fst rb), [])))
  /\
  (0 <= maxlen -> len (ring_buffer st) <= maxlen ->
   forall xs,
     len (pushes maxlen (ring_buffer st) xs) <= maxlen
     /\ pushes maxlen (ring_buffer st) xs
        = skipn (length (ring_buffer st ++ xs) - Z.to_nat maxlen)
                (ring_buffer st ++ xs))
  /\
  (0 <= maxlen <= 10000 ->
   forall c : Z, exceeds c maxlen = true <-> 9 * maxlen < 10 * c).
Proof.
  intros Ht. split; [|split; [|split; [|split]]].
  - intros V is_speech sample_rate vad frames vs. apply collect_loop_votes.
  - intros f v rb. unfold collect_frame. rewrite Ht. reflexivity.
  - intros xs f v Hk rb. split.
    + now apply not_triggered_run.
    + intros Hex. rewrite collect_votes_app, collect_votes_one.
      rewrite not_triggered_run by assumption. simpl.
      unfold collect_frame. simpl. rewrite <- pushes_snoc.
      fold rb. rewrite Hex. reflexivity.
  - intros H0 Hrb xs. split.
    + now apply pushes_len.
    + now apply pushes_last.
  - intros Hw c. rewrite exceeds_nine_tenths by exact Hw. apply Z.ltb_lt.
Qed.

(** C2. Whatever the classifier and the frames, the loop is the loop on the
    votes. In TRIGGERED every frame is added to the segment list and, with its
    vote, to the ring buffer; the collector goes back to NOT_TRIGGERED on
    the first frame after which the unvoiced votes in the ring buffer
    exceed [0.9 * maxlen], and on no frame before it. On that frame it
    yields the bytes of the frames of the segment list, joined in order, as
    one buffer, and empties the ring buffer and the segment list. *)
Theorem detrigger_on_first_excess (maxlen : Z) (st : state) :
  triggered st = true ->
  (forall (V : Type) (is_speech : V -> bytes_t -> Z -> V * result bool)
          (sample_rate : Z) (vad : V) (frames : list Frame),
     let vs := votes is_speech sample_rate vad frames in
     collect_loop is_speech sample_rate maxlen vad st frames
     = yield_all (snd (collect_votes maxlen st (fst vs)))
         (match snd vs with
          | Some e => mkTrace [] (Raised e)
          | None => flush (fst (collect_votes maxlen st (fst vs)))
          end))
  /\
  (forall f v,
     let rb := deque_append maxlen (ring_buffer st) (f, v) in
     collect_frame maxlen st f v
     = if exceeds (num_unvoiced rb) maxlen
       then (mkState false [] [], [join (voiced_frames st ++ [f])])
       else (mkState true rb (voiced_frames st ++ [f]), []))
  /\
  (forall xs f v,
     (forall k, (k < length xs)%nat ->
        exceeds (num_unvoiced (pushes maxlen (ring_buffer st) (firstn (S k) xs)))
                maxlen = false) ->
     collect_votes maxlen st xs
     = (mkState true (pushes maxlen (ring_buffer st) xs)
                (voiced_frames st ++ map fst xs), [])
     /\
     (exceeds (num_unvoiced (pushes maxlen (ring_buffer st) (xs ++ [(f, v)])))
              maxlen = true ->
      collect_votes maxlen st (xs ++ [(f, v)])
      = (mkState false [] [],
         [join (voiced_frames st ++ map fst (xs ++ [(f, v)]))])))
  /\
  (0 <= maxlen <= 10000 ->
   forall c : Z, exceeds c maxlen = true <-> 9 * maxlen < 10 * c).
Proof.
  intros Ht. split; [|split; [|split]].
  - intros V is_speech sample_rate vad frames vs. apply collect_loop_votes.
  - intros f v rb. unfold collect_frame. rewrite Ht. reflexivity.
  - intros xs f v Hk. split.
    + now apply triggered_run.
    + intros Hex. rewrite collect_votes_app, collect_votes_one.
      rewrite triggered_run by assumption. simpl.
      unfold collect_frame. simpl. rewrite <- pushes_snoc.
      rewrite Hex. rewrite map_app, app_assoc. reflexivity.
  - intros Hw c. rewrite exceeds_nine_tenths by exact Hw. apply Z.ltb_lt.
Qed.

Lemma trigger_on_first_excess_witness :
  triggered initial = false
  /\ collect_votes 2 initial
       [(mkFrame [x01] f_0_0 f_0_0, true); (mkFrame [x02] f_0_0 f_0_0, true)]
     = (mkState true [] [mkFrame [x01] f_0_0 f_0_0; mkFrame [x02] f_0_0 f_0_0],
        []).
Proof.
  split; [reflexivity|].
  destruct (trigger_on_first_excess 2 initial eq_refl) as (_ & _ & H & _).
  refine (proj2 (H [(mkFrame [x01] f_0_0 f_0_0, true)]
                   (mkFrame [x02] f_0_0 f_0_0) true _) eq_refl).
  intros [|k] Hk; [reflexivity | simpl in Hk; lia].
Defined.

Lemma detrigger_on_first_excess_witness :
  triggered (mkState true [] [mkFrame [x01] f_0_0 f_0_0]) = true
  /\ collect_votes 2 (mkState true [] [mkFrame [x01] f_0_0 f_0_0])
       [(mkFrame [x02] f_0_0 f_0_0, false); (mkFrame [x03] f_0_0 f_0_0, false)]
     = (mkState false [] [], [[x01; x02; x03]]).
Proof.
  split; [reflexivity|].
  destruct (detrigger_on_first_excess 2
              (mkState true [] [mkFrame [x01] f_0_0 f_0_0]) eq_refl)
    as (_ & _ & H & _).
  refine (proj2 (H [(mkFrame [x02] f_0_0 f_0_0, false)]
                   (mkFrame [x03] f_0_0 f_0_0) false _) eq_refl).
  intros [|k] Hk; [reflexivity | simpl in Hk; lia].
Defined.

(** ** Every segment is a run of consecutive frames *)

Lemma skipn_snoc {A : Type} (a : nat) (p : list A) (x : A) :
  (a <= length p)%nat -> skipn a p ++ [x] = skipn a (p ++ [x]).
Proof.
  intros Ha. rewrite skipn_app.
  replace (a - length p)%nat with 0%nat by lia. reflexivity.
Qed.

Lemma tl_skipn {A : Type} (a : nat) (l : list A) :
  tl (skipn a l) = skipn (S a) l.
Proof.
  revert l. induction a as [|a IH]; intros [|x l]; simpl; auto.
Qed.

Lemma skipn_not_nil {A : Type} (a : nat) (l : list A) :
  skipn a l <> [] -> (a < length l)%nat.
Proof.
  intros H. destruct (Nat.lt_ge_cases a (length l)) as [Hlt|Hge]; [exact Hlt|].
  exfalso. apply H. now apply skipn_all2.
Qed.

Lemma consecutive_suffix (l : list Frame) (a : nat) :
  (a < length l)%nat -> consecutive l (join (skipn a l)).
Proof.
  intros Ha. exists a, (length l). split; [lia|].
  f_equal. symmetry. apply firstn_all2. rewrite length_skipn. lia.
Qed.

Lemma consecutive_app (p q : list Frame) (seg : bytes_t) :
  consecutive p seg -> consecutive (p ++ q) seg.
Proof.
  intros (i & j & Hij & ->). exists i, j. split.
  - rewrite length_app. lia.
  - f_equal. rewrite skipn_app, firstn_app, length_skipn.
    replace (j - i - (length p - i))%nat with 0%nat by lia.
    simpl. now rewrite app_nil_r.
Qed.

Lemma deque_append_suffix (maxlen : Z) (p : list Frame)
    (rb : list (Frame * bool)) (f : Frame) (v : bool) (a : nat) :
  (a <= length p)%nat -> map fst rb = skipn a p ->
  exists a' : nat,
    (a' <= length (p ++ [f]))%nat
    /\ map fst (deque_append maxlen rb (f, v)) = skipn a' (p ++ [f]).
Proof.
  intros Ha Hrb.
  assert (Hm : map fst (rb ++ [(f, v)]) = skipn a (p ++ [f])).
  { rewrite map_app, Hrb. simpl. now apply skipn_snoc. }
  unfold deque_append. destruct (maxlen <? len (rb ++ [(f, v)])).
  - exists (S a). split; [rewrite length_app; simpl; lia|].
    rewrite <- tl_skipn, <- Hm. now destruct (rb ++ [(f, v)]).
  - exists a. split; [rewrite length_app; simpl; lia | exact Hm].
Qed.

Lemma num_voiced_not_nil (rb : list (Frame * bool)) :
  0 < num_voiced rb -> rb <> [].
Proof. intros H ->. unfold num_voiced, len in H. simpl in H. lia. Qed.

Lemma collect_frame_inv (maxlen : Z) (p : list Frame) (st : state)
    (f : Frame) (v : bool) :
  0 <= maxlen -> state_inv p st ->
  state_inv (p ++ [f]) (fst (collect_frame maxlen st f v))
  /\ Forall (consecutive (p ++ [f])) (snd (collect_frame maxlen st f v)).
Proof.
  intros H0 [(a & Ha & Hrb) Hvf]. unfold collect_frame.
  destruct (deque_append_suffix maxlen p (ring_buffer st) f v a Ha Hrb)
    as (a' & Ha' & Hrb').
  destruct (triggered st); cbn [negb].
  - destruct Hvf as (b & Hb & Hvf).
    assert (Hvf' : voiced_frames st ++ [f] = skipn b (p ++ [f])).
    { rewrite Hvf. apply skipn_snoc. lia. }
    assert (Hb' : (b < length (p ++ [f]))%nat)
      by (rewrite length_app; simpl; lia).
    destruct (exceeds (num_unvoiced _) maxlen); cbn [fst snd].
    + split.
      * split; cbn [triggered ring_buffer voiced_frames]; [|reflexivity].
        exists (length (p ++ [f])). split; [lia|].
        now rewrite skipn_all.
      * constructor; [|constructor]. rewrite Hvf'.
        now apply consecutive_suffix.
    + split; [|constructor].
      split; cbn [triggered ring_buffer voiced_frames].
      * now exists a'.
      * now exists b.
  - destruct (exceeds (num_voiced _) maxlen) eqn:Hex; cbn [fst snd].
    + split; [|constructor].
      split; cbn [triggered ring_buffer voiced_frames].
      * exists (length (p ++ [f])). split; [lia|]. now rewrite skipn_all.
      * exists a'. rewrite Hvf. cbn [app]. split; [|exact Hrb'].
        apply skipn_not_nil. rewrite <- Hrb'.
        apply exceeds_pos in Hex; [|exact H0].
        apply num_voiced_not_nil in Hex.
        destruct (deque_append maxlen (ring_buffer st) (f, v));
          [congruence | discriminate].
    + split; [|constructor].
      split; cbn [triggered ring_buffer voiced_frames].
      * now exists a'.
      * exact Hvf.
Qed.

Lemma collect_votes_inv (maxlen : Z) (xs : list (Frame * bool)) :
  0 <= maxlen ->
  forall (p : list Frame) (st : state),
    state_inv p st ->
    state_inv (p ++ map fst xs) (fst (collect_votes maxlen st xs))
    /\ Forall (consecutive (p ++ map fst xs)) (snd (collect_votes maxlen st xs)).
Proof.
  intros H0. induction xs as [|[f v] xs IH]; intros p st Hinv; simpl.
  - rewrite app_nil_r. split; [exact Hinv | constructor].
  - destruct (collect_frame_inv maxlen p st f v H0 Hinv) as [Hst Hout].
    destruct (collect_frame maxlen st f v) as [st' out]. cbn [fst snd] in *.
    destruct (IH (p ++ [f]) st' Hst) as [Hst' Houts].
    destruct (collect_votes maxlen st' xs) as [st'' outs]. cbn [fst snd] in *.
    rewrite <- app_assoc in Hst', Houts. simpl in Hst', Houts.
    split; [exact Hst'|].
    apply Forall_app. split; [|exact Houts].
    eapply Forall_impl; [|exact Hout].
    intros seg Hseg.
    replace (p ++ f :: map fst xs) with ((p ++ [f]) ++ map fst xs)
      by (now rewrite <- app_assoc).
    now apply consecutive_app.
Qed.

Lemma initial_inv : state_inv [] initial.
Proof. split; [exists 0%nat; split; [simpl; lia | reflexivity] | reflexivity]. Qed.

Lemma flush_yields (st : state) :
  yielded (flush st)
  = match voiced_frames st with
    | [] => []
    | _ :: _ => [join (voiced_frames st)]
    end.
Proof. unfold flush. now destruct (voiced_frames st). Qed.

Lemma flush_ends (st : state) : ended (flush st) = Done.
Proof. unfold flush. now destruct (voiced_frames st). Qed.

(** ** The end of the input and failures of the classifier *)

Section Runs.

Context {V : Type}.
Variable is_speech : V -> bytes_t -> Z -> V * result bool.
Variable sample_rate : Z.

Lemma vad_collector_votes (fd pd maxlen : Z) (vad : V) (frames : list Frame) :
  num_padding_frames fd pd = Ok maxlen ->
  vad_collector is_speech sample_rate fd pd vad frames
  = yield_all
      (snd (collect_votes maxlen initial
              (fst (votes is_speech sample_rate vad frames))))
      (match snd (votes is_speech sample_rate vad frames) with
       | Some e => mkTrace [] (Raised e)
       | None =>
           flush (fst (collect_votes maxlen initial
                         (fst (votes is_speech sample_rate vad frames))))
       end).
Proof.
  intros Hw. unfold vad_collector. rewrite Hw. apply collect_loop_votes.
Qed.

Lemma final_state_inv (maxlen : Z) (vad : V) (frames : list Frame) :
  0 <= maxlen ->
  state_inv (map fst (fst (votes is_speech sample_rate vad frames)))
    (fst (collect_votes maxlen initial
            (fst (votes is_speech sample_rate vad frames)))).
Proof.
  intros H0.
  apply (collect_votes_inv maxlen _ H0 [] initial initial_inv).
Qed.

End Runs.

(** C4. When the frames are exhausted the collector yields the joined
    segment list as a last buffer exactly when that list is not empty; the
    state is not looked at. A segment that is still open (the collector is
    TRIGGERED) at the end of the input is therefore yielded, once, after
    the segments that were closed before; and no frames give no segments
    and no error. *)
Theorem flush_at_end_of_input {V : Type}
    (is_speech : V -> bytes_t -> Z -> V * result bool)
    (sample_rate fd pd maxlen : Z) (vad : V) (frames : list Frame) :
  num_padding_frames fd pd = Ok maxlen ->
  snd (votes is_speech sample_rate vad frames) = None ->
  let run := collect_votes maxlen initial
               (fst (votes is_speech sample_rate vad frames)) in
  let out := vad_collector is_speech sample_rate fd pd vad frames in
  ended out = Done
  /\ yielded out
     = snd run ++ match voiced_frames (fst run) with
                  | [] => []
                  | _ :: _ => [join (voiced_frames (fst run))]
                  end
  /\ (triggered (fst run) = true ->
      voiced_frames (fst run) <> []
      /\ yielded out = snd run ++ [join (voiced_frames (fst run))])
  /\ (triggered (fst run) = false -> yielded out = snd run)
  /\ vad_collector is_speech sample_rate fd pd vad [] = mkTrace [] Done.
Proof.
  intros Hw Hv run out.
  assert (Hout : out = yield_all (snd run) (flush (fst run))).
  { unfold out. rewrite (vad_collector_votes _ _ _ _ _ _ _ Hw), Hv.
    reflexivity. }
  assert (Hy : yielded out
               = snd run ++ match voiced_frames (fst run) with
                            | [] => []
                            | _ :: _ => [join (voiced_frames (fst run))]
                            end).
  { rewrite Hout. unfold yield_all. cbn [yielded].
    now rewrite flush_yields. }
  pose proof (final_state_inv is_speech sample_rate maxlen vad frames
                (proj1 (num_padding_frames_range _ _ _ Hw))) as [_ Hinv].
  fold run in Hinv.
  split; [|split; [|split; [|split]]].
  - rewrite Hout. unfold yield_all. cbn [ended]. apply flush_ends.
  - exact Hy.
  - intros Ht. rewrite Ht in Hinv. destruct Hinv as (a & Ha & Hvf).
    assert (Hne : voiced_frames (fst run) <> []).
    { rewrite Hvf. intros Hnil.
      apply (f_equal (@length Frame)) in Hnil.
      rewrite length_skipn in Hnil. simpl in Hnil. lia. }
    split; [exact Hne|]. rewrite Hy.
    destruct (voiced_frames (fst run)); [congruence | reflexivity].
  - intros Ht. rewrite Ht in Hinv. rewrite Hy, Hinv. apply app_nil_r.
  - unfold vad_collector. rewrite Hw. reflexivity.
Qed.

Lemma flush_at_end_of_input_witness :
  num_padding_frames 30 30 = Ok 1
  /\ yielded (vad_collector scripted 16000 30 30 [Ok true]
                [mkFrame [x01; x02] f_0_0 f_0_0])
     = [[x01; x02]].
Proof.
  split; [reflexivity|].
  pose proof (flush_at_end_of_input scripted 16000 30 30 1 [Ok true]
                [mkFrame [x01; x02] f_0_0 f_0_0] eq_refl eq_refl)
    as (_ & _ & H & _).
  exact (proj2 (H eq_refl)).
Defined.

(** C8. When the classifier raises on a frame, the collector ends with
    that error: what it has yielded is what the frames before that one made
    it yield, and nothing follows, the buffer of the end of the input
    included. *)
Theorem classifier_error_propagates {V : Type}
    (is_speech : V -> bytes_t -> Z -> V * result bool)
    (sample_rate fd pd maxlen : Z) (vad : V)
    (pre post : list Frame) (f : Frame) (e : exn) :
  num_padding_frames fd pd = Ok maxlen ->
  snd (votes is_speech sample_rate vad pre) = None ->
  snd (is_speech (vad_after is_speech sample_rate vad pre) (bytes f)
         sample_rate) = Raise e ->
  let run := collect_votes maxlen initial
               (fst (votes is_speech sample_rate vad pre)) in
  vad_collector is_speech sample_rate fd pd vad (pre ++ f :: post)
  = mkTrace (snd run) (Raised e)
  /\ yielded (vad_collector is_speech sample_rate fd pd vad pre)
     = snd run ++ yielded (flush (fst run)).
Proof.
  intros Hw Hpre Hf run. split.
  - rewrite (vad_collector_votes _ _ _ _ _ _ _ Hw).
    rewrite (votes_raise is_speech sample_rate pre post f e vad Hpre Hf).
    cbn [fst snd]. unfold yield_all. cbn [yielded ended].
    now rewrite app_nil_r.
  - rewrite (vad_collector_votes _ _ _ _ _ _ _ Hw), Hpre. reflexivity.
Qed.

Lemma classifier_error_propagates_witness :
  num_padding_frames 30 30 = Ok 1
  /\ vad_collector scripted 16000 30 30
       [Ok true; Ok false; Raise ClassifierError; Ok true]
       [mkFrame [x01] f_0_0 f_0_0; mkFrame [x02] f_0_0 f_0_0;
        mkFrame [x03] f_0_0 f_0_0; mkFrame [x04] f_0_0 f_0_0]
     = mkTrace [[x01; x02]] (Raised ClassifierError).
Proof.
  split; [reflexivity|].
  exact (proj1 (classifier_error_propagates scripted 16000 30 30 1
                  [Ok true; Ok false; Raise ClassifierError; Ok true]
                  [mkFrame [x01] f_0_0 f_0_0; mkFrame [x02] f_0_0 f_0_0]
                  [mkFrame [x04] f_0_0 f_0_0] (mkFrame [x03] f_0_0 f_0_0)
                  ClassifierError eq_refl eq_refl eq_refl)).
Defined.

(** C9. The collector keeps no state between runs and is a function of its
    arguments: two runs on the same frames whose classifiers give the same
    votes, whatever the classifiers are, yield the same buffers and end the
    same way. *)
Theorem replay_same_votes {V1 V2 : Type}
    (is_speech1 : V1 -> bytes_t -> Z -> V1 * result bool)
    (is_speech2 : V2 -> bytes_t -> Z -> V2 * result bool)
    (sample_rate1 sample_rate2 fd pd : Z) (vad1 : V1) (vad2 : V2)
    (frames : list Frame) :
  votes is_speech1 sample_rate1 vad1 frames
  = votes is_speech2 sample_rate2 vad2 frames ->
  vad_collector is_speech1 sample_rate1 fd pd vad1 frames
  = vad_collector is_speech2 sample_rate2 fd pd vad2 frames.
Proof.
  intros Hv. unfold vad_collector.
  destruct (num_padding_frames fd pd) as [maxlen|e]; [|reflexivity].
  now rewrite !collect_loop_votes, Hv.
Qed.

Lemma replay_same_votes_witness :
  vad_collector scripted 16000 30 30 [Ok true; Ok false]
    [mkFrame [x01] f_0_0 f_0_0; mkFrame [x02] f_0_0 f_0_0]
  = vad_collector
      (stateless (fun b _ => Ok (match b with [x01] => true | _ => false end)))
      16000 30 30 tt
      [mkFrame [x01] f_0_0 f_0_0; mkFrame [x02] f_0_0 f_0_0].
Proof.
  apply replay_same_votes. reflexivity.
Defined.

(** ** The scenario of 25 frames *)

Ltac list_of_length H :=
  repeat match type of H with
         | length ?l = _ => destruct l; cbn [length] in H; try discriminate H
         | S _ = S _ => apply Nat.succ_inj in H
         end.

(** C6. With a sample rate of 16000 Hz, frames of 30 ms (960 bytes) and a
    padding of 300 ms (a ring buffer of 10), on 25 frames voted 5 unvoiced,
    15 voiced, 5 unvoiced: the collector is NOT_TRIGGERED until the frame
    of index 14 and becomes TRIGGERED on it; the 5 unvoiced votes at the end
    do not exceed the threshold, so the input ends before the collector
    leaves TRIGGERED, and the one segment of the run, the frames of index
    5 to 24, is yielded at the end of the input. *)
Theorem scenario_of_25_frames (frames : list Frame) :
  length frames = 25%nat ->
  let script := repeat (Ok false) 5 ++ repeat (Ok true) 15
                ++ repeat (Ok false) 5 in
  let run := fun k : nat =>
    collect_votes 10 initial
      (firstn k (fst (votes scripted 16000 script frames))) in
  frame_size 30 16000 = Ok 960
  /\ num_padding_frames 30 300 = Ok 10
  /\ fst (votes scripted 16000 script frames)
     = combine frames
         (repeat false 5 ++ repeat true 15 ++ repeat false 5)
  /\ (forall k : nat, (k <= 14)%nat -> triggered (fst (run k)) = false)
  /\ (forall k : nat, (15 <= k <= 25)%nat -> triggered (fst (run k)) = true)
  /\ snd (run 25%nat) = []
  /\ vad_collector scripted 16000 30 300 script frames
     = mkTrace [join (skipn 5 frames)] Done.
Proof.
  intros Hlen script run.
  list_of_length Hlen.
  split; [reflexivity|]. split; [reflexivity|]. split; [reflexivity|].
  split; [|split; [|split]].
  - intros k Hk.
    do 15 (destruct k as [|k]; [reflexivity|]). lia.
  - intros k Hk.
    do 15 (destruct k as [|k]; [lia|]).
    do 11 (destruct k as [|k]; [reflexivity|]). lia.
  - reflexivity.
  - reflexivity.
Qed.

Lemma scenario_of_25_frames_witness :
  length (yielded (frame_generator 26 30 silence 16000)) = 25%nat
  /\ yielded
       (vad_collector scripted 16000 30 300
          (repeat (Ok false) 5 ++ repeat (Ok true) 15 ++ repeat (Ok false) 5)
          (yielded (frame_generator 26 30 silence 16000)))
     = [repeat x00 (Z.to_nat 19200)].
Proof.
  assert (H : length (yielded (frame_generator 26 30 silence 16000)) = 25%nat)
    by (vm_compute; reflexivity).
  split; [exact H|].
  destruct (scenario_of_25_frames _ H) as (_ & _ & _ & _ & _ & _ & Hv).
  rewrite Hv. vm_compute. reflexivity.
Defined.

(** ** Segments are runs of consecutive frames *)

Lemma frame_loop_skipn (i : nat) :
  forall (fuel : nat) (n : Z) (d : float) (audio : bytes_t) (off : Z)
         (ts : float),
    (i <= length (yielded (frame_loop fuel n d audio off ts)))%nat ->
    skipn i (yielded (frame_loop fuel n d audio off ts))
    = yielded (frame_loop (fuel - i) n d audio (off + Z.of_nat i * n)
                          (advance ts d i)).
Proof.
  induction i as [|i IH]; intros fuel n d audio off ts Hi.
  - cbn [skipn advance]. rewrite Nat.sub_0_r.
    now replace (off + Z.of_nat 0 * n) with off by lia.
  - destruct fuel as [|fuel]; [cbn in Hi; lia|].
    cbn [frame_loop] in *.
    destruct (off + n <? len audio); [|cbn in Hi; lia].
    unfold yield in *. cbn [yielded skipn length advance] in *.
    rewrite IH by lia. cbn [Nat.sub].
    now replace (off + n + Z.of_nat i * n) with (off + Z.of_nat (S i) * n)
      by lia.
Qed.

Lemma frame_loop_firstn_concat (m : nat) :
  forall (fuel : nat) (n : Z) (d : float) (audio : bytes_t) (off : Z)
         (ts : float),
    0 <= n -> 0 <= off ->
    (m <= length (yielded (frame_loop fuel n d audio off ts)))%nat ->
    concat (map bytes (firstn m (yielded (frame_loop fuel n d audio off ts))))
    = firstn (Z.to_nat (n * Z.of_nat m)) (skipn (Z.to_nat off) audio)
    /\ off + Z.of_nat m * n < len audio + (if Nat.eqb m 0 then 1 + off else 0).
Proof.
  induction m as [|m IH]; intros fuel n d audio off ts Hn Hoff Hm.
  - cbn [firstn map concat Nat.eqb]. rewrite Z.mul_0_r. cbn [Z.to_nat firstn].
    split; [reflexivity|]. pose proof (len_nonneg audio). lia.
  - destruct fuel as [|fuel]; [cbn in Hm; lia|].
    cbn [frame_loop] in *.
    destruct (off + n <? len audio) eqn:E; [|cbn in Hm; lia].
    apply Z.ltb_lt in E.
    unfold yield in *. cbn [yielded firstn map concat bytes length Nat.eqb] in *.
    destruct (IH fuel n d audio (off + n) (fadd ts d) Hn ltac:(lia) ltac:(lia))
      as [Hc Hb].
    rewrite Hc. rewrite slice_in_range by lia. split.
    + replace (Z.to_nat (n * Z.of_nat (S m)))
        with (Z.to_nat n + Z.to_nat (n * Z.of_nat m))%nat by nia.
      rewrite firstn_plus, skipn_skipn_add.
      do 3 f_equal. lia.
    + destruct m as [|m]; cbn [Nat.eqb] in Hb; lia.
Qed.

Lemma framer_run_is_slice (fuel : nat) (n : Z) (d : float) (audio : bytes_t)
    (seg : bytes_t) :
  1 <= n ->
  consecutive (yielded (frame_loop fuel n d audio 0 f_0_0)) seg ->
  exists i j : Z,
    0 <= i < j /\ j * n < len audio
    /\ seg = slice audio (i * n) (j * n)
    /\ len seg = (j - i) * n.
Proof.
  intros Hn (i & j & Hij & ->).
  unfold join. rewrite frame_loop_skipn by lia.
  match goal with
  | |- context [firstn _ (yielded (frame_loop ?fl _ _ _ ?o ?t))] =>
      destruct (frame_loop_firstn_concat (j - i) fl n d audio o t)
        as [Hc Hb]
  end.
  - lia.
  - lia.
  - rewrite <- frame_loop_skipn by lia.
    rewrite length_skipn. lia.
  - destruct (Nat.eqb (j - i) 0) eqn:E; [apply Nat.eqb_eq in E; lia|].
    exists (Z.of_nat i), (Z.of_nat j).
    assert (Hs : slice audio (Z.of_nat i * n) (Z.of_nat j * n)
                 = firstn (Z.to_nat (n * Z.of_nat (j - i)))
                     (skipn (Z.to_nat (0 + Z.of_nat i * n)) audio)).
    { replace (Z.of_nat j * n)
        with (Z.of_nat i * n + n * Z.of_nat (j - i)) by nia.
      rewrite slice_in_range by nia. reflexivity. }
    split; [lia|]. split; [nia|]. split.
    + rewrite Hc. now rewrite Hs.
    + rewrite Hc. unfold len in *. rewrite length_firstn, length_skipn. nia.
Qed.

Lemma consecutive_firstn (frames : list Frame) (k : nat) (seg : bytes_t) :
  consecutive (firstn k frames) seg -> consecutive frames seg.
Proof.
  intros H. rewrite <- (firstn_skipn k frames). now apply consecutive_app.
Qed.

Lemma consecutive_not_empty (frames : list Frame) (seg : bytes_t) :
  Forall (fun f => bytes f <> []) frames ->
  consecutive frames seg -> seg <> [].
Proof.
  intros Hall (i & j & Hij & ->).
  assert (Hsub : Forall (fun f => bytes f <> [])
                   (firstn (j - i) (skipn i frames))).
  { apply Forall_forall. intros f Hin.
    rewrite Forall_forall in Hall. apply Hall.
    rewrite <- (firstn_skipn i frames). apply in_or_app. right.
    rewrite <- (firstn_skipn (j - i) (skipn i frames)).
    apply in_or_app. now left. }
  assert (Hlen : length (firstn (j - i) (skipn i frames)) = (j - i)%nat).
  { rewrite length_firstn, length_skipn. lia. }
  destruct (firstn (j - i) (skipn i frames)) as [|f fs].
  - simpl in Hlen. lia.
  - inversion Hsub as [|? ? Hf _]; subst. unfold join. simpl.
    destruct (bytes f); [congruence | discriminate].
Qed.

Section Segments.

Context {V : Type}.
Variable is_speech : V -> bytes_t -> Z -> V * result bool.
Variable sample_rate : Z.

Lemma vad_collector_consecutive (fd pd maxlen : Z) (vad : V)
    (frames : list Frame) :
  num_padding_frames fd pd = Ok maxlen ->
  Forall (consecutive frames)
         (yielded (vad_collector is_speech sample_rate fd pd vad frames)).
Proof.
  intros Hw.
  rewrite (vad_collector_votes is_speech sample_rate fd pd maxlen vad frames Hw).
  pose proof (proj1 (num_padding_frames_range _ _ _ Hw)) as H0.
  destruct (collect_votes_inv maxlen
              (fst (votes is_speech sample_rate vad frames)) H0 []
              initial initial_inv) as [[_ Hvf] Houts].
  cbn [app] in Hvf, Houts.
  rewrite votes_frames in Hvf, Houts.
  set (run := collect_votes maxlen initial
                (fst (votes is_speech sample_rate vad frames))) in *.
  set (k := length (fst (votes is_speech sample_rate vad frames))) in *.
  unfold yield_all. cbn [yielded].
  apply Forall_app. split.
  - eapply Forall_impl; [|exact Houts].
    intros seg. apply consecutive_firstn.
  - destruct (snd (votes is_speech sample_rate vad frames)); [constructor|].
    rewrite flush_yields.
    destruct (voiced_frames (fst run)) eqn:Ev; [constructor|].
    constructor; [|constructor].
    destruct (triggered (fst run)); [|discriminate].
    destruct Hvf as (a & Ha & Hvf). rewrite Hvf.
    apply (consecutive_firstn frames k). now apply consecutive_suffix.
Qed.

End Segments.

(** C10, as the code has it. With a ring buffer made by the constructor
    (a capacity of 0 or more), every buffer the collector yields is the
    bytes, joined in order, of a run of one or more consecutive frames of
    the input: no frame is left out or taken twice. The buffer is not empty
    when the frames have bytes; and when the frames are those of the framer
    with a frame size [n] of 1 or more, the buffer is the slice of the
    audio from [i * n] to [j * n], for some [i < j], of length
    [(j - i) * n]. *)
Theorem segments_are_runs_of_frames {V : Type}
    (is_speech : V -> bytes_t -> Z -> V * result bool)
    (sample_rate fd pd maxlen : Z) (vad : V) (frames : list Frame) :
  num_padding_frames fd pd = Ok maxlen ->
  let out := yielded (vad_collector is_speech sample_rate fd pd vad frames) in
  Forall (consecutive frames) out
  /\ (Forall (fun f => bytes f <> []) frames ->
      Forall (fun seg => seg <> []) out)
  /\ (forall (fuel : nat) (fd' sr' n : Z) (d : float) (audio : bytes_t),
        frame_size fd' sr' = Ok n -> frame_duration n sr' = Ok d -> 1 <= n ->
        frames = yielded (frame_generator fuel fd' audio sr') ->
        Forall (fun seg =>
                  exists i j : Z,
                    0 <= i < j /\ j * n < len audio
                    /\ seg = slice audio (i * n) (j * n)
                    /\ len seg = (j - i) * n) out).
Proof.
  intros Hw out.
  pose proof (vad_collector_consecutive is_speech sample_rate fd pd maxlen
                vad frames Hw) as Hc.
  fold out in Hc.
  split; [exact Hc|]. split.
  - intros Hall. eapply Forall_impl; [|exact Hc].
    intros seg. now apply consecutive_not_empty.
  - intros fuel fd' sr' n d audio Hsize Hdur Hn Hframes.
    unfold frame_generator in Hframes. rewrite Hsize, Hdur in Hframes.
    eapply Forall_impl; [|exact Hc].
    intros seg Hseg. rewrite Hframes in Hseg.
    now apply (framer_run_is_slice fuel n d audio seg Hn).
Qed.

Lemma segments_are_runs_of_frames_witness :
  num_padding_frames 30 30 = Ok 1
  /\ Forall (fun seg : bytes_t => seg <> [])
       (yielded
          (vad_collector scripted 1000 30 30 [Ok true; Ok true; Ok false]
             (yielded
                (frame_generator 8 1 [x01; x02; x03; x04; x05; x06; x07]
                   1000)))).
Proof.
  split; [reflexivity|].
  refine (proj1 (proj2 (segments_are_runs_of_frames scripted 1000 30 30 1
                          _ _ eq_refl)) _).
  vm_compute. repeat constructor; discriminate.
Defined.

(** C10, as it was stated, fails: the collector does not look at the bytes
    of a frame, and a segment made of frames without bytes is an empty
    buffer. *)
Lemma empty_segment_of_empty_frames :
  num_padding_frames 30 30 = Ok 1
  /\ ~ Forall (fun seg : bytes_t => seg <> [])
         (yielded
            (vad_collector (stateless (fun _ _ => Ok true)) 16000 30 30 tt
               [mkFrame [] f_0_0 f_0_0])).
Proof.
  split; [reflexivity|].
  intros H. vm_compute in H.
  inversion H as [|seg segs Hseg _]; subst.
  now apply Hseg.
Qed.

(** ** More on the threshold *)

Lemma int_gt_float_mono (c c' : Z) (f : float) :
  c <= c' -> int_gt_float c f = true -> int_gt_float c' f = true.
Proof.
  intros Hc. destruct f as [s|s| |s m e]; cbn [int_gt_float]; auto.
  - rewrite !Z.ltb_lt. lia.
  - destruct (0 <=? e) eqn:He; rewrite !Z.ltb_lt; [lia|].
    apply Z.leb_gt in He.
    assert (0 < 2 ^ (- e)) by (apply Z.pow_pos_nonneg; lia).
    intros H1. apply Z.lt_le_trans with (c * 2 ^ (- e)); [exact H1|].
    apply Z.mul_le_mono_nonneg_r; lia.
Qed.

Lemma exceeds_mono (c c' maxlen : Z) :
  c <= c' -> exceeds c maxlen = true -> exceeds c' maxlen = true.
Proof. unfold exceeds. apply int_gt_float_mono. Qed.

Lemma exceeds_none (c maxlen : Z) :
  0 <= maxlen -> c <= 0 -> exceeds c maxlen = false.
Proof.
  intros Hm Hc. destruct (exceeds c maxlen) eqn:E; [|reflexivity].
  apply exceeds_pos in E; [lia | exact Hm].
Qed.

Lemma num_voiced_nonneg (rb : list (Frame * bool)) : 0 <= num_voiced rb.
Proof. unfold num_voiced. apply len_nonneg. Qed.

Lemma num_unvoiced_nonneg (rb : list (Frame * bool)) : 0 <= num_unvoiced rb.
Proof. unfold num_unvoiced. apply len_nonneg. Qed.

Lemma filter_tl_le {A : Type} (g : A -> bool) (l : list A) :
  (length (filter g (tl l)) <= length (filter g l))%nat.
Proof.
  destruct l as [|x l]; [apply Nat.le_refl|].
  cbn [tl filter]. destruct (g x); cbn [length]; lia.
Qed.

(** Appending a pair that the filter rejects does not raise the count. *)
Lemma filter_deque_append {A : Type} (g : A -> bool) (maxlen : Z)
    (d : list A) (x : A) :
  g x = false ->
  (length (filter g (deque_append maxlen d x)) <= length (filter g d))%nat.
Proof.
  intros Hx. unfold deque_append.
  assert (Hs : length (filter g (d ++ [x])) = length (filter g d)).
  { rewrite filter_app. cbn [filter]. rewrite Hx, app_nil_r. reflexivity. }
  destruct (maxlen <? len (d ++ [x])).
  - rewrite <- Hs. apply filter_tl_le.
  - now rewrite Hs.
Qed.

Lemma num_voiced_append_unvoiced (maxlen : Z) (rb : list (Frame * bool))
    (f : Frame) :
  num_voiced (deque_append maxlen rb (f, false)) <= num_voiced rb.
Proof.
  unfold num_voiced, len.
  pose proof (filter_deque_append (fun p : Frame * bool => snd p) maxlen rb
                (f, false) eq_refl). lia.
Qed.

Lemma num_unvoiced_append_voiced (maxlen : Z) (rb : list (Frame * bool))
    (f : Frame) :
  num_unvoiced (deque_append maxlen rb (f, true)) <= num_unvoiced rb.
Proof.
  unfold num_unvoiced, len.
  pose proof (filter_deque_append (fun p : Frame * bool => negb (snd p))
                maxlen rb (f, true) eq_refl). lia.
Qed.

(** ** What the loop keeps true of its state *)

Lemma deque_append_shape {A : Type} (maxlen : Z) (d : list A) (x : A) :
  deque_append maxlen d x = []
  \/ exists d' : list A, deque_append maxlen d x = d' ++ [x].
Proof.
  unfold deque_append. destruct (maxlen <? len (d ++ [x])).
  - destruct d as [|y d]; [now left|]. right. now exists d.
  - right. now exists d.
Qed.

Lemma deque_append_drop {A : Type} (maxlen : Z) (d : list A) (x : A) :
  exists l : list A, d ++ [x] = l ++ deque_append maxlen d x.
Proof.
  unfold deque_append. destruct (maxlen <? len (d ++ [x])).
  - destruct (d ++ [x]) as [|y l] eqn:E.
    + now exists [].
    + now exists [y].
  - now exists [].
Qed.

Lemma initial_well_formed (maxlen : Z) :
  0 <= maxlen -> well_formed maxlen initial.
Proof.
  intros H0. split; [exact H0|]. cbn [triggered initial ring_buffer].
  split; [|reflexivity]. now apply exceeds_none.
Qed.

Lemma collect_frame_well_formed (maxlen : Z) (st : state) (f : Frame)
    (v : bool) :
  0 <= maxlen -> well_formed maxlen st ->
  well_formed maxlen (fst (collect_frame maxlen st f v)).
Proof.
  intros H0 [Hlen Hst]. unfold collect_frame.
  pose proof (deque_append_len maxlen (ring_buffer st) (f, v) H0 Hlen) as Hl.
  assert (Hz : exceeds 0 maxlen = false) by (now apply exceeds_none).
  destruct (triggered st); cbn [negb].
  - destruct Hst as (Hq & Hne & pre & Hpre).
    destruct (exceeds (num_unvoiced (deque_append maxlen (ring_buffer st)
                                         (f, v))) maxlen) eqn:E; cbn [fst].
    + split; [exact H0|]. cbn [triggered ring_buffer voiced_frames].
      split; [exact Hz | reflexivity].
    + split; [exact Hl|]. cbn [triggered ring_buffer voiced_frames].
      split; [exact E|]. split.
      * now destruct (voiced_frames st).
      * destruct (deque_append_drop maxlen (ring_buffer st) (f, v))
          as [l Hl'].
        exists (pre ++ map fst l).
        rewrite Hpre, <- !app_assoc. f_equal.
        change [f] with (map fst [(f, v)]).
        rewrite <- !map_app. now rewrite Hl'.
  - destruct Hst as (Hq & Hnil).
    destruct (exceeds (num_voiced (deque_append maxlen (ring_buffer st)
                                       (f, v))) maxlen) eqn:E; cbn [fst].
    + split; [exact H0|]. cbn [triggered ring_buffer voiced_frames].
      split; [exact Hz|]. rewrite Hnil. cbn [app]. split.
      * apply exceeds_pos in E; [|exact H0].
        apply num_voiced_not_nil in E.
        destruct (deque_append maxlen (ring_buffer st) (f, v));
          [congruence | discriminate].
      * exists (map fst (deque_append maxlen (ring_buffer st) (f, v))).
        now rewrite app_nil_r.
    + split; [exact Hl|]. cbn [triggered ring_buffer voiced_frames].
      split; [exact E | exact Hnil].
Qed.

Lemma collect_votes_well_formed (maxlen : Z) (xs : list (Frame * bool)) :
  0 <= maxlen ->
  forall st : state,
    well_formed maxlen st ->
    well_formed maxlen (fst (collect_votes maxlen st xs)).
Proof.
  intros H0. induction xs as [|[f v] xs IH]; intros st Hst; [exact Hst|].
  cbn [collect_votes].
  pose proof (collect_frame_well_formed maxlen st f v H0 Hst) as H1.
  destruct (collect_frame maxlen st f v) as [st' out]. cbn [fst] in H1.
  specialize (IH st' H1).
  destruct (collect_votes maxlen st' xs) as [st'' outs]. exact IH.
Qed.

(** X2. In every state the loop reaches, the ring buffer holds at most
    [maxlen] pairs; in NOT_TRIGGERED the segment list is empty, so that at
    most [maxlen] frames are held; in TRIGGERED the segment list is not
    empty and the frames of the ring buffer are its last frames. *)
Theorem state_of_the_loop (maxlen : Z) (xs : list (Frame * bool)) :
  0 <= maxlen ->
  let st := fst (collect_votes maxlen initial xs) in
  len (ring_buffer st) <= maxlen
  /\ (triggered st = false -> voiced_frames st = [])
  /\ (triggered st = true ->
      voiced_frames st <> []
      /\ exists pre : list Frame,
           voiced_frames st = pre ++ map fst (ring_buffer st)).
Proof.
  intros H0 st.
  pose proof (collect_votes_well_formed maxlen xs H0 initial
                (initial_well_formed maxlen H0)) as [Hlen Hst].
  fold st in Hlen, Hst. split; [exact Hlen|]. split.
  - intros Ht. rewrite Ht in Hst. apply Hst.
  - intros Ht. rewrite Ht in Hst. destruct Hst as (_ & Hne & Hpre).
    now split.
Qed.

Lemma state_of_the_loop_witness :
  0 <= 2
  /\ len (ring_buffer
            (fst (collect_votes 2 initial
                    [(mkFrame [x01] f_0_0 f_0_0, true);
                     (mkFrame [x02] f_0_0 f_0_0, true);
                     (mkFrame [x03] f_0_0 f_0_0, true)]))) <= 2.
Proof.
  split; [lia|].
  exact (proj1 (state_of_the_loop 2
                  [(mkFrame [x01] f_0_0 f_0_0, true);
                   (mkFrame [x02] f_0_0 f_0_0, true);
                   (mkFrame [x03] f_0_0 f_0_0, true)] ltac:(lia))).
Defined.

(** X3. The collector becomes TRIGGERED only on a frame voted voiced, and
    then the segment starts with at most [maxlen] frames, the last of them
    that frame; it yields a segment in the loop only on a frame voted
    unvoiced, in TRIGGERED. *)
Theorem transitions_follow_the_vote (maxlen : Z) (xs : list (Frame * bool))
    (f : Frame) (v : bool) :
  0 <= maxlen ->
  let st := fst (collect_votes maxlen initial xs) in
  let st' := fst (collect_frame maxlen st f v) in
  (triggered st = false -> triggered st' = true ->
   v = true
   /\ len (voiced_frames st') <= maxlen
   /\ exists pre : list Frame, voiced_frames st' = pre ++ [f])
  /\ (snd (collect_frame maxlen st f v) <> [] ->
      v = false /\ triggered st = true /\ triggered st' = false).
Proof.
  intros H0 st st'.
  pose proof (collect_votes_well_formed maxlen xs H0 initial
                (initial_well_formed maxlen H0)) as [Hlen Hst].
  fold st in Hlen, Hst. unfold st'. unfold collect_frame. split.
  - intros Ht. rewrite Ht in *. cbn [negb]. destruct Hst as [Hq Hnil].
    pose proof (deque_append_len maxlen (ring_buffer st) (f, v) H0 Hlen) as Hl.
    destruct (exceeds (num_voiced (deque_append maxlen (ring_buffer st)
                                       (f, v))) maxlen) eqn:E; cbn [fst triggered];
      [|discriminate].
    intros _. cbn [voiced_frames]. rewrite Hnil. cbn [app]. split; [|split].
    + destruct v; [reflexivity|exfalso].
      pose proof (num_voiced_append_unvoiced maxlen (ring_buffer st) f) as Hle.
      destruct (exceeds (num_voiced (ring_buffer st)) maxlen) eqn:E';
        [discriminate|].
      rewrite (exceeds_mono _ _ _ Hle E) in E'. discriminate.
    + unfold len in *. now rewrite length_map.
    + destruct (deque_append_shape maxlen (ring_buffer st) (f, v))
        as [Hnone | [d' Hd']].
      * rewrite Hnone in E. cbn in E.
        rewrite (exceeds_none 0 maxlen H0 ltac:(lia)) in E. discriminate.
      * rewrite Hd'. exists (map fst d'). now rewrite map_app.
  - destruct (triggered st) eqn:Ht; cbn [negb].
    + destruct Hst as (Hq & _).
      destruct (exceeds (num_unvoiced (deque_append maxlen (ring_buffer st)
                                         (f, v))) maxlen) eqn:E; cbn [fst snd triggered];
        [|intros H; now elim H].
      intros _. split; [|split; reflexivity].
      destruct v; [exfalso|reflexivity].
      pose proof (num_unvoiced_append_voiced maxlen (ring_buffer st) f) as Hle.
      rewrite (exceeds_mono _ _ _ Hle E) in Hq. discriminate.
    + destruct (exceeds (num_voiced (deque_append maxlen (ring_buffer st)
                                       (f, v))) maxlen);
        cbn [snd]; intros H; now elim H.
Qed.

Lemma transitions_follow_the_vote_witness :
  0 <= 1
  /\ exists pre : list Frame,
       voiced_frames
         (fst (collect_frame 1 (fst (collect_votes 1 initial []))
                 (mkFrame [x01] f_0_0 f_0_0) true))
       = pre ++ [mkFrame [x01] f_0_0 f_0_0].
Proof.
  split; [lia|].
  exact (proj2 (proj2 (proj1 (transitions_follow_the_vote 1 []
                                (mkFrame [x01] f_0_0 f_0_0) true ltac:(lia))
                         eq_refl eq_refl))).
Defined.

(** ** The segments, as runs of frames *)

Lemma ordered_weaken (rs : list (nat * nat)) :
  forall lo hi hi' : nat,
    ordered lo rs hi -> (hi <= hi')%nat -> ordered lo rs hi'.
Proof.
  induction rs as [|[i j] rs IH]; intros lo hi hi' H Hle; cbn [ordered] in *.
  - lia.
  - destruct H as [Hij H]. split; [exact Hij|]. now apply (IH j hi hi').
Qed.

Lemma ordered_snoc (rs : list (nat * nat)) (i j : nat) :
  forall lo hi : nat,
    ordered lo rs hi -> (hi <= i < j)%nat -> ordered lo (rs ++ [(i, j)]) j.
Proof.
  induction rs as [|[a b] rs IH]; intros lo hi H Hij; cbn [ordered app] in *.
  - split; [lia|]. lia.
  - destruct H as [Hab H]. split; [exact Hab|]. now apply (IH b hi).
Qed.

Lemma ordered_bounds (rs : list (nat * nat)) :
  forall lo hi : nat,
    ordered lo rs hi ->
    (lo <= hi)%nat
    /\ Forall (fun r => (lo <= fst r < snd r)%nat /\ (snd r <= hi)%nat) rs.
Proof.
  induction rs as [|[i j] rs IH]; intros lo hi H; cbn [ordered] in *.
  - split; [exact H | constructor].
  - destruct H as [Hij H]. destruct (IH j hi H) as [Hle Hall].
    split; [lia|]. constructor.
    + cbn [fst snd]. lia.
    + eapply Forall_impl; [|exact Hall]. cbn beta. intros r. lia.
Qed.

Lemma run_bytes_app (p q : list Frame) (r : nat * nat) :
  (snd r <= length p)%nat -> run_bytes (p ++ q) r = run_bytes p r.
Proof.
  intros Hr. unfold run_bytes. f_equal.
  rewrite skipn_app, firstn_app, length_skipn.
  replace (snd r - fst r - (length p - fst r))%nat with 0%nat by lia.
  cbn [firstn]. now rewrite app_nil_r.
Qed.

Lemma run_bytes_suffix (p : list Frame) (b : nat) :
  run_bytes p (b, length p) = join (skipn b p).
Proof.
  unfold run_bytes. cbn [fst snd]. f_equal.
  apply firstn_all2. rewrite length_skipn. lia.
Qed.

Lemma map_run_bytes_app (p q : list Frame) (rs : list (nat * nat)) (lo hi : nat) :
  ordered lo rs hi -> (hi <= length p)%nat ->
  map (run_bytes (p ++ q)) rs = map (run_bytes p) rs.
Proof.
  intros Ho Hhi. apply map_ext_in. intros r Hin.
  destruct (ordered_bounds rs lo hi Ho) as [_ Hall].
  rewrite Forall_forall in Hall. specialize (Hall r Hin).
  apply run_bytes_app. lia.
Qed.

Lemma closed_run_long (maxlen : Z) (r : nat * nat) :
  closed_run maxlen r -> long_run maxlen r.
Proof.
  intros (t & Ht & H1 & _). unfold long_run.
  apply (exceeds_mono (Z.of_nat (t - fst r))); [lia | exact H1].
Qed.

Lemma num_voiced_le_len (rb : list (Frame * bool)) : num_voiced rb <= len rb.
Proof.
  pose proof (num_voiced_unvoiced rb). pose proof (num_unvoiced_nonneg rb). lia.
Qed.

Lemma num_unvoiced_le_len (rb : list (Frame * bool)) :
  num_unvoiced rb <= len rb.
Proof.
  pose proof (num_voiced_unvoiced rb). pose proof (num_voiced_nonneg rb). lia.
Qed.

Lemma len_skipn_map (p : list Frame) (rb : list (Frame * bool)) (c : nat) :
  (c <= length p)%nat -> map fst rb = skipn c p ->
  len rb = Z.of_nat (length p - c).
Proof.
  intros Hc H. apply (f_equal (@length Frame)) in H.
  rewrite length_map, length_skipn in H. unfold len. now rewrite H.
Qed.

Lemma collect_frame_runs (maxlen : Z) (p : list Frame) (st : state)
    (rs : list (nat * nat)) (f : Frame) (v : bool) :
  0 <= maxlen -> runs_inv maxlen p st rs ->
  exists rs' : list (nat * nat),
    runs_inv maxlen (p ++ [f]) (fst (collect_frame maxlen st f v)) (rs ++ rs')
    /\ snd (collect_frame maxlen st f v) = map (run_bytes (p ++ [f])) rs'
    /\ Forall (closed_run maxlen) rs'.
Proof.
  intros H0 (b & t & c & Ho & Hbtc & Hc & Hrb & Hst). unfold collect_frame.
  destruct (deque_append_suffix maxlen p (ring_buffer st) f v c Hc Hrb)
    as (c' & Hc' & Hrb').
  assert (HL : length (p ++ [f]) = S (length p))
    by (rewrite length_app; cbn [length]; lia).
  assert (Hcc : (c <= c')%nat).
  { pose proof (deque_append_drop maxlen (ring_buffer st) (f, v)) as [l Hl].
    apply (f_equal (map fst)) in Hl. rewrite !map_app, Hrb, Hrb' in Hl.
    cbn [map fst] in Hl. rewrite skipn_snoc in Hl by exact Hc.
    apply (f_equal (@length Frame)) in Hl.
    rewrite length_app, !length_skipn, length_map in Hl. lia. }
  pose proof (len_skipn_map (p ++ [f]) _ c' Hc' Hrb') as Hlen'.
  destruct (triggered st); cbn [negb].
  - destruct Hst as [Hvf Hex].
    assert (Hvf' : voiced_frames st ++ [f] = skipn b (p ++ [f])).
    { rewrite Hvf. apply skipn_snoc. lia. }
    destruct (exceeds (num_unvoiced (deque_append maxlen (ring_buffer st) (f, v)))
                      maxlen) eqn:E; cbn [fst snd].
    + exists [(b, length (p ++ [f]))]. split; [|split].
      * exists (length (p ++ [f])), (length (p ++ [f])), (length (p ++ [f])).
        cbn [triggered ring_buffer voiced_frames map].
        split; [apply (ordered_snoc rs b _ 0%nat b Ho); lia|].
        split; [lia|]. split; [lia|]. split; [|reflexivity].
        now rewrite skipn_all.
      * cbn [map]. now rewrite run_bytes_suffix, Hvf'.
      * constructor; [|constructor]. exists t. cbn [fst snd].
        split; [lia|]. split; [exact Hex|].
        apply (exceeds_mono
                 (num_unvoiced (deque_append maxlen (ring_buffer st) (f, v))));
          [|exact E].
        pose proof (num_unvoiced_le_len
                      (deque_append maxlen (ring_buffer st) (f, v))).
        lia.
    + exists []. rewrite app_nil_r. split; [|split; [reflexivity|constructor]].
      exists b, t, c'. cbn [triggered ring_buffer voiced_frames].
      split; [exact Ho|]. split; [lia|]. split; [exact Hc'|].
      split; [exact Hrb'|]. split; [exact Hvf' | exact Hex].
  - destruct (exceeds (num_voiced (deque_append maxlen (ring_buffer st) (f, v)))
                      maxlen) eqn:E; cbn [fst snd].
    + exists []. rewrite app_nil_r. split; [|split; [reflexivity|constructor]].
      exists c', (length (p ++ [f])), (length (p ++ [f])).
      cbn [triggered ring_buffer voiced_frames map].
      split; [apply (ordered_weaken rs 0%nat b c' Ho); lia|].
      split; [lia|]. split; [lia|]. split; [now rewrite skipn_all|].
      split; [now rewrite Hst, Hrb'|].
      apply (exceeds_mono
               (num_voiced (deque_append maxlen (ring_buffer st) (f, v))));
        [|exact E].
      pose proof (num_voiced_le_len
                    (deque_append maxlen (ring_buffer st) (f, v))).
      lia.
    + exists []. rewrite app_nil_r. split; [|split; [reflexivity|constructor]].
      exists b, c', c'. cbn [triggered ring_buffer voiced_frames].
      split; [exact Ho|]. split; [lia|]. split; [exact Hc'|].
      split; [exact Hrb' | exact Hst].
Qed.

Lemma runs_inv_bound (maxlen : Z) (p : list Frame) (st : state)
    (rs : list (nat * nat)) :
  runs_inv maxlen p st rs -> ordered 0 rs (length p).
Proof.
  intros (b & t & c & Ho & Hbtc & Hc & _).
  apply (ordered_weaken rs 0%nat b); [exact Ho | lia].
Qed.

Lemma collect_votes_runs (maxlen : Z) (xs : list (Frame * bool)) :
  0 <= maxlen ->
  forall (p : list Frame) (st : state) (rs : list (nat * nat)),
    runs_inv maxlen p st rs ->
    exists rs' : list (nat * nat),
      runs_inv maxlen (p ++ map fst xs) (fst (collect_votes maxlen st xs))
               (rs ++ rs')
      /\ snd (collect_votes maxlen st xs)
         = map (run_bytes (p ++ map fst xs)) rs'
      /\ Forall (closed_run maxlen) rs'.
Proof.
  intros H0. induction xs as [|[f v] xs IH]; intros p st rs Hinv.
  - exists []. cbn [collect_votes fst snd map]. rewrite !app_nil_r.
    split; [exact Hinv|]. split; [reflexivity | constructor].
  - cbn [collect_votes map fst].
    destruct (collect_frame_runs maxlen p st rs f v H0 Hinv)
      as (r1 & Hinv1 & Hout1 & Hcl1).
    destruct (collect_frame maxlen st f v) as [st' out]. cbn [fst snd] in *.
    destruct (IH (p ++ [f]) st' (rs ++ r1) Hinv1) as (r2 & Hinv2 & Hout2 & Hcl2).
    destruct (collect_votes maxlen st' xs) as [st'' outs]. cbn [fst snd] in *.
    replace ((p ++ [f]) ++ map fst xs) with (p ++ f :: map fst xs) in *
      by (now rewrite <- app_assoc).
    exists (r1 ++ r2). rewrite app_assoc. split; [exact Hinv2|]. split.
    + rewrite map_app, Hout1, Hout2. f_equal.
      replace (p ++ f :: map fst xs) with ((p ++ [f]) ++ map fst xs)
        by (now rewrite <- app_assoc).
      symmetry.
      pose proof (runs_inv_bound _ _ _ _ Hinv1) as Hb.
      destruct (ordered_bounds _ _ _ Hb) as [_ Hall].
      apply map_ext_in. intros r Hin. apply run_bytes_app.
      rewrite Forall_forall in Hall.
      specialize (Hall r (in_or_app rs r1 r (or_intror Hin))). lia.
    + apply Forall_app. now split.
Qed.

Lemma initial_runs (maxlen : Z) : runs_inv maxlen [] initial [].
Proof.
  exists 0%nat, 0%nat, 0%nat. cbn. repeat split; lia.
Qed.

Section Ordered.

Context {V : Type}.
Variable is_speech : V -> bytes_t -> Z -> V * result bool.
Variable sample_rate : Z.

(** The segments of a run of the collector: runs of frames in the order of
    the input that do not overlap, each of a number of frames that exceeds
    [0.9 * maxlen], and each but the one of the end of the input closed. *)
Lemma vad_collector_runs (fd pd maxlen : Z) (vad : V) (frames : list Frame) :
  num_padding_frames fd pd = Ok maxlen ->
  exists rs last : list (nat * nat),
    yielded (vad_collector is_speech sample_rate fd pd vad frames)
    = map (run_bytes frames) (rs ++ last)
    /\ ordered 0 (rs ++ last) (length frames)
    /\ Forall (closed_run maxlen) rs
    /\ Forall (long_run maxlen) last
    /\ (length last <= 1)%nat.
Proof.
  intros Hw.
  rewrite (vad_collector_votes is_speech sample_rate fd pd maxlen vad frames Hw).
  pose proof (proj1 (num_padding_frames_range _ _ _ Hw)) as H0.
  destruct (collect_votes_runs maxlen
              (fst (votes is_speech sample_rate vad frames)) H0 []
              initial [] (initial_runs maxlen)) as (rs & Hinv & Hout & Hcl).
  cbn [app] in Hinv, Hout.
  rewrite votes_frames in Hinv, Hout.
  set (run := collect_votes maxlen initial
                (fst (votes is_speech sample_rate vad frames))) in *.
  set (k := length (fst (votes is_speech sample_rate vad frames))) in *.
  assert (Hk : (length (firstn k frames) <= length frames)%nat)
    by (rewrite length_firstn; lia).
  assert (Hfr : forall r : nat * nat,
             (snd r <= length (firstn k frames))%nat ->
             run_bytes (firstn k frames) r = run_bytes frames r).
  { intros r Hr. rewrite <- (firstn_skipn k frames) at 2.
    symmetry. now apply run_bytes_app. }
  assert (Hrs : map (run_bytes (firstn k frames)) rs
                = map (run_bytes frames) rs).
  { pose proof (runs_inv_bound _ _ _ _ Hinv) as Hb.
    destruct (ordered_bounds _ _ _ Hb) as [_ Hall].
    apply map_ext_in. intros r Hin. apply Hfr.
    rewrite Forall_forall in Hall. specialize (Hall r Hin). lia. }
  unfold yield_all. cbn [yielded]. rewrite Hout, Hrs.
  assert (Hnone : exists last : list (nat * nat),
             [] = map (run_bytes frames) last
             /\ ordered 0 (rs ++ last) (length frames)
             /\ Forall (long_run maxlen) last /\ (length last <= 1)%nat).
  { exists []. rewrite app_nil_r. split; [reflexivity|]. split.
    - apply (ordered_weaken rs 0%nat (length (firstn k frames)));
        [now apply (runs_inv_bound maxlen _ (fst run)) | exact Hk].
    - split; [constructor | cbn; lia]. }
  assert (Hgoal : exists last : list (nat * nat),
             yielded (match snd (votes is_speech sample_rate vad frames) with
                      | Some e => mkTrace [] (Raised e)
                      | None => flush (fst run)
                      end)
             = map (run_bytes frames) last
             /\ ordered 0 (rs ++ last) (length frames)
             /\ Forall (long_run maxlen) last /\ (length last <= 1)%nat).
  { destruct (snd (votes is_speech sample_rate vad frames)); [exact Hnone|].
    rewrite flush_yields.
    destruct (voiced_frames (fst run)) eqn:Ev; [exact Hnone|].
    rewrite <- Ev.
    destruct Hinv as (b & t & c & Ho & Hbtc & Hc & Hrb & Hst).
    destruct (triggered (fst run)); [|congruence].
    destruct Hst as [Hvf Hex].
    assert (Hb : (b < length (firstn k frames))%nat).
    { apply skipn_not_nil. rewrite <- Hvf, Ev. discriminate. }
    exists [(b, length (firstn k frames))]. split; [|split; [|split]].
    - cbn [map]. rewrite <- Hfr by (cbn [snd]; lia).
      now rewrite run_bytes_suffix, Hvf.
    - apply (ordered_weaken _ 0%nat (length (firstn k frames))); [|exact Hk].
      apply (ordered_snoc rs b _ 0%nat b Ho). lia.
    - constructor; [|constructor]. unfold long_run. cbn [fst snd].
      apply (exceeds_mono (Z.of_nat (t - b))); [lia | exact Hex].
    - cbn. lia. }
  destruct Hgoal as (last & Hy & Ho & Hlong & Hlen).
  exists rs, last. rewrite map_app, <- Hy.
  split; [reflexivity|]. split; [exact Ho|]. split; [|split]; assumption.
Qed.

End Ordered.

Lemma join_app (p q : list Frame) : join (p ++ q) = join p ++ join q.
Proof. unfold join. now rewrite map_app, concat_app. Qed.

Lemma ordered_count (rs : list (nat * nat)) :
  forall lo hi : nat, ordered lo rs hi -> (lo + length rs <= hi)%nat.
Proof.
  induction rs as [|[i j] rs IH]; intros lo hi H; cbn [ordered length] in *.
  - lia.
  - destruct H as [Hij H]. specialize (IH j hi H). lia.
Qed.

Lemma ordered_bytes (frames : list Frame) (rs : list (nat * nat)) :
  forall lo hi : nat,
    ordered lo rs hi ->
    len (concat (map (run_bytes frames) rs)) <= len (join (skipn lo frames)).
Proof.
  induction rs as [|[i j] rs IH]; intros lo hi H; cbn [ordered map concat] in *.
  - apply len_nonneg.
  - destruct H as [Hij H]. specialize (IH j hi H).
    assert (H1 : skipn lo frames
                 = firstn (i - lo) (skipn lo frames) ++ skipn i frames).
    { rewrite <- (firstn_skipn (i - lo) (skipn lo frames)) at 1.
      rewrite skipn_skipn_add. do 2 f_equal. lia. }
    assert (H2 : skipn i frames
                 = firstn (j - i) (skipn i frames) ++ skipn j frames).
    { rewrite <- (firstn_skipn (j - i) (skipn i frames)) at 1.
      rewrite skipn_skipn_add. do 2 f_equal. lia. }
    rewrite H1, H2 at 1. rewrite !join_app, !len_app.
    unfold run_bytes at 1. cbn [fst snd].
    pose proof (len_nonneg (join (firstn (i - lo) (skipn lo frames)))).
    lia.
Qed.

(** X6. The buffers the collector yields are the bytes of runs of frames
    that follow one another in the order of the input and do not overlap:
    no frame is yielded twice and the order of the audio is kept. There
    are therefore no more buffers than frames, and no more bytes in the
    buffers together than in the frames together. *)
Theorem segments_follow_the_input {V : Type}
    (is_speech : V -> bytes_t -> Z -> V * result bool)
    (sample_rate fd pd maxlen : Z) (vad : V) (frames : list Frame) :
  num_padding_frames fd pd = Ok maxlen ->
  let out := yielded (vad_collector is_speech sample_rate fd pd vad frames) in
  (exists rs : list (nat * nat),
     out = map (run_bytes frames) rs /\ ordered 0 rs (length frames))
  /\ (length out <= length frames)%nat
  /\ len (concat out) <= len (join frames).
Proof.
  intros Hw out.
  destruct (vad_collector_runs is_speech sample_rate fd pd maxlen vad frames Hw)
    as (rs & last & Hy & Ho & _).
  fold out in Hy. split; [|split].
  - now exists (rs ++ last).
  - rewrite Hy, length_map.
    pose proof (ordered_count _ _ _ Ho). lia.
  - rewrite Hy. apply (ordered_bytes frames _ 0%nat _ Ho).
Qed.

Lemma segments_follow_the_input_witness :
  num_padding_frames 30 30 = Ok 1
  /\ (length
        (yielded
           (vad_collector scripted 16000 30 30
              [Ok true; Ok false; Ok false; Ok true]
              [mkFrame [x01] f_0_0 f_0_0; mkFrame [x02] f_0_0 f_0_0;
               mkFrame [x03] f_0_0 f_0_0; mkFrame [x04] f_0_0 f_0_0]))
      <= 4)%nat.
Proof.
  split; [reflexivity|].
  exact (proj1 (proj2 (segments_follow_the_input scripted 16000 30 30 1
                         [Ok true; Ok false; Ok false; Ok true]
                         [mkFrame [x01] f_0_0 f_0_0; mkFrame [x02] f_0_0 f_0_0;
                          mkFrame [x03] f_0_0 f_0_0; mkFrame [x04] f_0_0 f_0_0]
                         eq_refl))).
Defined.

(** X7. No short segment is yielded. Every buffer is a run of frames whose
    number exceeds [0.9 * maxlen]; and every buffer but the last is a run
    of two parts (the frames up to the one that made the collector
    TRIGGERED, and the frames after it) whose numbers each exceed
    [0.9 * maxlen]. For a capacity up to 10000 these are more than nine
    tenths and more than eighteen tenths of the capacity. *)
Theorem segments_exceed_the_threshold {V : Type}
    (is_speech : V -> bytes_t -> Z -> V * result bool)
    (sample_rate fd pd maxlen : Z) (vad : V) (frames : list Frame) :
  num_padding_frames fd pd = Ok maxlen ->
  let out := yielded (vad_collector is_speech sample_rate fd pd vad frames) in
  Forall (fun seg =>
            exists i j : nat,
              (i <= j <= length frames)%nat
              /\ seg = join (firstn (j - i) (skipn i frames))
              /\ exceeds (Z.of_nat (j - i)) maxlen = true
              /\ (maxlen <= 10000 -> 9 * maxlen < 10 * Z.of_nat (j - i)))
         out
  /\ Forall (fun seg =>
               exists i t j : nat,
                 (i <= t <= j)%nat /\ (j <= length frames)%nat
                 /\ seg = join (firstn (j - i) (skipn i frames))
                 /\ exceeds (Z.of_nat (t - i)) maxlen = true
                 /\ exceeds (Z.of_nat (j - t)) maxlen = true
                 /\ (maxlen <= 10000 -> 18 * maxlen < 10 * Z.of_nat (j - i)))
            (removelast out).
Proof.
  intros Hw out.
  pose proof (proj1 (num_padding_frames_range _ _ _ Hw)) as H0.
  destruct (vad_collector_runs is_speech sample_rate fd pd maxlen vad frames Hw)
    as (rs & last & Hy & Ho & Hcl & Hlong & Hlen).
  fold out in Hy.
  destruct (ordered_bounds _ _ _ Ho) as [_ Hall].
  apply Forall_app in Hall. destruct Hall as [Hrs Hlast].
  assert (Hnum : forall c : Z,
             exceeds c maxlen = true -> maxlen <= 10000 -> 9 * maxlen < 10 * c).
  { intros c Hc Hm. rewrite exceeds_nine_tenths in Hc by lia.
    now apply Z.ltb_lt in Hc. }
  assert (Hclosed : Forall (fun seg =>
               exists i t j : nat,
                 (i <= t <= j)%nat /\ (j <= length frames)%nat
                 /\ seg = join (firstn (j - i) (skipn i frames))
                 /\ exceeds (Z.of_nat (t - i)) maxlen = true
                 /\ exceeds (Z.of_nat (j - t)) maxlen = true
                 /\ (maxlen <= 10000 -> 18 * maxlen < 10 * Z.of_nat (j - i)))
            (map (run_bytes frames) rs)).
  { apply Forall_forall. intros seg Hin. apply in_map_iff in Hin.
    destruct Hin as ([i j] & <- & Hin).
    rewrite Forall_forall in Hrs, Hcl.
    specialize (Hrs _ Hin). destruct (Hcl _ Hin) as (t & Ht & H1 & H2).
    cbn [fst snd] in *. exists i, t, j.
    split; [exact Ht|]. split; [lia|]. split; [reflexivity|].
    split; [exact H1|]. split; [exact H2|].
    intros Hm. pose proof (Hnum _ H1 Hm). pose proof (Hnum _ H2 Hm). lia. }
  split.
  - rewrite Hy, map_app. apply Forall_app. split.
    + eapply Forall_impl; [|exact Hclosed]. cbn beta.
      intros seg (i & t & j & Ht & Hj & Hseg & H1 & H2 & Hm).
      exists i, j. split; [lia|]. split; [exact Hseg|]. split.
      * apply (exceeds_mono (Z.of_nat (t - i))); [lia | exact H1].
      * intros Hle. specialize (Hm Hle). lia.
    + apply Forall_forall. intros seg Hin. apply in_map_iff in Hin.
      destruct Hin as ([i j] & <- & Hin).
      rewrite Forall_forall in Hlast, Hlong.
      specialize (Hlast _ Hin). specialize (Hlong _ Hin).
      unfold long_run in Hlong. cbn [fst snd] in *. exists i, j.
      split; [lia|]. split; [reflexivity|]. split; [exact Hlong|].
      now apply Hnum.
  - rewrite Hy, map_app.
    destruct last as [|r [|r' last]]; [| |cbn in Hlen; lia].
    + cbn [map]. rewrite app_nil_r.
      destruct (map (run_bytes frames) rs) as [|s l] eqn:E using rev_ind;
        [constructor|].
      rewrite removelast_last. apply Forall_app in Hclosed. apply Hclosed.
    + cbn [map]. rewrite removelast_last. exact Hclosed.
Qed.

Lemma segments_exceed_the_threshold_witness :
  num_padding_frames 30 60 = Ok 2
  /\ Forall (fun seg =>
               exists i j : nat,
                 (i <= j <= 3)%nat
                 /\ seg = join (firstn (j - i)
                                  (skipn i [mkFrame [x01] f_0_0 f_0_0;
                                            mkFrame [x02] f_0_0 f_0_0;
                                            mkFrame [x03] f_0_0 f_0_0]))
                 /\ exceeds (Z.of_nat (j - i)) 2 = true
                 /\ (2 <= 10000 -> 9 * 2 < 10 * Z.of_nat (j - i)))
       (yielded
          (vad_collector scripted 16000 30 60 [Ok true; Ok true; Ok false]
             [mkFrame [x01] f_0_0 f_0_0; mkFrame [x02] f_0_0 f_0_0;
              mkFrame [x03] f_0_0 f_0_0])).
Proof.
  split; [reflexivity|].
  exact (proj1 (segments_exceed_the_threshold scripted 16000 30 60 2
                  [Ok true; Ok true; Ok false]
                  [mkFrame [x01] f_0_0 f_0_0; mkFrame [x02] f_0_0 f_0_0;
                   mkFrame [x03] f_0_0 f_0_0] eq_refl)).
Defined.

(** ** Uniform votes and the window of no frames *)

Lemma deque_append_Forall {A : Type} (P : A -> Prop) (maxlen : Z)
    (d : list A) (x : A) :
  Forall P d -> P x -> Forall P (deque_append maxlen d x).
Proof.
  intros Hd Hx. unfold deque_append.
  assert (H : Forall P (d ++ [x])) by (apply Forall_app; split; auto).
  destruct (maxlen <? len (d ++ [x])); [|exact H].
  destruct (d ++ [x]); [exact H | now inversion H].
Qed.

Lemma num_voiced_none (rb : list (Frame * bool)) :
  Forall (fun p => snd p = false) rb -> num_voiced rb = 0.
Proof.
  intros H. apply num_unvoiced_all in H.
  pose proof (num_voiced_unvoiced rb). lia.
Qed.

Lemma num_unvoiced_none (rb : list (Frame * bool)) :
  Forall (fun p => snd p = true) rb -> num_unvoiced rb = 0.
Proof.
  intros H. apply num_voiced_all in H.
  pose proof (num_voiced_unvoiced rb). lia.
Qed.

Lemma collect_votes_unvoiced (maxlen : Z) (xs : list (Frame * bool)) :
  0 <= maxlen -> Forall (fun p => snd p = false) xs ->
  forall st : state,
    triggered st = false -> voiced_frames st = [] ->
    Forall (fun p => snd p = false) (ring_buffer st) ->
    snd (collect_votes maxlen st xs) = []
    /\ voiced_frames (fst (collect_votes maxlen st xs)) = [].
Proof.
  intros H0 Hxs. induction Hxs as [|[f v] xs Hv Hxs IH]; intros st Ht Hvf Hrb.
  - now split.
  - cbn [snd] in Hv. subst v. cbn [collect_votes]. unfold collect_frame.
    rewrite Ht. cbn [negb].
    pose proof (deque_append_Forall _ maxlen _ (f, false) Hrb eq_refl) as Hrb'.
    rewrite (num_voiced_none _ Hrb'), (exceeds_none 0 maxlen H0 ltac:(lia)).
    specialize (IH (mkState false
                      (deque_append maxlen (ring_buffer st) (f, false))
                      (voiced_frames st)) eq_refl Hvf Hrb').
    destruct (collect_votes maxlen _ xs) as [st'' outs].
    cbn [fst snd app] in *. exact IH.
Qed.

Lemma collect_votes_zero (xs : list (Frame * bool)) :
  collect_votes 0 initial xs = (initial, []).
Proof.
  induction xs as [|[f v] xs IH]; [reflexivity|].
  cbn [collect_votes]. unfold collect_frame.
  cbn [initial triggered negb ring_buffer voiced_frames].
  replace (deque_append 0 [] (f, v)) with (@nil (Frame * bool)) by reflexivity.
  replace (exceeds (num_voiced []) 0) with false by (vm_compute; reflexivity).
  fold initial. now rewrite IH.
Qed.

Lemma collect_votes_voiced_triggered (maxlen : Z) (xs : list (Frame * bool)) :
  0 <= maxlen -> Forall (fun p => snd p = true) xs ->
  forall st : state,
    triggered st = true ->
    Forall (fun p => snd p = true) (ring_buffer st) ->
    snd (collect_votes maxlen st xs) = []
    /\ voiced_frames (fst (collect_votes maxlen st xs))
       = voiced_frames st ++ map fst xs.
Proof.
  intros H0 Hxs. induction Hxs as [|[f v] xs Hv Hxs IH]; intros st Ht Hrb.
  - cbn. now rewrite app_nil_r.
  - cbn [snd] in Hv. subst v. cbn [collect_votes]. unfold collect_frame.
    rewrite Ht. cbn [negb].
    pose proof (deque_append_Forall _ maxlen _ (f, true) Hrb eq_refl) as Hrb'.
    rewrite (num_unvoiced_none _ Hrb'), (exceeds_none 0 maxlen H0 ltac:(lia)).
    specialize (IH (mkState true
                      (deque_append maxlen (ring_buffer st) (f, true))
                      (voiced_frames st ++ [f])) eq_refl Hrb').
    destruct (collect_votes maxlen _ xs) as [st'' outs].
    cbn [fst snd app map voiced_frames] in *.
    destruct IH as [-> ->]. split; [reflexivity|].
    now rewrite <- app_assoc.
Qed.

Lemma collect_votes_voiced (maxlen : Z) (xs : list (Frame * bool)) :
  1 <= maxlen <= 10000 -> Forall (fun p => snd p = true) xs ->
  forall rb : list (Frame * bool),
    Forall (fun p => snd p = true) rb -> 10 * len rb <= 9 * maxlen ->
    snd (collect_votes maxlen (mkState false rb []) xs) = []
    /\ voiced_frames (fst (collect_votes maxlen (mkState false rb []) xs))
       = if 9 * maxlen <? 10 * (len rb + len xs)
         then map fst rb ++ map fst xs else [].
Proof.
  intros HW Hxs. induction Hxs as [|[f v] xs Hv Hxs IH]; intros rb Hrb Hlen.
  - cbn [collect_votes fst snd voiced_frames].
    replace (len (@nil (Frame * bool))) with 0 by reflexivity.
    rewrite Z.add_0_r.
    destruct (9 * maxlen <? 10 * len rb) eqn:E; [|now split].
    apply Z.ltb_lt in E. lia.
  - cbn [snd] in Hv. subst v. cbn [collect_votes]. unfold collect_frame.
    cbn [triggered negb ring_buffer voiced_frames app].
    assert (Happ : deque_append maxlen rb (f, true) = rb ++ [(f, true)]).
    { unfold deque_append.
      destruct (maxlen <? len (rb ++ [(f, true)])) eqn:E; [|reflexivity].
      apply Z.ltb_lt in E. rewrite len_app in E.
      change (len [(f, true)]) with 1 in E. lia. }
    rewrite Happ.
    assert (Hrb' : Forall (fun p : Frame * bool => snd p = true)
                          (rb ++ [(f, true)])).
    { apply Forall_app. split; [exact Hrb|]. now constructor. }
    assert (Hnv : num_voiced (rb ++ [(f, true)]) = len rb + 1).
    { rewrite (proj2 (num_voiced_all _) Hrb'), len_app. reflexivity. }
    rewrite Hnv, exceeds_nine_tenths by lia.
    rewrite len_cons.
    replace (len rb + (1 + len xs)) with (len rb + 1 + len xs) by lia.
    destruct (9 * maxlen <? 10 * (len rb + 1)) eqn:E.
    + apply Z.ltb_lt in E.
      pose proof (collect_votes_voiced_triggered maxlen xs ltac:(lia) Hxs
                    (mkState true [] (map fst (rb ++ [(f, true)])))
                    eq_refl (Forall_nil _)) as IH'.
      destruct (collect_votes maxlen _ xs) as [st'' outs].
      cbn [fst snd app voiced_frames] in *. destruct IH' as [-> ->].
      split; [reflexivity|].
      pose proof (len_nonneg xs).
      destruct (9 * maxlen <? 10 * (len rb + 1 + len xs)) eqn:E'.
      * rewrite map_app. cbn [map fst]. now rewrite <- app_assoc.
      * apply Z.ltb_ge in E'. lia.
    + apply Z.ltb_ge in E.
      specialize (IH (rb ++ [(f, true)]) Hrb').
      rewrite len_app in IH. change (len [(f, true)]) with 1 in IH.
      specialize (IH ltac:(lia)).
      destruct (collect_votes maxlen _ xs) as [st'' outs].
      cbn [fst snd app] in *. destruct IH as [-> ->].
      split; [reflexivity|].
      destruct (9 * maxlen <? 10 * (len rb + 1 + len xs)); [|reflexivity].
      rewrite map_app. cbn [map fst]. now rewrite <- app_assoc.
Qed.

(** X8. A collector whose window has no frame ([padding_duration_ms] below
    [frame_duration_ms], so that [num_padding_frames] is 0) yields nothing,
    whatever the votes: the classifier is called on every frame, and a
    failure of it is the only thing that shows. *)
Theorem window_of_no_frames {V : Type}
    (is_speech : V -> bytes_t -> Z -> V * result bool)
    (sample_rate fd pd : Z) (vad : V) (frames : list Frame) :
  num_padding_frames fd pd = Ok 0 ->
  vad_collector is_speech sample_rate fd pd vad frames
  = mkTrace [] (match snd (votes is_speech sample_rate vad frames) with
                | Some e => Raised e
                | None => Done
                end).
Proof.
  intros Hw.
  rewrite (vad_collector_votes is_speech sample_rate fd pd 0 vad frames Hw).
  rewrite collect_votes_zero. cbn [fst snd]. unfold yield_all.
  now destruct (snd (votes is_speech sample_rate vad frames)).
Qed.

Lemma window_of_no_frames_witness :
  num_padding_frames 30 20 = Ok 0
  /\ vad_collector scripted 16000 30 20 [Ok true; Ok true; Ok true]
       [mkFrame [x01] f_0_0 f_0_0; mkFrame [x02] f_0_0 f_0_0;
        mkFrame [x03] f_0_0 f_0_0]
     = mkTrace [] Done.
Proof.
  split; [reflexivity|].
  exact (window_of_no_frames scripted 16000 30 20 [Ok true; Ok true; Ok true]
           [mkFrame [x01] f_0_0 f_0_0; mkFrame [x02] f_0_0 f_0_0;
            mkFrame [x03] f_0_0 f_0_0] eq_refl).
Defined.

(** X9. When the classifier votes unvoiced on every frame it is asked
    about, the collector yields nothing. *)
Theorem unvoiced_input_yields_nothing {V : Type}
    (is_speech : V -> bytes_t -> Z -> V * result bool)
    (sample_rate fd pd maxlen : Z) (vad : V) (frames : list Frame) :
  num_padding_frames fd pd = Ok maxlen ->
  Forall (fun p => snd p = false)
         (fst (votes is_speech sample_rate vad frames)) ->
  yielded (vad_collector is_speech sample_rate fd pd vad frames) = [].
Proof.
  intros Hw Hv.
  rewrite (vad_collector_votes is_speech sample_rate fd pd maxlen vad frames Hw).
  pose proof (proj1 (num_padding_frames_range _ _ _ Hw)) as H0.
  destruct (collect_votes_unvoiced maxlen _ H0 Hv initial eq_refl eq_refl
              (Forall_nil _)) as [Hout Hvf].
  unfold yield_all. cbn [yielded]. rewrite Hout. cbn [app].
  destruct (snd (votes is_speech sample_rate vad frames)); [reflexivity|].
  now rewrite flush_yields, Hvf.
Qed.

Lemma unvoiced_input_yields_nothing_witness :
  num_padding_frames 30 30 = Ok 1
  /\ yielded (vad_collector scripted 16000 30 30 [Ok false; Ok false]
                [mkFrame [x01] f_0_0 f_0_0; mkFrame [x02] f_0_0 f_0_0])
     = [].
Proof.
  split; [reflexivity|].
  apply (unvoiced_input_yields_nothing scripted 16000 30 30 1);
    [reflexivity | repeat constructor].
Defined.

(** X10. When the classifier votes voiced on every frame, the collector
    yields the whole input as one buffer, at the end of the input, when
    the number of frames exceeds nine tenths of the capacity of the ring
    buffer, and nothing otherwise: an input of fewer voiced frames than the
    threshold is lost. *)
Theorem voiced_input_is_one_segment {V : Type}
    (is_speech : V -> bytes_t -> Z -> V * result bool)
    (sample_rate fd pd maxlen : Z) (vad : V) (frames : list Frame) :
  num_padding_frames fd pd = Ok maxlen ->
  1 <= maxlen <= 10000 ->
  votes is_speech sample_rate vad frames
  = (map (fun f => (f, true)) frames, None) ->
  vad_collector is_speech sample_rate fd pd vad frames
  = mkTrace (if 9 * maxlen <? 10 * len frames then [join frames] else [])
            Done.
Proof.
  intros Hw HW Hv.
  rewrite (vad_collector_votes is_speech sample_rate fd pd maxlen vad frames Hw).
  rewrite Hv. cbn [fst snd].
  assert (Hall : Forall (fun p : Frame * bool => snd p = true)
                        (map (fun f => (f, true)) frames)).
  { apply Forall_forall. intros p Hin. apply in_map_iff in Hin.
    now destruct Hin as (f & <- & _). }
  assert (Hnil : 10 * len (@nil (Frame * bool)) <= 9 * maxlen)
    by (change (len (@nil (Frame * bool))) with 0; lia).
  destruct (collect_votes_voiced maxlen _ HW Hall [] (Forall_nil _) Hnil)
    as [Hout Hvf].
  fold initial in Hout, Hvf.
  unfold yield_all. rewrite Hout. cbn [app].
  unfold flush. rewrite Hvf. cbn [map app].
  replace (len (@nil (Frame * bool))) with 0 by reflexivity.
  unfold len. rewrite length_map, Z.add_0_l.
  rewrite map_map. cbn [fst]. rewrite map_id.
  destruct (9 * maxlen <? 10 * Z.of_nat (length frames)) eqn:E;
    [|reflexivity].
  destruct frames as [|f frames]; [|reflexivity].
  apply Z.ltb_lt in E. cbn [length Z.of_nat] in E. lia.
Qed.

Lemma voiced_input_is_one_segment_witness :
  num_padding_frames 30 90 = Ok 3
  /\ 1 <= 3 <= 10000
  /\ vad_collector (stateless (fun _ _ => Ok true)) 16000 30 90 tt
       [mkFrame [x01] f_0_0 f_0_0; mkFrame [x02] f_0_0 f_0_0]
     = mkTrace [] Done
  /\ vad_collector (stateless (fun _ _ => Ok true)) 16000 30 90 tt
       [mkFrame [x01] f_0_0 f_0_0; mkFrame [x02] f_0_0 f_0_0;
        mkFrame [x03] f_0_0 f_0_0]
     = mkTrace [[x01; x02; x03]] Done.
Proof.
  split; [reflexivity|]. split; [lia|]. split.
  - exact (voiced_input_is_one_segment (stateless (fun _ _ => Ok true))
             16000 30 90 3 tt
             [mkFrame [x01] f_0_0 f_0_0; mkFrame [x02] f_0_0 f_0_0]
             eq_refl ltac:(lia) eq_refl).
  - exact (voiced_input_is_one_segment (stateless (fun _ _ => Ok true))
             16000 30 90 3 tt
             [mkFrame [x01] f_0_0 f_0_0; mkFrame [x02] f_0_0 f_0_0;
              mkFrame [x03] f_0_0 f_0_0]
             eq_refl ltac:(lia) eq_refl).
Defined.

(** ** A run of as many votes of one kind as the ring buffer holds *)

Lemma exceeds_not_mono (c c' maxlen : Z) :
  c <= c' -> exceeds c' maxlen = false -> exceeds c maxlen = false.
Proof.
  intros Hle H. destruct (exceeds c maxlen) eqn:E; [|reflexivity].
  now rewrite (exceeds_mono c c' maxlen Hle E) in H.
Qed.

Lemma exceeds_full (maxlen : Z) :
  1 <= maxlen <= 10000 -> exceeds maxlen maxlen = true.
Proof.
  intros H. rewrite exceeds_nine_tenths by lia. apply Z.ltb_lt. lia.
Qed.

(** A voiced vote in TRIGGERED: the frame joins the segment and nothing
    else happens. *)
Lemma voiced_vote_in_triggered (maxlen : Z) (st : state) (f : Frame) :
  well_formed maxlen st -> triggered st = true ->
  collect_frame maxlen st f true
  = (mkState true (deque_append maxlen (ring_buffer st) (f, true))
             (voiced_frames st ++ [f]), []).
Proof.
  intros [_ Hst] Ht. rewrite Ht in Hst. destruct Hst as (Hq & _).
  unfold collect_frame. rewrite Ht. cbn [negb].
  now rewrite (exceeds_not_mono _ _ maxlen
                 (num_unvoiced_append_voiced maxlen (ring_buffer st) f) Hq).
Qed.

(** An unvoiced vote in NOT_TRIGGERED: the pair joins the ring buffer and
    nothing else happens. *)
Lemma unvoiced_vote_in_not_triggered (maxlen : Z) (st : state) (f : Frame) :
  well_formed maxlen st -> triggered st = false ->
  collect_frame maxlen st f false
  = (mkState false (deque_append maxlen (ring_buffer st) (f, false))
             (voiced_frames st), []).
Proof.
  intros [_ Hst] Ht. rewrite Ht in Hst. destruct Hst as (Hq & _).
  unfold collect_frame. rewrite Ht. cbn [negb].
  now rewrite (exceeds_not_mono _ _ maxlen
                 (num_voiced_append_unvoiced maxlen (ring_buffer st) f) Hq).
Qed.

Lemma voiced_votes_in_triggered (maxlen : Z) (xs : list (Frame * bool)) :
  0 <= maxlen -> Forall (fun p => snd p = true) xs ->
  forall st : state,
    well_formed maxlen st -> triggered st = true ->
    snd (collect_votes maxlen st xs) = []
    /\ triggered (fst (collect_votes maxlen st xs)) = true
    /\ voiced_frames (fst (collect_votes maxlen st xs))
       = voiced_frames st ++ map fst xs.
Proof.
  intros H0 Hxs. induction Hxs as [|[f v] xs Hv Hxs IH]; intros st Hwf Ht.
  - cbn. rewrite app_nil_r. auto.
  - cbn [snd] in Hv. subst v. cbn [collect_votes].
    pose proof (collect_frame_well_formed maxlen st f true H0 Hwf) as Hwf'.
    rewrite (voiced_vote_in_triggered maxlen st f Hwf Ht) in *.
    cbn [fst] in Hwf'.
    specialize (IH _ Hwf' eq_refl).
    destruct (collect_votes maxlen _ xs) as [st'' outs].
    cbn [fst snd app map voiced_frames] in *.
    destruct IH as (-> & -> & ->). rewrite <- app_assoc. auto.
Qed.

Lemma unvoiced_votes_in_not_triggered (maxlen : Z) (xs : list (Frame * bool)) :
  0 <= maxlen -> Forall (fun p => snd p = false) xs ->
  forall st : state,
    well_formed maxlen st -> triggered st = false ->
    snd (collect_votes maxlen st xs) = []
    /\ triggered (fst (collect_votes maxlen st xs)) = false
    /\ voiced_frames (fst (collect_votes maxlen st xs)) = [].
Proof.
  intros H0 Hxs. induction Hxs as [|[f v] xs Hv Hxs IH]; intros st Hwf Ht.
  - cbn. destruct Hwf as [_ Hst]. rewrite Ht in Hst. split; [reflexivity|].
    split; [exact Ht | apply Hst].
  - cbn [snd] in Hv. subst v. cbn [collect_votes].
    pose proof (collect_frame_well_formed maxlen st f false H0 Hwf) as Hwf'.
    rewrite (unvoiced_vote_in_not_triggered maxlen st f Hwf Ht) in *.
    cbn [fst] in Hwf'.
    specialize (IH _ Hwf' eq_refl).
    destruct (collect_votes maxlen _ xs) as [st'' outs].
    cbn [fst snd app] in *. exact IH.
Qed.

Lemma skipn_app_le {A : Type} (n : nat) (l l' : list A) :
  (n <= length l)%nat -> skipn n (l ++ l') = skipn n l ++ l'.
Proof.
  intros Hn. rewrite skipn_app.
  replace (n - length l)%nat with 0%nat by lia. reflexivity.
Qed.

(** Up to [maxlen] voiced votes: either the collector is TRIGGERED and
    the frames of these votes end the segment list, or it has been
    NOT_TRIGGERED all along and they are in the ring buffer. *)
Lemma voiced_run_short (maxlen : Z) (st : state) (xs : list (Frame * bool)) :
  0 <= maxlen -> well_formed maxlen st ->
  Forall (fun p => snd p = true) xs -> len xs <= maxlen ->
  snd (collect_votes maxlen st xs) = []
  /\ ((triggered (fst (collect_votes maxlen st xs)) = true
       /\ exists pre : list Frame,
            voiced_frames (fst (collect_votes maxlen st xs))
            = pre ++ map fst xs)
      \/ (triggered (fst (collect_votes maxlen st xs)) = false
          /\ ring_buffer (fst (collect_votes maxlen st xs))
             = pushes maxlen (ring_buffer st) xs)).
Proof.
  intros H0 Hwf. induction xs as [|[f v] xs IH] using rev_ind; intros Hv Hlen.
  - cbn [collect_votes fst snd map]. split; [reflexivity|].
    destruct (triggered st) eqn:Ht.
    + left. split; [reflexivity|]. exists (voiced_frames st).
      now rewrite app_nil_r.
    + right. split; reflexivity.
  - apply Forall_app in Hv. destruct Hv as [Hxs Hf].
    inversion Hf as [|? ? Hv _]; subst. cbn [snd] in Hv. subst v.
    rewrite len_app in Hlen. change (len [(f, true)]) with 1 in Hlen.
    pose proof (len_nonneg xs) as Hxs0.
    destruct (IH Hxs ltac:(lia)) as [Hout Hcase].
    pose proof (collect_votes_well_formed maxlen xs H0 st Hwf) as Hwf'.
    rewrite collect_votes_app, collect_votes_one. cbn [fst snd].
    rewrite Hout. cbn [app].
    set (st' := fst (collect_votes maxlen st xs)) in *.
    destruct Hcase as [[Ht (pre & Hpre)] | [Ht Hrb]].
    + rewrite (voiced_vote_in_triggered maxlen st' f Hwf' Ht).
      cbn [fst snd triggered voiced_frames]. split; [reflexivity|].
      left. split; [reflexivity|]. exists pre.
      rewrite Hpre, map_app, <- app_assoc. reflexivity.
    + destruct Hwf' as [Hlen' Hst']. rewrite Ht in Hst'.
      destruct Hst' as [_ Hvf].
      unfold collect_frame. rewrite Ht. cbn [negb]. rewrite Hvf, Hrb.
      rewrite <- pushes_snoc.
      destruct (exceeds (num_voiced (pushes maxlen (ring_buffer st)
                                       (xs ++ [(f, true)]))) maxlen);
        cbn [fst snd triggered ring_buffer voiced_frames app].
      * split; [reflexivity|]. left. split; [reflexivity|].
        rewrite pushes_last by (try apply Hwf; lia).
        set (zs := xs ++ [(f, true)]).
        assert (Hzs : len zs <= maxlen)
          by (unfold zs; rewrite len_app; change (len [(f, true)]) with 1; lia).
        exists (map fst (skipn (length (ring_buffer st ++ zs)
                                - Z.to_nat maxlen) (ring_buffer st))).
        rewrite <- map_app. f_equal. apply skipn_app_le.
        rewrite length_app. unfold len in Hzs. lia.
      * split; [reflexivity|]. right. split; reflexivity.
Qed.

(** Up to [maxlen] unvoiced votes: either the collector is NOT_TRIGGERED,
    with an empty segment list, having yielded the segment it had, if any,
    on one of these votes; or it has been TRIGGERED all along, and the
    votes are in the ring buffer. *)
Lemma unvoiced_run_short (maxlen : Z) (st : state) (xs : list (Frame * bool)) :
  0 <= maxlen -> well_formed maxlen st ->
  Forall (fun p => snd p = false) xs -> len xs <= maxlen ->
  (triggered (fst (collect_votes maxlen st xs)) = false
   /\ voiced_frames (fst (collect_votes maxlen st xs)) = []
   /\ (triggered st = false -> snd (collect_votes maxlen st xs) = [])
   /\ (triggered st = true ->
       exists k : nat,
         (1 <= k <= length xs)%nat
         /\ snd (collect_votes maxlen st xs)
            = [join (voiced_frames st ++ firstn k (map fst xs))]))
  \/ (triggered (fst (collect_votes maxlen st xs)) = true
      /\ triggered st = true
      /\ snd (collect_votes maxlen st xs) = []
      /\ voiced_frames (fst (collect_votes maxlen st xs))
         = voiced_frames st ++ map fst xs
      /\ ring_buffer (fst (collect_votes maxlen st xs))
         = pushes maxlen (ring_buffer st) xs).
Proof.
  intros H0 Hwf. induction xs as [|[f v] xs IH] using rev_ind; intros Hv Hlen.
  - cbn [collect_votes fst snd map]. destruct (triggered st) eqn:Ht.
    + right. rewrite app_nil_r. repeat split; reflexivity.
    + left. destruct Hwf as [_ Hst]. rewrite Ht in Hst.
      split; [reflexivity|]. split; [apply Hst|].
      split; [reflexivity | discriminate].
  - apply Forall_app in Hv. destruct Hv as [Hxs Hf].
    inversion Hf as [|? ? Hv _]; subst. cbn [snd] in Hv. subst v.
    rewrite len_app in Hlen. change (len [(f, false)]) with 1 in Hlen.
    pose proof (len_nonneg xs) as Hxs0.
    specialize (IH Hxs ltac:(lia)).
    pose proof (collect_votes_well_formed maxlen xs H0 st Hwf) as Hwf'.
    rewrite collect_votes_app, collect_votes_one. cbn [fst snd].
    set (st' := fst (collect_votes maxlen st xs)) in *.
    destruct IH as [(Ht & Hvf & Hnt & Htr) | (Ht & Ht0 & Hout & Hvf & Hrb)].
    + rewrite (unvoiced_vote_in_not_triggered maxlen st' f Hwf' Ht).
      cbn [fst snd triggered voiced_frames]. left.
      split; [reflexivity|]. split; [exact Hvf|]. split.
      * intros Hst. rewrite (Hnt Hst). reflexivity.
      * intros Hst. destruct (Htr Hst) as (k & Hk & Hseg).
        exists k. split; [rewrite length_app; cbn [length]; lia|].
        rewrite Hseg, app_nil_r, map_app, firstn_app.
        replace (k - length (map fst xs))%nat with 0%nat
          by (rewrite length_map; lia).
        cbn [firstn]. now rewrite app_nil_r.
    + unfold collect_frame. rewrite Ht. cbn [negb]. rewrite Hvf, Hrb, Hout.
      rewrite <- pushes_snoc. cbn [app].
      destruct (exceeds (num_unvoiced (pushes maxlen (ring_buffer st)
                                         (xs ++ [(f, false)]))) maxlen);
        cbn [fst snd triggered ring_buffer voiced_frames].
      * left. split; [reflexivity|]. split; [reflexivity|].
        split; [congruence|]. intros _.
        exists (length (xs ++ [(f, false)])).
        split; [rewrite length_app; cbn [length]; lia|].
        rewrite firstn_all2 by (rewrite length_map; lia).
        rewrite map_app, app_assoc. reflexivity.
      * right. split; [reflexivity|]. split; [exact Ht0|].
        split; [reflexivity|]. split; [|reflexivity].
        rewrite map_app, app_assoc. reflexivity.
Qed.

Lemma pushes_full {A : Type} (maxlen : Z) (rb xs : list A) :
  0 <= maxlen -> len rb <= maxlen -> len xs = maxlen ->
  pushes maxlen rb xs = xs.
Proof.
  intros H0 Hrb Hxs. rewrite pushes_last by assumption.
  rewrite length_app. unfold len in Hxs.
  replace (length rb + length xs - Z.to_nat maxlen)%nat with (length rb)
    by lia.
  rewrite skipn_app, Nat.sub_diag, skipn_all. reflexivity.
Qed.

Lemma firstn_split_len {A : Type} (maxlen : Z) (xs : list A) :
  0 <= maxlen <= len xs ->
  len (firstn (Z.to_nat maxlen) xs) = maxlen.
Proof. intros H. unfold len in *. rewrite length_firstn. lia. Qed.

(** X4. A run of voiced frames as long as the ring buffer is never
    missed. After [maxlen] or more frames in a row that the classifier
    votes voiced, whatever came before, the collector is TRIGGERED and all
    the frames of the run are in the segment list, in their order; nothing
    is yielded during the run. *)
Theorem voiced_run_is_captured (maxlen : Z)
    (before run : list (Frame * bool)) :
  1 <= maxlen <= 10000 ->
  Forall (fun p => snd p = true) run -> maxlen <= len run ->
  let st := fst (collect_votes maxlen initial before) in
  snd (collect_votes maxlen st run) = []
  /\ triggered (fst (collect_votes maxlen st run)) = true
  /\ exists pre : list Frame,
       voiced_frames (fst (collect_votes maxlen st run))
       = pre ++ map fst run.
Proof.
  intros HW Hv Hlen st.
  assert (H0 : 0 <= maxlen) by lia.
  pose proof (collect_votes_well_formed maxlen before H0 initial
                (initial_well_formed maxlen H0)) as Hwf.
  fold st in Hwf.
  rewrite <- (firstn_skipn (Z.to_nat maxlen) run) in Hv.
  apply Forall_app in Hv. destruct Hv as [Hv1 Hv2].
  rewrite <- (firstn_skipn (Z.to_nat maxlen) run).
  set (xs1 := firstn (Z.to_nat maxlen) run) in *.
  set (xs2 := skipn (Z.to_nat maxlen) run) in *.
  assert (Hl1 : len xs1 = maxlen) by (apply firstn_split_len; lia).
  destruct (voiced_run_short maxlen st xs1 H0 Hwf Hv1 ltac:(lia))
    as [Hout Hcase].
  pose proof (collect_votes_well_formed maxlen xs1 H0 st Hwf) as Hwf1.
  set (st1 := fst (collect_votes maxlen st xs1)) in *.
  assert (Ht1 : triggered st1 = true
                /\ exists pre, voiced_frames st1 = pre ++ map fst xs1).
  { destruct Hcase as [H | [Ht Hrb]]; [exact H | exfalso].
    rewrite (pushes_full maxlen _ xs1 H0 (proj1 Hwf) Hl1) in Hrb.
    destruct Hwf1 as [_ Hst1]. rewrite Ht, Hrb in Hst1.
    destruct Hst1 as [Hq _].
    rewrite (proj2 (num_voiced_all xs1) Hv1), Hl1 in Hq.
    rewrite (exceeds_full maxlen HW) in Hq. discriminate. }
  destruct Ht1 as [Ht1 (pre & Hpre)].
  destruct (voiced_votes_in_triggered maxlen xs2 H0 Hv2 st1 Hwf1 Ht1)
    as (Hout2 & Ht2 & Hvf2).
  rewrite collect_votes_app. cbn [fst snd]. fold st1.
  rewrite Hout, Hout2. split; [reflexivity|]. split; [exact Ht2|].
  exists pre. rewrite Hvf2, Hpre, map_app, app_assoc. reflexivity.
Qed.

Lemma voiced_run_is_captured_witness :
  1 <= 2 <= 10000
  /\ triggered
       (fst (collect_votes 2
               (fst (collect_votes 2 initial
                       [(mkFrame [x01] f_0_0 f_0_0, false)]))
               [(mkFrame [x02] f_0_0 f_0_0, true);
                (mkFrame [x03] f_0_0 f_0_0, true)]))
     = true.
Proof.
  split; [lia|].
  exact (proj1 (proj2 (voiced_run_is_captured 2
                         [(mkFrame [x01] f_0_0 f_0_0, false)]
                         [(mkFrame [x02] f_0_0 f_0_0, true);
                          (mkFrame [x03] f_0_0 f_0_0, true)]
                         ltac:(lia)
                         ltac:(repeat constructor)
                         ltac:(cbn; lia)))).
Defined.

Lemma unvoiced_run_long (maxlen : Z) (st : state)
    (xs1 xs2 : list (Frame * bool)) :
  1 <= maxlen <= 10000 -> well_formed maxlen st ->
  Forall (fun p => snd p = false) xs1 ->
  Forall (fun p => snd p = false) xs2 -> len xs1 = maxlen ->
  triggered (fst (collect_votes maxlen st (xs1 ++ xs2))) = false
  /\ voiced_frames (fst (collect_votes maxlen st (xs1 ++ xs2))) = []
  /\ (triggered st = false -> snd (collect_votes maxlen st (xs1 ++ xs2)) = [])
  /\ (triggered st = true ->
      exists k : nat,
        (1 <= Z.of_nat k <= maxlen)
        /\ snd (collect_votes maxlen st (xs1 ++ xs2))
           = [join (voiced_frames st ++ firstn k (map fst (xs1 ++ xs2)))]).
Proof.
  intros HW Hwf Hv1 Hv2 Hl1.
  assert (H0 : 0 <= maxlen) by lia.
  pose proof (collect_votes_well_formed maxlen xs1 H0 st Hwf) as Hwf1.
  destruct (unvoiced_run_short maxlen st xs1 H0 Hwf Hv1 ltac:(lia))
    as [(Ht & Hvf & Hnt & Htr) | (Ht & Ht0 & Hout & Hvf & Hrb)].
  - set (st1 := fst (collect_votes maxlen st xs1)) in *.
    destruct (unvoiced_votes_in_not_triggered maxlen xs2 H0 Hv2 st1 Hwf1 Ht)
      as (Hout2 & Ht2 & Hvf2).
    rewrite collect_votes_app. cbn [fst snd].
    fold st1. rewrite Hout2, app_nil_r.
    split; [exact Ht2|]. split; [exact Hvf2|]. split; [exact Hnt|].
    intros Hst. destruct (Htr Hst) as (k & Hk & Hseg).
    exists k. unfold len in Hl1. split; [lia|].
    rewrite Hseg. do 3 f_equal.
    rewrite map_app, firstn_app.
    replace (k - length (map fst xs1))%nat with 0%nat
      by (rewrite length_map; lia).
    cbn [firstn]. now rewrite app_nil_r.
  - exfalso.
    rewrite (pushes_full maxlen _ xs1 H0 (proj1 Hwf) Hl1) in Hrb.
    destruct Hwf1 as [_ Hst1]. rewrite Ht, Hrb in Hst1.
    destruct Hst1 as [Hq _].
    rewrite (proj2 (num_unvoiced_all xs1) Hv1), Hl1 in Hq.
    rewrite (exceeds_full maxlen HW) in Hq. discriminate.
Qed.

(** X5. A run of unvoiced frames as long as the ring buffer always closes
    the segment. After [maxlen] or more frames in a row that the
    classifier votes unvoiced, whatever came before, the collector is
    NOT_TRIGGERED with an empty segment list; if it was TRIGGERED before
    the run it has yielded exactly one buffer during the run, the segment
    up to one of the first [maxlen] frames of the run, and if it was not
    it has yielded nothing. *)
Theorem unvoiced_run_closes_the_segment (maxlen : Z)
    (before run : list (Frame * bool)) :
  1 <= maxlen <= 10000 ->
  Forall (fun p => snd p = false) run -> maxlen <= len run ->
  let st := fst (collect_votes maxlen initial before) in
  triggered (fst (collect_votes maxlen st run)) = false
  /\ voiced_frames (fst (collect_votes maxlen st run)) = []
  /\ (triggered st = false -> snd (collect_votes maxlen st run) = [])
  /\ (triggered st = true ->
      exists k : nat,
        (1 <= Z.of_nat k <= maxlen)
        /\ snd (collect_votes maxlen st run)
           = [join (voiced_frames st ++ firstn k (map fst run))]).
Proof.
  intros HW Hv Hlen st.
  assert (H0 : 0 <= maxlen) by lia.
  pose proof (collect_votes_well_formed maxlen before H0 initial
                (initial_well_formed maxlen H0)) as Hwf.
  fold st in Hwf.
  assert (Hl1 : len (firstn (Z.to_nat maxlen) run) = maxlen)
    by (apply firstn_split_len; lia).
  rewrite <- (firstn_skipn (Z.to_nat maxlen) run) in Hv.
  apply Forall_app in Hv. destruct Hv as [Hv1 Hv2].
  pose proof (unvoiced_run_long maxlen st _ _ HW Hwf Hv1 Hv2 Hl1) as H.
  now rewrite firstn_skipn in H.
Qed.

Lemma unvoiced_run_closes_the_segment_witness :
  1 <= 1 <= 10000
  /\ triggered
       (fst (collect_votes 1
               (fst (collect_votes 1 initial
                       [(mkFrame [x01] f_0_0 f_0_0, true)]))
               [(mkFrame [x02] f_0_0 f_0_0, false)]))
     = false.
Proof.
  split; [lia|].
  exact (proj1 (unvoiced_run_closes_the_segment 1
                  [(mkFrame [x01] f_0_0 f_0_0, true)]
                  [(mkFrame [x02] f_0_0 f_0_0, false)]
                  ltac:(lia)
                  ltac:(repeat constructor)
                  ltac:(cbn; lia))).
Defined.

(** ** The capacity of the ring buffer *)

Lemma binary_round_aux_sign (s : bool) (m e : Z) (l : location) :
  binary_round_aux prec emax s m e l
  = match binary_round_aux prec emax false m e l with
    | S754_zero _ => S754_zero s
    | S754_infinity _ => S754_infinity s
    | S754_nan => S754_nan
    | S754_finite _ m' e' => S754_finite s m' e'
    end.
Proof.
  unfold binary_round_aux.
  destruct (shr_fexp prec emax m e l) as [mrs' e'].
  destruct (shr_fexp prec emax _ e' loc_Exact) as [mrs'' e''].
  destruct (shr_m mrs''); try reflexivity.
  now destruct (e'' <=? emax - prec).
Qed.

(** The quotient of two integers above zero and below [2 ^ 52], rounded to
    binary64 and then truncated, is the quotient of the integer division. *)
Lemma div_core_floor (a b : positive) :
  Zpos a < 2 ^ 52 -> Zpos b < 2 ^ 52 ->
  exists (m2 : positive) (e2 : Z),
    (let '(q, e, l) := SFdiv_core_binary prec emax (Zpos a) 0 (Zpos b) 0 in
     binary_round_aux prec emax false q e l) = S754_finite false m2 e2
    /\ Z.shiftl (Zpos m2) e2 = Zpos a / Zpos b.
Proof.
  intros Ha Hb. unfold SFdiv_core_binary. cbn [Zdigits2].
  pose proof (digits_bounds a) as [Ha1 Ha2].
  pose proof (digits_bounds b) as [Hb1 Hb2].
  set (d1 := Zpos (digits2_pos a)) in *. set (d2 := Zpos (digits2_pos b)) in *.
  assert (Hd1 : 1 <= d1 <= 52).
  { split; [unfold d1; lia|].
    assert (d1 - 1 < 52); [|lia].
    apply (Z.pow_lt_mono_r_iff 2); lia. }
  assert (Hd2 : 1 <= d2 <= 52).
  { split; [unfold d2; lia|].
    assert (d2 - 1 < 52); [|lia].
    apply (Z.pow_lt_mono_r_iff 2); lia. }
  rewrite !Z.add_0_r, fexp_eq.
  replace (Z.min (Z.max (d1 - d2 - 53) (-1074)) (0 - 0)) with (d1 - d2 - 53)
    by lia.
  set (s := 53 + d2 - d1).
  replace (0 - 0 - (d1 - d2 - 53)) with s by (unfold s; lia).
  assert (Hs : 0 < s) by (unfold s; lia).
  destruct s as [|sp|sp] eqn:Es; [lia| |lia]. rewrite <- Es in *.
  rewrite Z.shiftl_mul_pow2 by lia.
  destruct (Z.div_eucl (Zpos a * 2 ^ s) (Zpos b)) as [q r] eqn:Ediv.
  assert (Hq : q = Zpos a * 2 ^ s / Zpos b) by (unfold Z.div; now rewrite Ediv).
  clear Ediv.
  set (A := Zpos a) in *. set (B := Zpos b) in *.
  assert (HB : 0 < B) by (unfold B; lia).
  assert (HA : 0 < A) by (unfold A; lia).
  (* the size of the quotient *)
  assert (Hqlo : 2 ^ 52 <= q).
  { rewrite Hq. apply Z.div_le_lower_bound; [exact HB|].
    apply Z.le_trans with (2 ^ d2 * 2 ^ 52).
    - apply Z.mul_le_mono_nonneg_r; [apply Z.pow_nonneg; lia | lia].
    - apply Z.le_trans with (2 ^ (d1 - 1) * 2 ^ s).
      + rewrite <- !Z.pow_add_r by lia. apply Z.pow_le_mono_r; unfold s; lia.
      + apply Z.mul_le_mono_nonneg_r; [apply Z.pow_nonneg; lia | exact Ha1]. }
  assert (Hqhi : q < 2 ^ 54).
  { rewrite Hq. apply Z.div_lt_upper_bound; [exact HB|].
    apply Z.lt_le_trans with (2 ^ d1 * 2 ^ s).
    - apply Z.mul_lt_mono_pos_r; [apply pow2_pos; lia | exact Ha2].
    - apply Z.le_trans with (2 ^ (d2 - 1) * 2 ^ 54).
      + rewrite <- !Z.pow_add_r by lia. apply Z.pow_le_mono_r; unfold s; lia.
      + apply Z.mul_le_mono_nonneg_r; [apply Z.pow_nonneg; lia | exact Hb1]. }
  assert (Hq0 : 0 < q) by (pose proof (pow2_pos 52 ltac:(lia)); lia).
  destruct q as [|qp|qp]; [lia| |lia].
  pose proof (digits_bounds qp) as [Hq1 Hq2].
  set (dq := Zpos (digits2_pos qp)) in *.
  assert (Hdq : 53 <= dq <= 54).
  { split.
    - assert (52 < dq); [|lia]. apply (Z.pow_lt_mono_r_iff 2); lia.
    - assert (dq - 1 < 54); [|lia]. apply (Z.pow_lt_mono_r_iff 2); lia. }
  set (e' := d1 - d2 - 53) in *.
  assert (He1 : fexp prec emax (Zdigits2 (Zpos qp) + e') = dq + e' - 53).
  { rewrite fexp_eq. cbn [Zdigits2]. fold dq. unfold e'. lia. }
  pose proof (binary_round_aux_spec (Zpos qp) e'
                (new_location (Zpos b) r) ltac:(lia)) as Hspec.
  rewrite He1 in Hspec. specialize (Hspec ltac:(lia)). cbv zeta in Hspec.
  set (dl := dq + e' - 53 - e') in *.
  assert (Hdl : 0 <= dl <= 1) by (unfold dl; lia).
  set (E := s - dl).
  assert (HE : d2 <= E) by (unfold E, s; lia).
  assert (HsE : 2 ^ s = 2 ^ E * 2 ^ dl).
  { rewrite <- Z.pow_add_r by lia. f_equal. unfold E. lia. }
  assert (Hqc : Zpos qp / 2 ^ dl = A * 2 ^ E / B).
  { rewrite Hq, Z.div_div by (try apply pow2_pos; lia).
    rewrite HsE, Z.mul_assoc.
    apply Z.div_mul_cancel_r; [lia|].
    pose proof (pow2_pos dl ltac:(lia)). lia. }
  set (k := A / B).
  pose proof (pow2_pos E ltac:(lia)) as HEpos.
  assert (HBE : B < 2 ^ E).
  { apply Z.lt_le_trans with (2 ^ d2); [exact Hb2|].
    apply Z.pow_le_mono_r; lia. }
  assert (Hk0 : 0 <= k) by (apply Z.div_pos; lia).
  assert (Hklo : k * 2 ^ E <= A * 2 ^ E / B).
  { apply Z.div_le_lower_bound; [exact HB|].
    rewrite Z.mul_assoc. apply Z.mul_le_mono_nonneg_r; [lia|].
    apply Z.mul_div_le. exact HB. }
  assert (Hkhi : A * 2 ^ E / B < (k + 1) * 2 ^ E - 1).
  { apply Z.div_lt_upper_bound; [exact HB|].
    assert (H1 : A + 1 <= B * (k + 1)).
    { pose proof (Z.mul_succ_div_gt A B HB). fold k in H. lia. }
    apply Z.lt_le_trans with ((A + 1) * 2 ^ E - B).
    - lia.
    - replace (B * ((k + 1) * 2 ^ E - 1)) with (B * (k + 1) * 2 ^ E - B)
        by ring.
      apply Z.sub_le_mono_r.
      apply Z.mul_le_mono_nonneg_r; [lia | exact H1]. }
  assert (Hqc1 : 1 <= Zpos qp / 2 ^ dl).
  { apply Z.div_le_lower_bound; [apply pow2_pos; lia|].
    apply Z.le_trans with (2 ^ 52); [|exact Hqlo].
    rewrite Z.mul_1_r. apply Z.pow_le_mono_r; lia. }
  destruct Hspec as (m1 & Hm1 & [[Hz _] | (m2 & e2 & Hm2 & He2 & _ & Hres)]);
    [lia|].
  exists m2, e2.
  assert (He2' : (e2 <=? emax - prec) = true).
  { apply Z.leb_le. unfold emax, prec, e'. unfold e' in He2. lia. }
  rewrite He2' in Hres. split; [exact Hres|].
  assert (HeE : dq + e' - 53 = - E) by (unfold E, dl, s, e'; lia).
  rewrite HeE in *.
  assert (He20 : e2 <= 0) by lia.
  rewrite Z.shiftl_div_pow2 by exact He20.
  assert (Hm1k : m1 / 2 ^ E = k).
  { symmetry. apply (Z.div_unique_pos m1 (2 ^ E) k (m1 - k * 2 ^ E)); [|ring].
    rewrite Hqc in Hm1. lia. }
  rewrite <- Hm1k, <- Hm2.
  replace (2 ^ E) with (2 ^ (- e2) * 2 ^ (e2 - (- E))).
  - symmetry. apply Z.div_mul_cancel_r.
    + pose proof (pow2_pos (- e2) ltac:(lia)). lia.
    + pose proof (pow2_pos (e2 - (- E)) ltac:(lia)). lia.
  - rewrite <- Z.pow_add_r by lia. f_equal. lia.
Qed.

Lemma int_truediv_trunc (a b : Z) :
  b <> 0 -> Z.abs a < 2 ^ 52 -> Z.abs b < 2 ^ 52 ->
  (q <- int_truediv a b ;; int_of_float q) = Ok (a ÷ b).
Proof.
  intros Hb Ha Hb'. unfold int_truediv, bind.
  destruct (b =? 0) eqn:Eb; [apply Z.eqb_eq in Eb; lia|].
  destruct (a =? 0) eqn:Ea.
  - apply Z.eqb_eq in Ea. subst a. cbn [int_of_float].
    now rewrite Z.quot_0_l.
  - apply Z.eqb_neq in Ea.
    destruct (Z.abs a) as [|pa|pa] eqn:Eabs_a; [lia| |lia].
    destruct (Z.abs b) as [|pb|pb] eqn:Eabs_b; [lia| |lia].
    destruct (div_core_floor pa pb Ha Hb') as (m2 & e2 & Hres & Hval).
    destruct (SFdiv_core_binary prec emax (Zpos pa) 0 (Zpos pb) 0)
      as [[q e] l].
    rewrite binary_round_aux_sign, Hres. cbn [int_of_float]. f_equal.
    rewrite Hval, <- Eabs_a, <- Eabs_b.
    rewrite (Z.quot_div a b Hb).
    destruct (a <? 0) eqn:Sa; destruct (b <? 0) eqn:Sb;
      [apply Z.ltb_lt in Sa, Sb | apply Z.ltb_lt in Sa; apply Z.ltb_ge in Sb
       | apply Z.ltb_ge in Sa; apply Z.ltb_lt in Sb
       | apply Z.ltb_ge in Sa, Sb];
      cbn [xorb cond_Zopp].
    + rewrite !Z.sgn_neg by lia. lia.
    + rewrite (Z.sgn_neg a), (Z.sgn_pos b) by lia. lia.
    + rewrite (Z.sgn_pos a), (Z.sgn_neg b) by lia. lia.
    + rewrite !Z.sgn_pos by lia. lia.
Qed.

(** X1. The capacity of the ring buffer. For durations below [2 ^ 52] ms
    in absolute value the rounding of the division does not show:
    [num_padding_frames] is the quotient of [padding_duration_ms] by
    [frame_duration_ms] truncated towards zero. A quotient below zero is
    refused by the deque ([ValueError]) and a frame duration of 0 raises
    [ZeroDivisionError]; in both cases the collector ends before it has
    asked the classifier about a frame. *)
Theorem capacity_is_the_truncated_quotient {V : Type}
    (is_speech : V -> bytes_t -> Z -> V * result bool)
    (sample_rate fd pd : Z) (vad : V) (frames : list Frame) :
  Z.abs fd < 2 ^ 52 -> Z.abs pd < 2 ^ 52 ->
  num_padding_frames fd pd
  = (if fd =? 0 then Raise ZeroDivisionError
     else if pd ÷ fd <? 0 then Raise ValueError
     else Ok (pd ÷ fd))
  /\ (fd = 0 ->
      vad_collector is_speech sample_rate fd pd vad frames
      = mkTrace [] (Raised ZeroDivisionError))
  /\ (fd <> 0 -> pd ÷ fd < 0 ->
      vad_collector is_speech sample_rate fd pd vad frames
      = mkTrace [] (Raised ValueError))
  /\ (0 <= pd < fd -> num_padding_frames fd pd = Ok 0).
Proof.
  intros Hfd Hpd.
  assert (Hnum : num_padding_frames fd pd
                 = (if fd =? 0 then Raise ZeroDivisionError
                    else if pd ÷ fd <? 0 then Raise ValueError
                    else Ok (pd ÷ fd))).
  { destruct (fd =? 0) eqn:E.
    - apply Z.eqb_eq in E. subst fd. unfold num_padding_frames, int_truediv.
      reflexivity.
    - apply Z.eqb_neq in E.
      pose proof (int_truediv_trunc pd fd E Hpd Hfd) as H.
      unfold num_padding_frames. unfold bind in *.
      destruct (int_truediv pd fd) as [q|]; [|discriminate].
      rewrite H. unfold deque_new.
      destruct (pd ÷ fd <? 0) eqn:E1; [reflexivity|].
      apply Z.ltb_ge in E1.
      assert (Hle : pd ÷ fd <= Z.abs pd).
      { rewrite (Z.quot_div pd fd E).
        assert (0 <= Z.abs pd / Z.abs fd <= Z.abs pd).
        { split; [apply Z.div_pos; lia|].
          apply Z.div_le_upper_bound; [lia|]. nia. }
        nia. }
      destruct (PY_SSIZE_T_MAX <? pd ÷ fd) eqn:E2; [|reflexivity].
      apply Z.ltb_lt in E2. unfold PY_SSIZE_T_MAX in E2.
      assert (2 ^ 52 < 2 ^ 63 - 1) by (vm_compute; reflexivity). lia. }
  split; [exact Hnum|]. split; [|split].
  - intros ->. unfold vad_collector. now rewrite Hnum.
  - intros Hnz Hneg. unfold vad_collector. rewrite Hnum.
    apply Z.eqb_neq in Hnz. apply Z.ltb_lt in Hneg. now rewrite Hnz, Hneg.
  - intros Hlt. rewrite Hnum.
    destruct (fd =? 0) eqn:E; [apply Z.eqb_eq in E; lia|].
    rewrite Z.quot_small by lia. reflexivity.
Qed.

Lemma capacity_is_the_truncated_quotient_witness :
  Z.abs 30 < 2 ^ 52 /\ Z.abs 300 < 2 ^ 52
  /\ num_padding_frames 30 300 = Ok 10.
Proof.
  split; [reflexivity|]. split; [reflexivity|].
  exact (proj1 (capacity_is_the_truncated_quotient scripted 16000 30 300
                  [] [] eq_refl eq_refl)).
Defined.

(** ** The collector reads the bytes of the frames only *)

Lemma deque_append_map {A B : Type} (g : A -> B) (maxlen : Z) (d : list A)
    (x : A) :
  map g (deque_append maxlen d x) = deque_append maxlen (map g d) (g x).
Proof.
  unfold deque_append.
  replace (map g d ++ [g x]) with (map g (d ++ [x]))
    by (now rewrite map_app).
  unfold len. rewrite length_map.
  destruct (maxlen <? Z.of_nat (length (d ++ [x]))); [|reflexivity].
  now destruct (d ++ [x]).
Qed.

Lemma filter_snd_map (g : bool -> bool) (rb : list (Frame * bool)) :
  length (filter (fun p => g (snd p)) rb) = length (filter g (map snd rb)).
Proof.
  induction rb as [|[f v] rb IH]; [reflexivity|].
  cbn [filter map snd]. destruct (g v); cbn [length]; now rewrite IH.
Qed.

Lemma num_voiced_snd (rb rb' : list (Frame * bool)) :
  map snd rb = map snd rb' -> num_voiced rb = num_voiced rb'.
Proof.
  intros H. unfold num_voiced, len.
  now rewrite (filter_snd_map (fun b => b) rb),
              (filter_snd_map (fun b => b) rb'), H.
Qed.

Lemma num_unvoiced_snd (rb rb' : list (Frame * bool)) :
  map snd rb = map snd rb' -> num_unvoiced rb = num_unvoiced rb'.
Proof.
  intros H. unfold num_unvoiced, len.
  now rewrite (filter_snd_map negb rb), (filter_snd_map negb rb'), H.
Qed.

Lemma join_bytes (fs gs : list Frame) :
  map bytes fs = map bytes gs -> join fs = join gs.
Proof. intros H. unfold join. now rewrite H. Qed.

Lemma flush_bytes (st1 st2 : state) :
  map bytes (voiced_frames st1) = map bytes (voiced_frames st2) ->
  flush st1 = flush st2.
Proof.
  intros H. unfold flush. rewrite (join_bytes _ _ H).
  destruct (voiced_frames st1), (voiced_frames st2); try discriminate;
    reflexivity.
Qed.

Lemma collect_frame_bytes (maxlen : Z) (st1 st2 : state) (f1 f2 : Frame)
    (v : bool) :
  triggered st1 = triggered st2 ->
  map snd (ring_buffer st1) = map snd (ring_buffer st2) ->
  map (fun p => bytes (fst p)) (ring_buffer st1)
  = map (fun p => bytes (fst p)) (ring_buffer st2) ->
  map bytes (voiced_frames st1) = map bytes (voiced_frames st2) ->
  bytes f1 = bytes f2 ->
  let r1 := collect_frame maxlen st1 f1 v in
  let r2 := collect_frame maxlen st2 f2 v in
  triggered (fst r1) = triggered (fst r2)
  /\ map snd (ring_buffer (fst r1)) = map snd (ring_buffer (fst r2))
  /\ map (fun p => bytes (fst p)) (ring_buffer (fst r1))
     = map (fun p => bytes (fst p)) (ring_buffer (fst r2))
  /\ map bytes (voiced_frames (fst r1)) = map bytes (voiced_frames (fst r2))
  /\ snd r1 = snd r2.
Proof.
  intros Ht Hs Hb Hvf Hf r1 r2. unfold r1, r2, collect_frame.
  rewrite <- Ht.
  assert (Hs' : map snd (deque_append maxlen (ring_buffer st1) (f1, v))
                = map snd (deque_append maxlen (ring_buffer st2) (f2, v))).
  { rewrite !deque_append_map. cbn [snd]. now rewrite Hs. }
  assert (Hb' : map (fun p => bytes (fst p))
                    (deque_append maxlen (ring_buffer st1) (f1, v))
                = map (fun p => bytes (fst p))
                    (deque_append maxlen (ring_buffer st2) (f2, v))).
  { rewrite !deque_append_map. cbn [fst]. now rewrite Hb, Hf. }
  rewrite <- (num_voiced_snd _ _ Hs'), <- (num_unvoiced_snd _ _ Hs').
  destruct (triggered st1); cbn [negb].
  - destruct (exceeds (num_unvoiced _) maxlen);
      cbn [fst snd triggered ring_buffer voiced_frames map].
    + repeat split. f_equal. apply join_bytes.
      rewrite !map_app. cbn [map]. now rewrite Hvf, Hf.
    + repeat split; try assumption.
      rewrite !map_app. cbn [map]. now rewrite Hvf, Hf.
  - destruct (exceeds (num_voiced _) maxlen);
      cbn [fst snd triggered ring_buffer voiced_frames map].
    + repeat split. rewrite !map_app, Hvf. f_equal.
      rewrite !map_map. exact Hb'.
    + repeat split; assumption.
Qed.

Section Bytes.

Context {V : Type}.
Variable is_speech : V -> bytes_t -> Z -> V * result bool.
Variable sample_rate : Z.

Lemma collect_loop_bytes (maxlen : Z) (frames1 : list Frame) :
  forall (frames2 : list Frame) (vad : V) (st1 st2 : state),
    map bytes frames1 = map bytes frames2 ->
    triggered st1 = triggered st2 ->
    map snd (ring_buffer st1) = map snd (ring_buffer st2) ->
    map (fun p => bytes (fst p)) (ring_buffer st1)
    = map (fun p => bytes (fst p)) (ring_buffer st2) ->
    map bytes (voiced_frames st1) = map bytes (voiced_frames st2) ->
    collect_loop is_speech sample_rate maxlen vad st1 frames1
    = collect_loop is_speech sample_rate maxlen vad st2 frames2.
Proof.
  induction frames1 as [|f1 frames1 IH];
    intros [|f2 frames2] vad st1 st2 Hfr Ht Hs Hb Hvf;
    try discriminate; cbn [collect_loop].
  - now apply flush_bytes.
  - cbn [map] in Hfr. injection Hfr as Hf Hfr. rewrite <- Hf.
    destruct (is_speech vad (bytes f1) sample_rate) as [vad' [v|e]];
      [|reflexivity].
    pose proof (collect_frame_bytes maxlen st1 st2 f1 f2 v Ht Hs Hb Hvf Hf)
      as H. cbv zeta in H.
    destruct (collect_frame maxlen st1 f1 v) as [st1' out1].
    destruct (collect_frame maxlen st2 f2 v) as [st2' out2].
    cbn [fst snd] in H. destruct H as (Ht' & Hs' & Hb' & Hvf' & ->).
    f_equal. now apply IH.
Qed.

End Bytes.

(** X12. The collector reads nothing of a frame but its bytes: the
    timestamps and the durations of the frames change neither the calls to
    the classifier nor the buffers yielded, and nothing of them is found
    in the output. *)
Theorem collector_reads_only_the_bytes {V : Type}
    (is_speech : V -> bytes_t -> Z -> V * result bool)
    (sample_rate fd pd : Z) (vad : V) (frames1 frames2 : list Frame) :
  map bytes frames1 = map bytes frames2 ->
  vad_collector is_speech sample_rate fd pd vad frames1
  = vad_collector is_speech sample_rate fd pd vad frames2.
Proof.
  intros H. unfold vad_collector.
  destruct (num_padding_frames fd pd) as [maxlen|e]; [|reflexivity].
  now apply collect_loop_bytes.
Qed.

Lemma collector_reads_only_the_bytes_witness :
  vad_collector scripted 16000 30 30 [Ok true; Ok false]
    [mkFrame [x01] f_0_0 f_0_0; mkFrame [x02] f_0_0 f_0_0]
  = vad_collector scripted 16000 30 30 [Ok true; Ok false]
      [mkFrame [x01] f_2_0 f_1000_0; mkFrame [x02] f_1000_0 f_2_0].
Proof.
  apply collector_reads_only_the_bytes. reflexivity.
Defined.

(** ** The framer and the collector together *)

Lemma run_bytes_framer (fuel : nat) (n : Z) (d : float) (audio : bytes_t)
    (i j : nat) :
  1 <= n ->
  (i < j <= length (yielded (frame_loop fuel n d audio 0 f_0_0)))%nat ->
  run_bytes (yielded (frame_loop fuel n d audio 0 f_0_0)) (i, j)
  = slice audio (Z.of_nat i * n) (Z.of_nat j * n)
  /\ Z.of_nat j * n < len audio.
Proof.
  intros Hn Hij. unfold run_bytes, join. cbn [fst snd].
  rewrite frame_loop_skipn by lia.
  match goal with
  | |- context [firstn _ (yielded (frame_loop ?fl _ _ _ ?o ?t))] =>
      destruct (frame_loop_firstn_concat (j - i) fl n d audio o t)
        as [Hc Hb]
  end.
  - lia.
  - lia.
  - rewrite <- frame_loop_skipn by lia.
    rewrite length_skipn. lia.
  - destruct (Nat.eqb (j - i) 0) eqn:E; [apply Nat.eqb_eq in E; lia|].
    rewrite Hc. split; [|nia].
    replace (Z.of_nat j * n)
      with (Z.of_nat i * n + n * Z.of_nat (j - i)) by nia.
    rewrite slice_in_range by nia. reflexivity.
Qed.

(** X16. The framer and the collector together. When the frames are those
    the framer makes of an audio, with a frame size [n] of 1 or more, the
    buffers of the collector are slices of the audio, from [i * n] to
    [j * n], that follow one another without overlap in the order of the
    audio: each starts at or after the end of the one before. *)
Theorem pipeline_yields_increasing_slices {V : Type}
    (is_speech : V -> bytes_t -> Z -> V * result bool)
    (sample_rate fd pd maxlen : Z) (vad : V)
    (fuel : nat) (fd' sr' n : Z) (d : float) (audio : bytes_t) :
  frame_size fd' sr' = Ok n -> frame_duration n sr' = Ok d -> 1 <= n ->
  num_padding_frames fd pd = Ok maxlen ->
  let frames := yielded (frame_generator fuel fd' audio sr') in
  exists rs : list (nat * nat),
    yielded (vad_collector is_speech sample_rate fd pd vad frames)
    = map (fun r => slice audio (Z.of_nat (fst r) * n) (Z.of_nat (snd r) * n))
          rs
    /\ ordered 0 rs (length frames)
    /\ Forall (fun r => Z.of_nat (snd r) * n < len audio) rs.
Proof.
  intros Hsize Hdur Hn Hw frames.
  destruct (vad_collector_runs is_speech sample_rate fd pd maxlen vad frames Hw)
    as (rs & last & Hy & Ho & _).
  exists (rs ++ last).
  destruct (ordered_bounds _ _ _ Ho) as [_ Hall].
  assert (Hfr : frames = yielded (frame_loop fuel n d audio 0 f_0_0)).
  { unfold frames, frame_generator. now rewrite Hsize, Hdur. }
  split; [|split].
  - rewrite Hy. apply map_ext_in. intros [i j] Hin.
    rewrite Forall_forall in Hall. specialize (Hall _ Hin).
    cbn [fst snd] in *. rewrite Hfr.
    apply run_bytes_framer; [exact Hn|]. rewrite <- Hfr. lia.
  - exact Ho.
  - apply Forall_forall. intros [i j] Hin.
    rewrite Forall_forall in Hall. specialize (Hall _ Hin).
    cbn [fst snd] in *.
    apply (run_bytes_framer fuel n d audio i j Hn). rewrite <- Hfr. lia.
Qed.

Lemma pipeline_yields_increasing_slices_witness :
  frame_size 1 1000 = Ok 2
  /\ num_padding_frames 30 30 = Ok 1
  /\ exists rs : list (nat * nat),
       yielded
         (vad_collector scripted 1000 30 30 [Ok true; Ok false; Ok true]
            (yielded
               (frame_generator 8 1 [x01; x02; x03; x04; x05; x06; x07]
                  1000)))
       = map (fun r =>
                slice [x01; x02; x03; x04; x05; x06; x07]
                      (Z.of_nat (fst r) * 2) (Z.of_nat (snd r) * 2)) rs
       /\ ordered 0 rs
            (length
               (yielded
                  (frame_generator 8 1 [x01; x02; x03; x04; x05; x06; x07]
                     1000)))
       /\ Forall (fun r => Z.of_nat (snd r) * 2
                           < len [x01; x02; x03; x04; x05; x06; x07]) rs.
Proof.
  split; [reflexivity|]. split; [reflexivity|].
  exact (pipeline_yields_increasing_slices scripted 1000 30 30 1
           [Ok true; Ok false; Ok true] 8 1 1000 2
           (S754_finite false 4611686018427388 (-62))
           [x01; x02; x03; x04; x05; x06; x07]
           eq_refl eq_refl ltac:(lia) eq_refl).
Defined.

(** ** A longer input *)

Section Online.

Context {V : Type}.
Variable is_speech : V -> bytes_t -> Z -> V * result bool.
Variable sample_rate : Z.

Lemma votes_app (xs ys : list Frame) :
  forall vad : V,
    votes is_speech sample_rate vad (xs ++ ys)
    = match snd (votes is_speech sample_rate vad xs) with
      | Some e => votes is_speech sample_rate vad xs
      | None =>
          (fst (votes is_speech sample_rate vad xs)
           ++ fst (votes is_speech sample_rate
                     (vad_after is_speech sample_rate vad xs) ys),
           snd (votes is_speech sample_rate
                  (vad_after is_speech sample_rate vad xs) ys))
      end.
Proof.
  induction xs as [|f xs IH]; intros vad; cbn [app votes vad_after fst snd].
  - now destruct (votes is_speech sample_rate vad ys).
  - destruct (is_speech vad (bytes f) sample_rate) as [vad' [speech|e]];
      cbn [fst snd]; [|reflexivity].
    rewrite IH.
    destruct (votes is_speech sample_rate vad' xs) as [vs [e|]];
      cbn [fst snd]; reflexivity.
Qed.

Lemma removelast_prefix {A : Type} (l tail : list A) :
  (length tail <= 1)%nat ->
  exists rest : list A, l = removelast (l ++ tail) ++ rest.
Proof.
  intros Hlen. destruct tail as [|x [|y tail]]; [| |cbn in Hlen; lia].
  - rewrite app_nil_r. destruct l as [|a l] using rev_ind.
    + now exists [].
    + exists [a]. now rewrite removelast_last.
  - exists []. now rewrite removelast_last, app_nil_r.
Qed.

Lemma flush_length (st : state) : (length (yielded (flush st)) <= 1)%nat.
Proof. rewrite flush_yields. destruct (voiced_frames st); cbn; lia. Qed.

End Online.

(** X11. The collector works on line: what it has yielded does not change
    when more frames follow. The buffers yielded for an input, but for the
    last one (which may be the segment that the end of the input cut),
    are the first buffers yielded for any longer input. *)
Theorem longer_input_keeps_the_segments {V : Type}
    (is_speech : V -> bytes_t -> Z -> V * result bool)
    (sample_rate fd pd maxlen : Z) (vad : V) (xs ys : list Frame) :
  num_padding_frames fd pd = Ok maxlen ->
  exists rest : list bytes_t,
    yielded (vad_collector is_speech sample_rate fd pd vad (xs ++ ys))
    = removelast (yielded (vad_collector is_speech sample_rate fd pd vad xs))
      ++ rest.
Proof.
  intros Hw.
  rewrite !(vad_collector_votes is_speech sample_rate fd pd maxlen _ _ Hw).
  rewrite votes_app.
  destruct (snd (votes is_speech sample_rate vad xs)) as [e|] eqn:Ev.
  - rewrite Ev. unfold yield_all. cbn [yielded]. rewrite app_nil_r.
    destruct (snd (collect_votes maxlen initial
                     (fst (votes is_speech sample_rate vad xs))))
      as [|a l] using rev_ind.
    + now exists [].
    + exists [a]. now rewrite removelast_last.
  - cbn [fst snd]. rewrite collect_votes_app. cbn [fst snd].
    unfold yield_all. cbn [yielded].
    set (closed := snd (collect_votes maxlen initial
                          (fst (votes is_speech sample_rate vad xs)))).
    destruct (removelast_prefix closed
                (yielded (flush (fst (collect_votes maxlen initial
                                   (fst (votes is_speech sample_rate vad xs))))))
                (flush_length _)) as [rest Hrest].
    eexists. rewrite Hrest at 1. rewrite <- !app_assoc. reflexivity.
Qed.

Lemma longer_input_keeps_the_segments_witness :
  num_padding_frames 30 30 = Ok 1
  /\ exists rest : list bytes_t,
       yielded
         (vad_collector scripted 16000 30 30
            [Ok true; Ok false; Ok true; Ok true; Ok false]
            ([mkFrame [x01] f_0_0 f_0_0; mkFrame [x02] f_0_0 f_0_0;
              mkFrame [x03] f_0_0 f_0_0]
             ++ [mkFrame [x04] f_0_0 f_0_0; mkFrame [x05] f_0_0 f_0_0]))
       = removelast
           (yielded
              (vad_collector scripted 16000 30 30
                 [Ok true; Ok false; Ok true; Ok true; Ok false]
                 [mkFrame [x01] f_0_0 f_0_0; mkFrame [x02] f_0_0 f_0_0;
                  mkFrame [x03] f_0_0 f_0_0]))
         ++ rest.
Proof.
  split; [reflexivity|].
  exact (longer_input_keeps_the_segments scripted 16000 30 30 1
           [Ok true; Ok false; Ok true; Ok true; Ok false]
           [mkFrame [x01] f_0_0 f_0_0; mkFrame [x02] f_0_0 f_0_0;
            mkFrame [x03] f_0_0 f_0_0]
           [mkFrame [x04] f_0_0 f_0_0; mkFrame [x05] f_0_0 f_0_0] eq_refl).
Defined.

(** ** The framer, outside its usual domain *)

Lemma frame_loop_never_ends (fuel : nat) :
  forall (n : Z) (d : float) (audio : bytes_t) (off : Z) (ts : float),
    n <= 0 -> off + n < len audio ->
    ended (frame_loop fuel n d audio off ts) = Running
    /\ length (yielded (frame_loop fuel n d audio off ts)) = fuel.
Proof.
  induction fuel as [|fuel IH]; intros n d audio off ts Hn Hoff;
    cbn [frame_loop];
    destruct (off + n <? len audio) eqn:E;
    try (apply Z.ltb_ge in E; lia).
  - now split.
  - unfold yield. cbn [ended yielded length].
    destruct (IH n d audio (off + n) (fadd ts d) Hn ltac:(lia)) as [He Hl].
    split; [exact He | now rewrite Hl].
Qed.

Lemma frame_loop_empty_frames (fuel : nat) :
  forall (d : float) (audio : bytes_t) (ts : float),
    Forall (fun fr => bytes fr = [])
           (yielded (frame_loop fuel 0 d audio 0 ts)).
Proof.
  induction fuel as [|fuel IH]; intros d audio ts; cbn [frame_loop].
  - constructor.
  - destruct (0 + 0 <? len audio); [|constructor].
    unfold yield. cbn [yielded]. constructor.
    + cbn [bytes]. unfold slice. now rewrite Z.sub_diag.
    + apply IH.
Qed.

(** X13. With a frame size of 0 or less (a frame duration of 0 ms, or a
    product of the rate and the duration below one byte) the framer does
    not end: the offset does not advance, and whatever the number of
    frames taken from it there is one more. With a frame size of 0 all
    these frames are empty. Only an empty audio with a frame size of 0
    ends at once. *)
Theorem framer_never_ends (fd sr n : Z) (d : float) (audio : bytes_t) :
  frame_size fd sr = Ok n -> frame_duration n sr = Ok d ->
  n <= 0 -> (n < 0 \/ audio <> []) ->
  forall fuel : nat,
    ended (frame_generator fuel fd audio sr) = Running
    /\ length (yielded (frame_generator fuel fd audio sr)) = fuel
    /\ (n = 0 ->
        Forall (fun fr => bytes fr = [])
               (yielded (frame_generator fuel fd audio sr))).
Proof.
  intros Hsize Hdur Hn Hne fuel. unfold frame_generator.
  rewrite Hsize, Hdur.
  assert (Hoff : 0 + n < len audio).
  { destruct Hne as [Hlt | Hne].
    - pose proof (len_nonneg audio). lia.
    - destruct audio; [congruence|]. rewrite len_cons.
      pose proof (len_nonneg audio). lia. }
  destruct (frame_loop_never_ends fuel n d audio 0 f_0_0 Hn Hoff) as [He Hl].
  split; [exact He|]. split; [exact Hl|].
  intros ->. apply frame_loop_empty_frames.
Qed.

Lemma framer_never_ends_witness :
  frame_size 0 16000 = Ok 0
  /\ ended (frame_generator 100 0 [x01; x02] 16000) = Running
  /\ length (yielded (frame_generator 100 0 [x01; x02] 16000)) = 100%nat.
Proof.
  split; [reflexivity|].
  assert (Hne : 0 < 0 \/ [x01; x02] <> []) by (right; discriminate).
  destruct (framer_never_ends 0 16000 0 (S754_zero false) [x01; x02]
              eq_refl eq_refl ltac:(lia) Hne 100%nat) as (He & Hl & _).
  exact (conj He Hl).
Defined.

(** X14. With a sample rate of 0 the framer raises [ZeroDivisionError] when
    it is started, before it has yielded a frame: the frame size is 0 and
    the duration of a frame divides by the sample rate. *)
Theorem framer_zero_rate_raises (fd : Z) (f : float) (audio : bytes_t)
    (fuel : nat) :
  0 <= fd -> float_of_int fd = Ok f ->
  frame_size fd 0 = Ok 0
  /\ frame_generator fuel fd audio 0 = mkTrace [] (Raised ZeroDivisionError).
Proof.
  intros Hfd Hf.
  assert (Hsize : frame_size fd 0 = Ok 0).
  { unfold frame_size, bind. rewrite Hf.
    destruct (Z.eq_dec fd 0) as [-> | Hnz].
    - vm_compute in Hf. injection Hf as <-. reflexivity.
    - destruct (float_of_int_pos fd f ltac:(lia) Hf) as (Pf & Hlo & Hhi).
      pose proof (scaled_below_max f Pf) as Hmax.
      assert (P1000 : pos_finite f_1000_0 = true) by reflexivity.
      assert (S1000 : scaled f_1000_0 = 1000 * 2 ^ 1074)
        by (vm_compute; reflexivity).
      destruct (fdiv_bounds f f_1000_0 Pf P1000) as (Pq & _).
      + rewrite S1000.
        apply Z.le_trans with (2 ^ 1074 * 2 ^ 1074).
        * apply Z.mul_le_mono_nonneg_r; [apply Z.pow_nonneg; lia|].
          apply Z.le_trans with (2 ^ 10); [vm_compute; discriminate|].
          apply Z.pow_le_mono_r; lia.
        * apply Z.mul_le_mono_nonneg_r; [apply Z.pow_nonneg; lia | exact Hlo].
      + rewrite S1000. apply Z.lt_le_trans with (2 ^ 2098); [exact Hmax|].
        replace (2 ^ 2098) with (2 * 2 ^ 1074 * 2 ^ 1023).
        * apply Z.mul_le_mono_nonneg_r; [apply Z.pow_nonneg; lia|].
          apply Z.mul_le_mono_nonneg_r; [apply Z.pow_nonneg; lia | lia].
        * rewrite <- Z.mul_assoc, <- Z.pow_add_r by lia.
          change 2 with (2 ^ 1) at 1. rewrite <- Z.pow_add_r by lia.
          reflexivity.
      + unfold float_truediv. cbn [is_zero f_1000_0].
        destruct (pos_finite_inv _ Pq) as (m & e & -> & _).
        reflexivity. }
  split; [exact Hsize|].
  unfold frame_generator. rewrite Hsize. reflexivity.
Qed.

Lemma framer_zero_rate_raises_witness :
  0 <= 30
  /\ frame_generator 5 30 [x01; x02; x03] 0
     = mkTrace [] (Raised ZeroDivisionError).
Proof.
  split; [lia|].
  exact (proj2 (framer_zero_rate_raises 30 (S754_finite false 8444249301319680 (-48))
                  [x01; x02; x03] 5 ltac:(lia) eq_refl)).
Defined.

Lemma frame_size_agrees_grid :
  forallb (fun sr =>
             forallb (fun k => frame_size_agrees sr (Z.of_nat k))
                     (seq 1 (Z.to_nat 1000)))
          [8000; 16000; 32000] = true.
Proof. vm_compute. reflexivity. Qed.

(** X15. For the sample rates 8000, 16000 and 32000 and a frame duration of
    1 to 1000 ms, the rounding of the binary64 operations does not show:
    the frame size is the exact number of bytes [2 * (sample_rate / 1000)
    * frame_duration_ms], an even number (whole 16-bit samples), and the
    duration of a frame is the float [frame_duration_ms / 1000.0]. It
    shows elsewhere: at 100 Hz and 145 ms the frame size is 28, not 29. *)
Theorem frame_size_standard_rates (sr fd : Z) :
  In sr [8000; 16000; 32000] -> 1 <= fd <= 1000 ->
  frame_size fd sr = Ok (2 * (sr / 1000) * fd)
  /\ (exists d : float,
        frame_duration (2 * (sr / 1000) * fd) sr = Ok d
        /\ (f <- float_of_int fd ;; float_truediv f f_1000_0) = Ok d)
  /\ frame_size 145 100 = Ok 28.
Proof.
  intros Hsr Hfd.
  pose proof frame_size_agrees_grid as H.
  rewrite forallb_forall in H. specialize (H sr Hsr).
  rewrite forallb_forall in H. specialize (H (Z.to_nat fd)).
  rewrite Z2Nat.id in H by lia.
  specialize (H ltac:(apply in_seq; lia)).
  unfold frame_size_agrees in H.
  destruct (frame_size fd sr) as [n|]; [|discriminate].
  apply andb_prop in H. destruct H as [Hn Hd].
  apply Z.eqb_eq in Hn. subst n. split; [reflexivity|]. split.
  - destruct (frame_duration (2 * (sr / 1000) * fd) sr) as [d|];
      [|discriminate].
    destruct (f <- float_of_int fd ;; float_truediv f f_1000_0) as [q|];
      [|discriminate].
    exists d. split; [reflexivity|]. f_equal.
    destruct d as [s|s| |s m e], q as [s'|s'| |s' m' e']; cbn in Hd;
      try discriminate.
    + apply Bool.eqb_prop in Hd. now subst.
    + apply Bool.eqb_prop in Hd. now subst.
    + reflexivity.
    + apply andb_prop in Hd. destruct Hd as [Hd He].
      apply andb_prop in Hd. destruct Hd as [Hs Hm].
      apply Bool.eqb_prop in Hs. apply Pos.eqb_eq in Hm. apply Z.eqb_eq in He.
      now subst.
  - reflexivity.
Qed.

Lemma frame_size_standard_rates_witness :
  In 16000 [8000; 16000; 32000]
  /\ 1 <= 30 <= 1000
  /\ frame_size 30 16000 = Ok 960.
Proof.
  split; [right; left; reflexivity|]. split; [lia|].
  exact (proj1 (frame_size_standard_rates 16000 30
                  ltac:(right; left; reflexivity) ltac:(lia))).
Defined.

(** ** Sums of integers in binary64 *)

Lemma shr_iter_exact (n : positive) :
  forall m0 : positive,
    Pos.iter shr_1
      {| shr_m := Zpos (Pos.iter xO m0 n); shr_r := false; shr_s := false |} n
    = {| shr_m := Zpos m0; shr_r := false; shr_s := false |}.
Proof.
  induction n as [|n IH] using Pos.peano_ind; intros m0.
  - reflexivity.
  - rewrite Pos.iter_succ.
    replace (Pos.iter xO m0 (Pos.succ n)) with (Pos.iter xO (xO m0) n)
      by (now rewrite Pos.iter_succ_r).
    now rewrite IH.
Qed.

Lemma pos_of_shift (m m0 : positive) (n : positive) :
  Zpos m = Zpos m0 * 2 ^ Zpos n -> m = Pos.iter xO m0 n.
Proof.
  intros H. apply Pos2Z.inj. now rewrite iter_xO_val.
Qed.

(** A mantissa that is one of 53 digits followed by zeros is rounded to
    that one: nothing is lost. *)
Lemma binary_round_aux_exact (s : bool) (m m0 : positive) (e e0 : Z) :
  e <= e0 -> Zpos m = Zpos m0 * 2 ^ (e0 - e) ->
  Zpos (digits2_pos m0) = 53 -> -1074 <= e0 <= 971 ->
  binary_round_aux prec emax s (Zpos m) e loc_Exact = S754_finite s m0 e0.
Proof.
  intros He Hm Hd He0.
  assert (Hdm : Zpos (digits2_pos m) = 53 + (e0 - e))
    by (rewrite <- Hd; apply digits_shift; [lia | exact Hm]).
  assert (Hf0 : fexp prec emax (Zdigits2 (Zpos m0) + e0) - e0 = 0).
  { rewrite fexp_eq. cbn [Zdigits2]. lia. }
  assert (Hsecond : shr_fexp prec emax (Zpos m0) e0 loc_Exact
                    = ({| shr_m := Zpos m0; shr_r := false; shr_s := false |},
                       e0)).
  { unfold shr_fexp. rewrite Hf0. reflexivity. }
  assert (Hfirst : shr_fexp prec emax (Zpos m) e loc_Exact
                   = ({| shr_m := Zpos m0; shr_r := false; shr_s := false |},
                      e0)).
  { unfold shr_fexp.
    replace (fexp prec emax (Zdigits2 (Zpos m) + e) - e) with (e0 - e).
    2:{ rewrite fexp_eq. cbn [Zdigits2]. lia. }
    destruct (e0 - e) as [|n|n] eqn:E; [| |lia].
    - unfold shr. replace e0 with e by lia. f_equal. cbn [shr_record_of_loc]. f_equal.
      rewrite Hm, Z.pow_0_r. lia.
    - unfold shr. cbn [shr_record_of_loc]. rewrite iter_pos_iter.
      rewrite (pos_of_shift m m0 n Hm), shr_iter_exact. f_equal. lia. }
  unfold binary_round_aux. rewrite Hfirst.
  cbn [shr_m loc_of_shr_record round_nearest_even]. rewrite Hsecond.
  cbn [shr_m].
  replace (e0 <=? emax - prec) with true; [reflexivity|].
  symmetry. apply Z.leb_le. unfold emax, prec. lia.
Qed.

(** The float of an integer below [2 ^ 53], whatever the exponent it is
    written with: its digits, moved up to the 53 digits of the format. *)
Lemma binary_round_exact (s : bool) (M v : positive) (e : Z) :
  -1000 <= e <= 0 -> Zpos M = Zpos v * 2 ^ (- e) -> Zpos v < 2 ^ 53 ->
  exists m0 : positive,
    Zpos m0 = Zpos v * 2 ^ (53 - Zpos (digits2_pos v))
    /\ binary_round prec emax s M e
       = S754_finite s m0 (Zpos (digits2_pos v) - 53).
Proof.
  intros He HM Hv.
  pose proof (digits_bounds v) as [Vlo Vhi].
  set (dv := Zpos (digits2_pos v)) in *.
  assert (Hdv : 1 <= dv <= 53).
  { split; [unfold dv; lia|].
    assert (dv - 1 < 53); [|lia]. apply (Z.pow_lt_mono_r_iff 2); lia. }
  assert (Hpos : 0 < Zpos v * 2 ^ (53 - dv)).
  { pose proof (pow2_pos (53 - dv) ltac:(lia)). lia. }
  destruct (Zpos v * 2 ^ (53 - dv)) as [|m0|m0] eqn:Em0; [lia| |lia].
  exists m0. split; [reflexivity|].
  assert (Hd0 : Zpos (digits2_pos m0) = 53).
  { rewrite (digits_shift v m0 (53 - dv)); [fold dv; lia | lia|].
    now rewrite Em0. }
  assert (HdM : Zpos (digits2_pos M) = dv + - e)
    by (apply digits_shift; [lia | exact HM]).
  unfold binary_round. rewrite HdM.
  replace (fexp prec emax (dv + - e + e)) with (dv - 53)
    by (rewrite fexp_eq; lia).
  unfold shl_align.
  destruct (dv - 53 - e) as [|p|p] eqn:E.
  - apply binary_round_aux_exact; try lia.
    rewrite <- Em0, HM, <- Z.mul_assoc, <- Z.pow_add_r by lia.
    do 2 f_equal. lia.
  - apply binary_round_aux_exact; try lia.
    rewrite <- Em0, HM, <- Z.mul_assoc, <- Z.pow_add_r by lia.
    do 2 f_equal. lia.
  - apply binary_round_aux_exact; try lia.
    rewrite iter_xO_val, HM, <- Em0, <- !Z.mul_assoc, <- !Z.pow_add_r by lia.
    do 2 f_equal. lia.
Qed.

Lemma round_int_exact (z : Z) :
  z <> 0 -> Z.abs z < 2 ^ 53 ->
  exists (m0 : positive) (v : positive),
    Zpos v = Z.abs z
    /\ Zpos m0 = Zpos v * 2 ^ (53 - Zpos (digits2_pos v))
    /\ round_int z = S754_finite (z <? 0) m0 (Zpos (digits2_pos v) - 53).
Proof.
  intros Hz Hlt. unfold round_int, binary_normalize.
  destruct z as [|v|v]; [lia| |].
  - destruct (binary_round_exact false v v 0 ltac:(lia)
                ltac:(cbn; lia) Hlt) as (m0 & Hm0 & Hr).
    exists m0, v. split; [reflexivity|]. split; [exact Hm0 | exact Hr].
  - destruct (binary_round_exact true v v 0 ltac:(lia)
                ltac:(cbn; lia) Hlt) as (m0 & Hm0 & Hr).
    exists m0, v. split; [reflexivity|]. split; [exact Hm0 | exact Hr].
Qed.

(** The sum of two integers below [2 ^ 52], made in binary64, is exact. *)
Lemma fadd_exact (l r : Z) :
  Z.abs l < 2 ^ 52 -> Z.abs r < 2 ^ 52 ->
  fadd (round_int l) (round_int r) = round_int (l + r).
Proof.
  intros Hl Hr.
  assert (H53 : 2 ^ 53 = 2 * 2 ^ 52) by reflexivity.
  destruct (Z.eq_dec l 0) as [-> | Hl0].
  { change (round_int 0) with (S754_zero false). cbn [Z.add].
    unfold fadd, SFadd.
    destruct (Z.eq_dec r 0) as [-> | Hr0]; [reflexivity|].
    destruct (round_int_exact r Hr0 ltac:(lia)) as (m0 & v & _ & _ & ->).
    reflexivity. }
  destruct (Z.eq_dec r 0) as [-> | Hr0].
  { change (round_int 0) with (S754_zero false). rewrite Z.add_0_r.
    unfold fadd, SFadd.
    destruct (round_int_exact l Hl0 ltac:(lia)) as (m0 & v & _ & _ & ->).
    reflexivity. }
  destruct (round_int_exact l Hl0 ltac:(lia)) as (ml & vl & Hvl & Hml & ->).
  destruct (round_int_exact r Hr0 ltac:(lia)) as (mr & vr & Hvr & Hmr & ->).
  pose proof (digits_bounds vl) as [Ll Lh].
  pose proof (digits_bounds vr) as [Rl Rh].
  set (dl := Zpos (digits2_pos vl)) in *.
  set (dr := Zpos (digits2_pos vr)) in *.
  assert (Hdl : 1 <= dl <= 52).
  { split; [unfold dl; lia|].
    assert (dl - 1 < 52); [|lia]. apply (Z.pow_lt_mono_r_iff 2); lia. }
  assert (Hdr : 1 <= dr <= 52).
  { split; [unfold dr; lia|].
    assert (dr - 1 < 52); [|lia]. apply (Z.pow_lt_mono_r_iff 2); lia. }
  unfold fadd, SFadd.
  set (ez := Z.min (dl - 53) (dr - 53)).
  assert (Hez : -52 <= ez <= -1) by (unfold ez; lia).
  assert (Hal : Zpos (fst (shl_align ml (dl - 53) ez)) = Zpos vl * 2 ^ (- ez)).
  { rewrite shl_align_val by (unfold ez; lia).
    rewrite Hml, <- Z.mul_assoc, <- Z.pow_add_r by (unfold ez; lia).
    do 2 f_equal. lia. }
  assert (Har : Zpos (fst (shl_align mr (dr - 53) ez)) = Zpos vr * 2 ^ (- ez)).
  { rewrite shl_align_val by (unfold ez; lia).
    rewrite Hmr, <- Z.mul_assoc, <- Z.pow_add_r by (unfold ez; lia).
    do 2 f_equal. lia. }
  set (al := fst (shl_align ml (dl - 53) ez)) in *.
  set (ar := fst (shl_align mr (dr - 53) ez)) in *.
  assert (Hsum : cond_Zopp (l <? 0) (Zpos al) + cond_Zopp (r <? 0) (Zpos ar)
                 = (l + r) * 2 ^ (- ez)).
  { assert (Hcl : cond_Zopp (l <? 0) (Zpos al) = l * 2 ^ (- ez)).
    { rewrite Hal, Hvl. unfold cond_Zopp.
      destruct (l <? 0) eqn:E;
        [apply Z.ltb_lt in E | apply Z.ltb_ge in E].
      - rewrite Z.abs_neq by lia. ring.
      - rewrite Z.abs_eq by lia. ring. }
    assert (Hcr : cond_Zopp (r <? 0) (Zpos ar) = r * 2 ^ (- ez)).
    { rewrite Har, Hvr. unfold cond_Zopp.
      destruct (r <? 0) eqn:E;
        [apply Z.ltb_lt in E | apply Z.ltb_ge in E].
      - rewrite Z.abs_neq by lia. ring.
      - rewrite Z.abs_eq by lia. ring. }
    rewrite Hcl, Hcr. ring. }
  rewrite Hsum.
  pose proof (pow2_pos (- ez) ltac:(lia)) as Hp.
  destruct (Z.eq_dec (l + r) 0) as [H0 | Hn0].
  { rewrite H0. reflexivity. }
  destruct (round_int_exact (l + r) Hn0 ltac:(lia))
    as (m0 & v & Hv & Hm0 & ->).
  unfold binary_normalize.
  destruct ((l + r) * 2 ^ (- ez)) as [|M|M] eqn:EM;
    [apply Z.mul_eq_0 in EM; lia| |].
  - assert (Hpos : 0 < l + r).
    { destruct (Z.lt_trichotomy (l + r) 0) as [H|[H|H]]; [|lia|exact H].
      pose proof (Z.mul_neg_pos _ _ H Hp). lia. }
    destruct (binary_round_exact false M v ez ltac:(lia)) as (m0' & Hm0' & ->).
    + rewrite Hv, Z.abs_eq by lia. lia.
    + rewrite Hv. lia.
    + replace (l + r <? 0) with false by (symmetry; apply Z.ltb_ge; lia).
      f_equal. apply Pos2Z.inj. now rewrite Hm0, Hm0'.
  - assert (Hneg : l + r < 0).
    { destruct (Z.lt_trichotomy (l + r) 0) as [H|[H|H]]; [exact H|lia|].
      pose proof (Z.mul_pos_pos _ _ H Hp). lia. }
    destruct (binary_round_exact true M v ez ltac:(lia)) as (m0' & Hm0' & ->).
    + rewrite Hv, Z.abs_neq by lia. lia.
    + rewrite Hv. lia.
    + replace (l + r <? 0) with true by (symmetry; apply Z.ltb_lt; lia).
      f_equal. apply Pos2Z.inj. now rewrite Hm0, Hm0'.
Qed.

(** ** Arrays of [int16] *)

Lemma list_ind_2 {A : Type} (P : list A -> Prop) :
  P [] -> (forall x, P [x]) ->
  (forall x y l, P l -> P (x :: y :: l)) ->
  forall l, P l.
Proof.
  intros H0 H1 H2.
  assert (H : forall l, P l /\ forall x, P (x :: l)).
  { induction l as [|y l [IH1 IH2]]; split; auto. }
  intros l. apply H.
Qed.

Lemma byte_val_range (b : byte) : 0 <= byte_val b <= 255.
Proof.
  unfold byte_val. pose proof (Byte.to_N_bounded b). lia.
Qed.

Lemma byte_of_val_val (b : byte) : byte_of_val (byte_val b) = b.
Proof.
  unfold byte_of_val, byte_val. now rewrite N2Z.id, Byte.of_to_N.
Qed.

Lemma byte_val_of_val (z : Z) : 0 <= z <= 255 -> byte_val (byte_of_val z) = z.
Proof.
  intros Hz. unfold byte_of_val, byte_val.
  destruct (Byte.of_N (Z.to_N z)) as [b|] eqn:E.
  - apply Byte.to_of_N in E. rewrite E. lia.
  - apply Byte.of_N_None_iff in E. lia.
Qed.

Lemma int16_of_bytes_range (lo hi : byte) :
  -32768 <= int16_of_bytes lo hi <= 32767.
Proof.
  unfold int16_of_bytes.
  pose proof (byte_val_range lo). pose proof (byte_val_range hi).
  destruct (byte_val lo + 256 * byte_val hi <? 32768) eqn:E;
    [apply Z.ltb_lt in E | apply Z.ltb_ge in E]; lia.
Qed.

Lemma bytes_of_int16_of_bytes (lo hi : byte) :
  bytes_of_int16 (int16_of_bytes lo hi) = [lo; hi].
Proof.
  unfold bytes_of_int16, int16_of_bytes.
  pose proof (byte_val_range lo) as Hlo. pose proof (byte_val_range hi) as Hhi.
  set (u := byte_val lo + 256 * byte_val hi).
  assert (Hu : (if u <? 32768 then u else u - 65536) mod 65536 = u).
  { destruct (u <? 32768).
    - apply Z.mod_small. unfold u. lia.
    - symmetry. apply (Z.mod_unique _ _ (-1)); unfold u; lia. }
  rewrite Hu.
  assert (H1 : u mod 256 = byte_val lo).
  { symmetry. apply (Z.mod_unique _ _ (byte_val hi)); unfold u; lia. }
  assert (H2 : u / 256 = byte_val hi).
  { symmetry. apply (Z.div_unique _ _ _ (byte_val lo)); unfold u; lia. }
  now rewrite H1, H2, !byte_of_val_val.
Qed.

Lemma int16_of_bytes_of_int16 (v : Z) :
  -32768 <= v <= 32767 ->
  match bytes_of_int16 v with
  | [lo; hi] => int16_of_bytes lo hi = v
  | _ => False
  end.
Proof.
  intros Hv. unfold bytes_of_int16, int16_of_bytes.
  set (u := v mod 65536).
  assert (Hu : 0 <= u < 65536) by (apply Z.mod_pos_bound; lia).
  pose proof (Z.mod_pos_bound u 256 ltac:(lia)) as Hm.
  assert (Hd : 0 <= u / 256 <= 255).
  { split; [apply Z.div_pos; lia|].
    assert (u / 256 < 256); [|lia]. apply Z.div_lt_upper_bound; lia. }
  rewrite !byte_val_of_val by lia.
  pose proof (Z.div_mod u 256 ltac:(lia)) as Hdm.
  replace (u mod 256 + 256 * (u / 256)) with u by lia.
  destruct (Z.le_gt_cases 0 v) as [Hpos|Hneg].
  - assert (Huv : u = v) by (apply Z.mod_small; lia).
    rewrite Huv. replace (v <? 32768) with true; [reflexivity|].
    symmetry. apply Z.ltb_lt. lia.
  - assert (Huv : u = v + 65536).
    { symmetry. apply (Z.mod_unique _ _ (-1)); lia. }
    rewrite Huv. replace (v + 65536 <? 32768) with false; [lia|].
    symmetry. apply Z.ltb_ge. lia.
Qed.

Lemma even_len_2 {A : Type} (x y : A) (l : list A) :
  Z.even (len (x :: y :: l)) = Z.even (len l).
Proof.
  rewrite !len_cons. replace (1 + (1 + len l)) with (len l + 2 * 1) by lia.
  now rewrite Z.even_add_mul_2.
Qed.

Lemma even_len_1 {A : Type} (x : A) : Z.even (len [x]) = false.
Proof. reflexivity. Qed.

Lemma tobytes_int16_array (b : bytes_t) :
  Z.even (len b) = true -> tobytes (int16_array b) = b.
Proof.
  induction b as [|x|lo hi b IH] using list_ind_2; intros He.
  - reflexivity.
  - discriminate.
  - rewrite even_len_2 in He. cbn [int16_array]. unfold tobytes in *.
    cbn [map concat]. rewrite bytes_of_int16_of_bytes, IH by exact He.
    reflexivity.
Qed.

Lemma int16_array_tobytes (a : list Z) :
  Forall (fun v => -32768 <= v <= 32767) a -> int16_array (tobytes a) = a.
Proof.
  induction 1 as [|v a Hv _ IH]; [reflexivity|].
  unfold tobytes in *. cbn [map concat].
  pose proof (int16_of_bytes_of_int16 v Hv) as H.
  destruct (bytes_of_int16 v) as [|lo [|hi [|x t]]]; try contradiction.
  cbn [app int16_array]. now rewrite H, IH.
Qed.

Lemma len_tobytes (a : list Z) : len (tobytes a) = 2 * len a.
Proof.
  induction a as [|v a IH]; [reflexivity|].
  unfold tobytes in *. cbn [map concat]. rewrite len_app, IH, len_cons.
  unfold bytes_of_int16. rewrite !len_cons.
  change (len (@nil byte)) with 0. lia.
Qed.

Lemma len_int16_array (b : bytes_t) :
  Z.even (len b) = true -> 2 * len (int16_array b) = len b.
Proof.
  induction b as [|x|lo hi b IH] using list_ind_2; intros He.
  - reflexivity.
  - discriminate.
  - rewrite even_len_2 in He. cbn [int16_array]. rewrite !len_cons.
    specialize (IH He). lia.
Qed.

Lemma int16_array_range (b : bytes_t) :
  Forall (fun v => -32768 <= v <= 32767) (int16_array b).
Proof.
  induction b as [|x|lo hi b IH] using list_ind_2; cbn [int16_array];
    try constructor; [apply int16_of_bytes_range | exact IH].
Qed.

Lemma len_rows (a : list Z) :
  Z.even (len a) = true -> 2 * len (rows a) = len a.
Proof.
  induction a as [|x|l r a IH] using list_ind_2; intros He.
  - reflexivity.
  - discriminate.
  - rewrite even_len_2 in He. cbn [rows]. rewrite !len_cons.
    specialize (IH He). lia.
Qed.

Lemma rows_range (a : list Z) :
  Forall (fun v => -32768 <= v <= 32767) a ->
  Forall (fun row => -32768 <= fst row <= 32767 /\ -32768 <= snd row <= 32767)
         (rows a).
Proof.
  induction a as [|x|l r a IH] using list_ind_2; intros H; cbn [rows];
    try constructor.
  - inversion H as [|? ? Hl H']; subst. inversion H' as [|? ? Hr H'']; subst.
    now split.
  - inversion H as [|? ? Hl H']; subst. inversion H' as [|? ? Hr H'']; subst.
    now apply IH.
Qed.

(** ** The mean of two samples *)

Lemma div_core_by_two (m0 : positive) (e0 : Z) :
  Zpos (digits2_pos m0) = 53 -> -1000 <= e0 ->
  SFdiv_core_binary prec emax (Zpos m0) e0 4503599627370496 (-51)
  = (2 * Zpos m0, e0 - 2, loc_Exact).
Proof.
  intros Hd He. unfold SFdiv_core_binary. cbn [Zdigits2]. rewrite Hd.
  change (Zpos (digits2_pos 4503599627370496)) with 53.
  rewrite fexp_eq.
  replace (Z.min (Z.max (53 + e0 - (53 + -51) - 53) (-1074)) (e0 - -51))
    with (e0 - 2) by lia.
  replace (e0 - -51 - (e0 - 2)) with 53 by lia.
  rewrite Z.shiftl_mul_pow2 by lia.
  assert (Hq : (Zpos m0 * 2 ^ 53) / 4503599627370496 = 2 * Zpos m0).
  { symmetry. apply (Z.div_unique _ _ _ 0); [lia|].
    change (2 ^ 53) with (4503599627370496 * 2). ring. }
  assert (Hr : (Zpos m0 * 2 ^ 53) mod 4503599627370496 = 0).
  { symmetry. apply (Z.mod_unique _ _ (2 * Zpos m0)); [lia|].
    change (2 ^ 53) with (4503599627370496 * 2). ring. }
  unfold Z.div in Hq. unfold Z.modulo in Hr.
  destruct (Z.div_eucl (Zpos m0 * 2 ^ 53) 4503599627370496) as [q r].
  subst q r. reflexivity.
Qed.

(** The half of an integer below [2 ^ 53] in binary64, truncated: the
    division by [2.0] is exact. *)
Lemma half_exact (s : Z) :
  Z.abs s < 2 ^ 53 ->
  int_of_float (SFdiv prec emax (round_int s) f_2_0) = Ok (s ÷ 2).
Proof.
  intros Hs.
  destruct (Z.eq_dec s 0) as [-> | Hs0]; [reflexivity|].
  destruct (round_int_exact s Hs0 Hs) as (m0 & v & Hv & Hm0 & ->).
  pose proof (digits_bounds v) as [Vlo Vhi].
  set (dv := Zpos (digits2_pos v)) in *.
  assert (Hdv : 1 <= dv <= 53).
  { split; [unfold dv; lia|].
    assert (dv - 1 < 53); [|lia]. apply (Z.pow_lt_mono_r_iff 2); lia. }
  assert (Hd0 : Zpos (digits2_pos m0) = 53).
  { rewrite (digits_shift v m0 (53 - dv)); [fold dv; lia | lia | exact Hm0]. }
  unfold SFdiv, f_2_0.
  rewrite (div_core_by_two m0 (dv - 53) Hd0 ltac:(lia)).
  rewrite xorb_false_r.
  assert (H2 : 2 * Zpos m0 = Zpos (m0~0)) by reflexivity.
  rewrite H2.
  rewrite (binary_round_aux_exact (s <? 0) (m0~0) m0 (dv - 53 - 2)
             (dv - 53 - 1)); try lia.
  2:{ rewrite <- H2. replace (dv - 53 - 1 - (dv - 53 - 2)) with 1 by lia.
      change (2 ^ 1) with 2. lia. }
  cbn [int_of_float]. f_equal.
  rewrite Z.shiftl_div_pow2 by lia.
  rewrite Hm0. fold dv.
  replace (- (dv - 53 - 1)) with ((53 - dv) + 1) by lia.
  rewrite Z.pow_add_r by lia. change (2 ^ 1) with 2.
  rewrite (Z.mul_comm (2 ^ (53 - dv)) 2).
  rewrite Z.div_mul_cancel_r;
    [|lia | pose proof (pow2_pos (53 - dv) ltac:(lia)); lia].
  rewrite Hv.
  rewrite (Z.quot_div s 2 ltac:(lia)). change (Z.sgn 2) with 1.
  change (Z.abs 2) with 2. unfold cond_Zopp.
  destruct (s <? 0) eqn:E; [apply Z.ltb_lt in E | apply Z.ltb_ge in E].
  - rewrite Z.sgn_neg by lia. lia.
  - rewrite Z.sgn_pos by lia. lia.
Qed.

Lemma mean_2_trunc (l r : Z) :
  -32768 <= l <= 32767 -> -32768 <= r <= 32767 ->
  astype_int16 (mean_2 (l, r)) = (l + r) ÷ 2.
Proof.
  intros Hl Hr. unfold astype_int16, mean_2. cbn [fst snd].
  assert (H52 : 2 ^ 52 = 4503599627370496) by reflexivity.
  assert (H53 : 2 ^ 53 = 9007199254740992) by reflexivity.
  rewrite fadd_exact by lia.
  now rewrite half_exact by lia.
Qed.

Lemma quot_2_range (l r : Z) :
  -32768 <= l <= 32767 -> -32768 <= r <= 32767 ->
  -32768 <= (l + r) ÷ 2 <= 32767.
Proof.
  intros Hl Hr.
  destruct (Z.le_gt_cases 0 (l + r)) as [H|H].
  - rewrite Z.quot_div_nonneg by lia.
    split; [apply Z.le_trans with 0; [lia | apply Z.div_pos; lia]|].
    assert ((l + r) / 2 < 32768); [|lia].
    apply Z.div_lt_upper_bound; lia.
  - replace (l + r) with (- (- (l + r))) by lia.
    rewrite Z.quot_opp_l by lia.
    rewrite Z.quot_div_nonneg by lia.
    assert (0 <= (- (l + r)) / 2 <= 32768); [|lia].
    split; [apply Z.div_pos; lia|].
    apply Z.div_le_upper_bound; lia.
Qed.

(** ** Reading a file *)

Lemma frombuffer_even (b : bytes_t) :
  Z.even (len b) = true -> frombuffer b = Ok (int16_array b).
Proof. intros H. unfold frombuffer. now rewrite H. Qed.

Lemma even_of_mod_4 (n : Z) : n mod 4 = 0 -> Z.even n = true.
Proof.
  intros H. pose proof (Z.div_mod n 4 ltac:(lia)) as Hn.
  replace n with (0 + 2 * (2 * (n / 4))) by lia.
  now rewrite Z.even_add_mul_2.
Qed.

Lemma downmix_samples (a : list Z) :
  Forall (fun v => -32768 <= v <= 32767) a ->
  map (fun row => astype_int16 (mean_2 row)) (rows a)
  = map (fun row => (fst row + snd row) ÷ 2) (rows a)
  /\ Forall (fun v => -32768 <= v <= 32767)
            (map (fun row => (fst row + snd row) ÷ 2) (rows a)).
Proof.
  intros Ha. pose proof (rows_range a Ha) as Hr. split.
  - apply map_ext_in. intros [l r] Hin.
    rewrite Forall_forall in Hr. destruct (Hr _ Hin) as [Hl Hr'].
    now apply mean_2_trunc.
  - apply Forall_forall. intros v Hin. apply in_map_iff in Hin.
    destruct Hin as ([l r] & <- & Hin).
    rewrite Forall_forall in Hr. destruct (Hr _ Hin) as [Hl Hr'].
    now apply quot_2_range.
Qed.

Lemma read_wave_mono
    (resample : list Z -> Z -> Z -> result (list Z))
    (w : wave_file) (target_sample_rate : Z) :
  sample_width w = 2 -> num_channels w <> 2 ->
  In (file_rate w) [8000; 16000; 32000] ->
  Z.even (len (pcm_data w)) = true ->
  read_wave resample w target_sample_rate
  = match int_truediv (len (pcm_data w) / 2) target_sample_rate with
    | Ok seconds => Read (pcm_data w) target_sample_rate seconds
    | Raise e => Failed e
    end.
Proof.
  intros Hsw Hch Hrate Heven. unfold read_wave.
  rewrite Hsw. cbn [Z.eqb Pos.eqb negb].
  rewrite (frombuffer_even _ Heven). cbn [bind].
  replace (num_channels w =? 2) with false
    by (symmetry; apply Z.eqb_neq; exact Hch).
  cbn [bind].
  assert (He : expected_rate (file_rate w) = true).
  { unfold expected_rate.
    destruct Hrate as [<- | [<- | [<- | []]]]; reflexivity. }
  rewrite He. cbn [negb bind].
  rewrite (tobytes_int16_array _ Heven).
  pose proof (len_int16_array _ Heven) as Hlen.
  replace (len (int16_array (pcm_data w))) with (len (pcm_data w) / 2).
  2:{ rewrite <- Hlen. rewrite Z.mul_comm. now rewrite Z.div_mul by lia. }
  now destruct (int_truediv (len (pcm_data w) / 2) target_sample_rate).
Qed.

(** X17. A file of 16-bit samples that is not stereo and has one of the
    rates 8000, 16000 and 32000 is returned as it is: the bytes are those
    of the file, whatever the number of channels (1, or 3 and more, left
    interleaved). The rate returned is [target_sample_rate], not the rate
    of the file, and the duration is the number of samples divided by
    [target_sample_rate]: a file at 8000 Hz read with the target 16000 is
    returned as audio at 16000 Hz of half its duration. *)
Theorem read_wave_returns_the_bytes
    (resample : list Z -> Z -> Z -> result (list Z))
    (w : wave_file) (target_sample_rate : Z) :
  sample_width w = 2 -> num_channels w <> 2 ->
  In (file_rate w) [8000; 16000; 32000] ->
  Z.even (len (pcm_data w)) = true ->
  read_wave resample w target_sample_rate
  = match int_truediv (len (pcm_data w) / 2) target_sample_rate with
    | Ok seconds => Read (pcm_data w) target_sample_rate seconds
    | Raise e => Failed e
    end.
Proof. apply read_wave_mono. Qed.

Lemma read_wave_returns_the_bytes_witness :
  read_wave (fun _ _ _ => Raise ValueError)
    (mkWave 1 2 8000 2 [x01; x02; xff; xff]) 16000
  = Read [x01; x02; xff; xff] 16000 (S754_finite false 4611686018427388 (-65)).
Proof.
  exact (read_wave_returns_the_bytes (fun _ _ _ => Raise ValueError)
           (mkWave 1 2 8000 2 [x01; x02; xff; xff]) 16000
           eq_refl ltac:(discriminate) (or_introl eq_refl) eq_refl).
Defined.

Lemma read_wave_stereo
    (resample : list Z -> Z -> Z -> result (list Z))
    (w : wave_file) (target_sample_rate : Z) :
  sample_width w = 2 -> num_channels w = 2 ->
  In (file_rate w) [8000; 16000; 32000] ->
  len (pcm_data w) mod 4 = 0 ->
  let mono := map (fun row => (fst row + snd row) ÷ 2)
                  (rows (int16_array (pcm_data w))) in
  read_wave resample w target_sample_rate
  = match int_truediv (len (pcm_data w) / 4) target_sample_rate with
    | Ok seconds => Read (tobytes mono) target_sample_rate seconds
    | Raise e => Failed e
    end
  /\ int16_array (tobytes mono) = mono
  /\ 2 * len (tobytes mono) = len (pcm_data w).
Proof.
  intros Hsw Hch Hrate Hmod mono.
  pose proof (even_of_mod_4 _ Hmod) as Heven.
  pose proof (len_int16_array _ Heven) as Hlen.
  assert (Heven2 : Z.even (len (int16_array (pcm_data w))) = true).
  { pose proof (Z.div_mod (len (pcm_data w)) 4 ltac:(lia)) as Hn.
    replace (len (int16_array (pcm_data w)))
      with (0 + 2 * (len (pcm_data w) / 4)) by lia.
    now rewrite Z.even_add_mul_2. }
  pose proof (len_rows _ Heven2) as Hrows.
  destruct (downmix_samples _ (int16_array_range (pcm_data w)))
    as [Hmap Hrange].
  fold mono in Hmap, Hrange.
  assert (Hmono : len mono = len (pcm_data w) / 4).
  { assert (Hm : len mono = len (rows (int16_array (pcm_data w))))
      by (unfold mono, len; now rewrite length_map).
    pose proof (Z.div_mod (len (pcm_data w)) 4 ltac:(lia)) as Hn. lia. }
  split; [|split].
  - unfold read_wave. rewrite Hsw. cbn [Z.eqb Pos.eqb negb].
    rewrite (frombuffer_even _ Heven). cbn [bind].
    rewrite Hch. cbn [Z.eqb Pos.eqb].
    unfold reshape_2. rewrite Heven2. cbn [bind]. rewrite Hmap.
    assert (He : expected_rate (file_rate w) = true).
    { unfold expected_rate.
      destruct Hrate as [<- | [<- | [<- | []]]]; reflexivity. }
    rewrite He. cbn [negb bind]. rewrite Hmono.
    now destruct (int_truediv (len (pcm_data w) / 4) target_sample_rate).
  - now apply int16_array_tobytes.
  - rewrite len_tobytes, Hmono.
    pose proof (Z.div_mod (len (pcm_data w)) 4 ltac:(lia)) as Hn. lia.
Qed.

(** X18. A stereo file of 16-bit samples with one of the rates 8000, 16000
    and 32000 is mixed down to one channel: each sample returned is the
    mean of the left and the right sample with its fraction dropped
    (towards zero: the mean of -1 and 0 is 0), the sum and the division
    being exact in binary64. The bytes returned are half those of the
    file. *)
Theorem read_wave_mixes_stereo_down
    (resample : list Z -> Z -> Z -> result (list Z))
    (w : wave_file) (target_sample_rate : Z) :
  sample_width w = 2 -> num_channels w = 2 ->
  In (file_rate w) [8000; 16000; 32000] ->
  len (pcm_data w) mod 4 = 0 ->
  let mono := map (fun row => (fst row + snd row) ÷ 2)
                  (rows (int16_array (pcm_data w))) in
  read_wave resample w target_sample_rate
  = match int_truediv (len (pcm_data w) / 4) target_sample_rate with
    | Ok seconds => Read (tobytes mono) target_sample_rate seconds
    | Raise e => Failed e
    end
  /\ int16_array (tobytes mono) = mono
  /\ 2 * len (tobytes mono) = len (pcm_data w).
Proof. apply read_wave_stereo. Qed.

Lemma read_wave_mixes_stereo_down_witness :
  read_wave (fun _ _ _ => Raise ValueError)
    (mkWave 2 2 16000 2 [xff; xff; x00; x00; x03; x00; x04; x00]) 16000
  = Read [x00; x00; x03; x00] 16000
         (S754_finite false 4611686018427388 (-65)).
Proof.
  exact (proj1 (read_wave_mixes_stereo_down (fun _ _ _ => Raise ValueError)
                  (mkWave 2 2 16000 2 [xff; xff; x00; x00; x03; x00; x04; x00])
                  16000 eq_refl eq_refl (or_intror (or_introl eq_refl))
                  eq_refl)).
Defined.

(** X19. What [read_wave] refuses. A sample width other than 2 fails the
    [assert], before the samples are looked at. With 16-bit samples, a
    number of bytes that is odd, and in stereo a number of samples that is
    odd, raise [ValueError]; and a target rate of 0 raises
    [ZeroDivisionError] when the duration is computed, the samples being
    read already. *)
Theorem read_wave_refuses
    (resample : list Z -> Z -> Z -> result (list Z))
    (w : wave_file) (target_sample_rate : Z) :
  (sample_width w <> 2 ->
   read_wave resample w target_sample_rate = AssertionError)
  /\ (sample_width w = 2 -> Z.even (len (pcm_data w)) = false ->
      read_wave resample w target_sample_rate = Failed ValueError)
  /\ (sample_width w = 2 -> num_channels w = 2 ->
      len (pcm_data w) mod 4 = 2 ->
      read_wave resample w target_sample_rate = Failed ValueError)
  /\ (sample_width w = 2 -> In (file_rate w) [8000; 16000; 32000] ->
      Z.even (len (pcm_data w)) = true ->
      (num_channels w = 2 -> len (pcm_data w) mod 4 = 0) ->
      read_wave resample w 0 = Failed ZeroDivisionError).
Proof.
  split; [|split; [|split]].
  - intros Hsw. unfold read_wave.
    replace (sample_width w =? 2) with false
      by (symmetry; apply Z.eqb_neq; exact Hsw).
    reflexivity.
  - intros Hsw Hodd. unfold read_wave. rewrite Hsw.
    cbn [Z.eqb Pos.eqb negb]. unfold frombuffer. rewrite Hodd. reflexivity.
  - intros Hsw Hch Hmod. unfold read_wave. rewrite Hsw.
    cbn [Z.eqb Pos.eqb negb].
    pose proof (Z.div_mod (len (pcm_data w)) 4 ltac:(lia)) as Hn.
    assert (Heven : Z.even (len (pcm_data w)) = true).
    { replace (len (pcm_data w))
        with (0 + 2 * (2 * (len (pcm_data w) / 4) + 1)) by lia.
      now rewrite Z.even_add_mul_2. }
    rewrite (frombuffer_even _ Heven). cbn [bind].
    rewrite Hch. cbn [Z.eqb Pos.eqb].
    pose proof (len_int16_array _ Heven) as Hlen.
    unfold reshape_2.
    replace (Z.even (len (int16_array (pcm_data w)))) with false;
      [reflexivity|].
    replace (len (int16_array (pcm_data w)))
      with (1 + 2 * (len (pcm_data w) / 4)) by lia.
    now rewrite Z.even_add_mul_2.
  - intros Hsw Hrate Heven Hst.
    destruct (Z.eq_dec (num_channels w) 2) as [Hch | Hch].
    + rewrite (proj1 (read_wave_stereo resample w 0 Hsw Hch
                        Hrate (Hst Hch))).
      reflexivity.
    + rewrite (read_wave_mono resample w 0 Hsw Hch Hrate Heven).
      reflexivity.
Qed.

Lemma read_wave_refuses_witness :
  read_wave (fun _ _ _ => Raise ValueError)
    (mkWave 1 1 16000 2 [x01; x02]) 16000
  = AssertionError
  /\ read_wave (fun _ _ _ => Raise ValueError)
       (mkWave 1 2 16000 1 [x01; x02; x03]) 16000
     = Failed ValueError
  /\ read_wave (fun _ _ _ => Raise ValueError)
       (mkWave 1 2 16000 1 [x01; x02]) 0
     = Failed ZeroDivisionError.
Proof.
  split; [|split].
  - assert (H : sample_width (mkWave 1 1 16000 2 [x01; x02]) <> 2)
      by discriminate.
    exact (proj1 (read_wave_refuses (fun _ _ _ => Raise ValueError)
                    (mkWave 1 1 16000 2 [x01; x02]) 16000) H).
  - exact (proj1 (proj2 (read_wave_refuses (fun _ _ _ => Raise ValueError)
                           (mkWave 1 2 16000 1 [x01; x02; x03]) 16000))
             eq_refl eq_refl).
  - assert (H : num_channels (mkWave 1 2 16000 1 [x01; x02]) = 2 ->
                len (pcm_data (mkWave 1 2 16000 1 [x01; x02])) mod 4 = 0)
      by discriminate.
    exact (proj2 (proj2 (proj2 (read_wave_refuses
                                  (fun _ _ _ => Raise ValueError)
                                  (mkWave 1 2 16000 1 [x01; x02]) 16000)))
             eq_refl (or_intror (or_introl eq_refl)) eq_refl H).
Defined.
